(** * Metashape TLS replacement helper ([replace_tls.py]): model and properties

    The script imports E57 laser scans into a Metashape chunk, moves every
    imported scan onto the pose of the station that has the same name, and
    transfers the camera masks of that station to the cameras of the new scan.

    Modelling conventions.
    - [Metashape.Matrix] is a 4x4 matrix.  Its entries are rationals ([Qc])
      here, and the operations of the host are the exact ones.  The host
      computes with double precision numbers: the two agree where no
      rounding occurs, as on the matrices of small integers of the examples,
      and nothing below is stated that rounding would make false; how far
      [delta * I] is from [R] in the arithmetic of the host is not a
      question this model answers.  The script never updates a matrix in
      place, hence matrices are values.
    - Host objects (point clouds, cameras, masks) live in a [World].  A
      reference to an object is its index in the corresponding list, so two
      references to one object see each other's updates.
    - Where the script probes an attribute ([getattr] with a default,
      [hasattr]) or guards a host call with [try]/[except], the object carries
      the outcome of the probe: an [option] for a value that may be missing, a
      boolean for a call that may be refused.
    - A string stands for the UTF-8 encoding of the Python string, where
      the order of the bytes is the order of the code points.  The
      builtins [str.lower], [str.strip] and [os.path.join] are not code of
      the script: the model takes them as parameters ([Builtins]), and a
      property that needs more than their mere existence names the facts
      about them it rests on ([BuiltinLaws]).  The functions that act on
      ASCII letters and ASCII white space, with the POSIX join, are one
      instance; the examples are evaluated with it, on ASCII strings, where
      it is what Python does. *)

From Stdlib Require Import ZArith QArith Qcanon Ascii String DecimalString DecimalNat.
From stdpp Require Import base option list sorting gmap strings.

(** ** 4x4 matrices *)

Module Mat.
Local Open Scope Qc_scope.

Record Matrix : Type := mkMatrix {
  m00 : Qc; m01 : Qc; m02 : Qc; m03 : Qc;
  m10 : Qc; m11 : Qc; m12 : Qc; m13 : Qc;
  m20 : Qc; m21 : Qc; m22 : Qc; m23 : Qc;
  m30 : Qc; m31 : Qc; m32 : Qc; m33 : Qc }.

(** [A * B] of the host. *)
Definition mul (A B : Matrix) : Matrix :=
  mkMatrix
   (m00 A * m00 B + m01 A * m10 B + m02 A * m20 B + m03 A * m30 B)
   (m00 A * m01 B + m01 A * m11 B + m02 A * m21 B + m03 A * m31 B)
   (m00 A * m02 B + m01 A * m12 B + m02 A * m22 B + m03 A * m32 B)
   (m00 A * m03 B + m01 A * m13 B + m02 A * m23 B + m03 A * m33 B)
   (m10 A * m00 B + m11 A * m10 B + m12 A * m20 B + m13 A * m30 B)
   (m10 A * m01 B + m11 A * m11 B + m12 A * m21 B + m13 A * m31 B)
   (m10 A * m02 B + m11 A * m12 B + m12 A * m22 B + m13 A * m32 B)
   (m10 A * m03 B + m11 A * m13 B + m12 A * m23 B + m13 A * m33 B)
   (m20 A * m00 B + m21 A * m10 B + m22 A * m20 B + m23 A * m30 B)
   (m20 A * m01 B + m21 A * m11 B + m22 A * m21 B + m23 A * m31 B)
   (m20 A * m02 B + m21 A * m12 B + m22 A * m22 B + m23 A * m32 B)
   (m20 A * m03 B + m21 A * m13 B + m22 A * m23 B + m23 A * m33 B)
   (m30 A * m00 B + m31 A * m10 B + m32 A * m20 B + m33 A * m30 B)
   (m30 A * m01 B + m31 A * m11 B + m32 A * m21 B + m33 A * m31 B)
   (m30 A * m02 B + m31 A * m12 B + m32 A * m22 B + m33 A * m32 B)
   (m30 A * m03 B + m31 A * m13 B + m32 A * m23 B + m33 A * m33 B).

Definition scale (k : Qc) (A : Matrix) : Matrix :=
  mkMatrix (k * m00 A) (k * m01 A) (k * m02 A) (k * m03 A)
           (k * m10 A) (k * m11 A) (k * m12 A) (k * m13 A)
           (k * m20 A) (k * m21 A) (k * m22 A) (k * m23 A)
           (k * m30 A) (k * m31 A) (k * m32 A) (k * m33 A).

Definition identity : Matrix :=
  mkMatrix 1 0 0 0  0 1 0 0  0 0 1 0  0 0 0 1.

Definition det3 (a b c d e f g h i : Qc) : Qc :=
  a * (e * i - f * h) - b * (d * i - f * g) + c * (d * h - e * g).

(** Transposed matrix of cofactors. *)
Definition adjugate (A : Matrix) : Matrix :=
  let '(mkMatrix a00 a01 a02 a03 a10 a11 a12 a13
                 a20 a21 a22 a23 a30 a31 a32 a33) := A in
  mkMatrix
    (det3 a11 a12 a13 a21 a22 a23 a31 a32 a33)
    (- det3 a01 a02 a03 a21 a22 a23 a31 a32 a33)
    (det3 a01 a02 a03 a11 a12 a13 a31 a32 a33)
    (- det3 a01 a02 a03 a11 a12 a13 a21 a22 a23)
    (- det3 a10 a12 a13 a20 a22 a23 a30 a32 a33)
    (det3 a00 a02 a03 a20 a22 a23 a30 a32 a33)
    (- det3 a00 a02 a03 a10 a12 a13 a30 a32 a33)
    (det3 a00 a02 a03 a10 a12 a13 a20 a22 a23)
    (det3 a10 a11 a13 a20 a21 a23 a30 a31 a33)
    (- det3 a00 a01 a03 a20 a21 a23 a30 a31 a33)
    (det3 a00 a01 a03 a10 a11 a13 a30 a31 a33)
    (- det3 a00 a01 a03 a10 a11 a13 a20 a21 a23)
    (- det3 a10 a11 a12 a20 a21 a22 a30 a31 a32)
    (det3 a00 a01 a02 a20 a21 a22 a30 a31 a32)
    (- det3 a00 a01 a02 a10 a11 a12 a30 a31 a32)
    (det3 a00 a01 a02 a10 a11 a12 a20 a21 a22).

(** The entries [M[r, c]], row by row. *)
Definition entries (A : Matrix) : list Q :=
  [ this (m00 A); this (m01 A); this (m02 A); this (m03 A);
    this (m10 A); this (m11 A); this (m12 A); this (m13 A);
    this (m20 A); this (m21 A); this (m22 A); this (m23 A);
    this (m30 A); this (m31 A); this (m32 A); this (m33 A) ].

(** Expansion along the first row. *)
Definition det (A : Matrix) : Qc :=
  m00 A * m00 (adjugate A) + m01 A * m10 (adjugate A)
  + m02 A * m20 (adjugate A) + m03 A * m30 (adjugate A).

(** Modelled from the spec: [Matrix.inv()] is the host's; the spec has it fail
    on a singular matrix ("fails with an InvalidTransform error if the
    imported effective transform is singular").  [None] is that failure, which
    the caller sees as a raised exception; otherwise the result is the inverse
    matrix. *)
Definition inv (A : Matrix) : option Matrix :=
  if Qc_eq_dec (det A) 0 then None
  else Some (scale (/ det A) (adjugate A)).

End Mat.

Abbreviation Matrix := Mat.Matrix.

(** ** Python's builtins *)

(** [s.lower()], [s.strip()] and [os.path.join(folder, fname)]. *)
Class Builtins : Type := {
  lower : string → string;
  strip : string → string;
  path_join : string → string → string
}.

(** The ASCII letters in lower case. *)
Definition lower_ascii (c : ascii) : ascii :=
  let n := nat_of_ascii c in
  if (65 <=? n)%nat && (n <=? 90)%nat then ascii_of_nat (n + 32) else c.

(** [s.lower()] for a string of ASCII characters. *)
Fixpoint ascii_lower (s : string) : string :=
  match s with
  | EmptyString => EmptyString
  | String c s' => String (lower_ascii c) (ascii_lower s')
  end.

(** The ASCII white space of [str.strip()]: TAB, LF, VT, FF, CR, FS, GS, RS,
    US, SP. *)
Definition is_space (c : ascii) : bool :=
  let n := nat_of_ascii c in
  ((9 <=? n)%nat && (n <=? 13)%nat) || ((28 <=? n)%nat && (n <=? 32)%nat).

Fixpoint ascii_lstrip (s : string) : string :=
  match s with
  | EmptyString => EmptyString
  | String c s' => if is_space c then ascii_lstrip s' else s
  end.

(** [s.strip()] for a string of ASCII characters. *)
Definition ascii_strip (s : string) : string :=
  String.rev (ascii_lstrip (String.rev (ascii_lstrip s))).

(** The strings of ASCII characters. *)
Definition is_ascii (s : string) : Prop :=
  forallb (λ c, (nat_of_ascii c <? 128)%nat) (list_ascii_of_string s) = true.

(** What the properties use of Python's [lower] and [strip].  On ASCII
    strings they are the functions above.  Lowering twice is lowering once.
    An underscore separates what [lower] does on its two sides (the one
    mapping that looks at the neighbours of a letter, that of the capital
    sigma, stops at an underscore).  Only [.e57] and [.E57] are lowered to
    [.e57].  White space is no letter and [lower] makes none, so [lower] and
    [strip] commute and a string is stripped when its lower-case form is.
    [strip] takes away the white space at both ends and nothing else. *)
Class BuiltinLaws `{Builtins} : Prop := {
  lower_ascii_only s : is_ascii s → lower s = ascii_lower s;
  strip_ascii_only s : is_ascii s → strip s = ascii_strip s;
  lower_idemp s : lower (lower s) = lower s;
  lower_underscore s t :
    lower (s +:+ "_" +:+ t) = lower s +:+ "_" +:+ lower t;
  lower_e57 f p :
    lower f = p +:+ ".e57" →
    ∃ base c, f = base +:+ "." +:+ String c "57" ∧ lower_ascii c = "e"%char;
  strip_idemp s : strip (strip s) = strip s;
  lower_strip s : lower (strip s) = strip (lower s);
  strip_lower s : strip (lower s) = lower s → strip s = s;
  strip_pad ws1 s ws2 :
    strip ws1 = "" → strip ws2 = "" → strip (ws1 +:+ s +:+ ws2) = strip s;
  strip_underscore s t :
    strip s = s → strip t = t → strip (s +:+ "_" +:+ t) = s +:+ "_" +:+ t
}.

(** ** Small utility helpers *)

(** [_norm_name]: [(s or "").strip().lower()]. *)
Definition _norm_name `{Builtins} (s : string) : string := lower (strip s).

(** [f"{i:02d}"] for a natural number: decimal digits, padded with a zero to
    two characters. *)
Definition fmt_02d (i : nat) : string :=
  NilEmpty.string_of_uint
    (if (i <? 10)%nat then Decimal.D0 (Nat.to_uint i) else Nat.to_uint i).

(** [f"{desired}_{i:02d}"] *)
Definition candidate (desired : string) (i : nat) : string :=
  desired +:+ "_" +:+ fmt_02d i.

(** The [while True] loop of [_make_unique_label], from counter [i], cut
    after [fuel] iterations ([None] when the cut is reached). *)
Fixpoint suffix_loop `{Builtins} (fuel : nat) (desired : string)
    (existing_lower : gset string) (i : nat) : option string :=
  match fuel with
  | O => None
  | S fuel' =>
      let c := candidate desired i in
      if decide (lower c ∈ existing_lower) then
        suffix_loop fuel' desired existing_lower (i + 1)
      else Some c
  end.

(** [_make_unique_label] with the loop cut after [fuel] iterations. *)
Definition make_unique_label_in `{Builtins} (fuel : nat) (desired : string)
    (existing_lower : gset string) : option string :=
  if decide (lower desired ∈ existing_lower) then
    suffix_loop fuel desired existing_lower 2
  else Some desired.

(** [_make_unique_label].  One more iteration than the set has elements is
    always enough ([make_unique_label_in_total] below), so the default is
    never taken. *)
Definition _make_unique_label `{Builtins} (desired : string)
    (existing_lower : gset string) : string :=
  default desired
    (make_unique_label_in (S (size existing_lower)) desired existing_lower).

(** ** Host objects *)

Record PointCloudGroup : Type := mkGroup {
  group_key : Z;
  group_transform : option Matrix      (* getattr(g, "transform", None) *)
}.

Record PointCloud : Type := mkPointCloud {
  pc_key : Z;
  pc_label : string;
  pc_transform : option Matrix;        (* getattr(pc, "transform", None) *)
  pc_group : option PointCloudGroup;   (* getattr(pc, "group", None) *)
  pc_enabled : bool;
  pc_is_laser_scan : bool;
  pc_group_writable : bool;            (* [pc.group = g] does not raise *)
  pc_enabled_writable : bool           (* [pc.enabled = b] does not raise *)
}.

(** A mask object.  [mask_copy_ok]: the object has a [copy] method and the
    call returns; [mask_ctor_ok]: [Metashape.Mask(m)] returns;
    [mask_clear_ok]: the object has a [clear] method and the call returns. *)
Record Mask : Type := mkMask {
  mask_data : list bool;
  mask_copy_ok : bool;
  mask_ctor_ok : bool;
  mask_clear_ok : bool
}.

(** A camera.  [cam_mask] is [None] when the object has no [mask] attribute,
    [Some None] when the attribute holds [None], [Some (Some r)] when it holds
    the mask object [r].  [cam_point_cloud] is the point cloud object the
    camera links to, when that link is exposed. *)
Record Camera : Type := mkCamera {
  cam_label : option string;           (* getattr(c, "label", "") *)
  cam_key : option Z;                  (* getattr(c, "key", 0) *)
  cam_point_cloud : option nat;        (* getattr(cam, "point_cloud", None) *)
  cam_dense_cloud_id : option Z;       (* getattr(cam, "dense_cloud_id", None) *)
  cam_mask : option (option nat);
  cam_mask_accepts_none : bool;        (* [cam.mask = None] does not raise *)
  cam_mask_accepts_mask : bool;        (* [cam.mask = m] does not raise *)
  cam_resetMask : option bool          (* hasattr(cam, "resetMask"); call returns *)
}.

(** What the script prints, and its calls to the host's dialogs and import
    primitive, in order.  The dumps of matrices ([_mat_to_str]) are left
    out. *)
Inductive Event : Type :=
  | EvMessageBox
  | EvCancelled
  | EvNoFiles (folder : string)
  | EvNoScans
  | EvDuplicateLabel (label : string)
  | EvHeader (files scans : nat)
  | EvSkipNoTransform (fname label : string)
  | EvMatch (fname label : string) (key : Z)
  | EvSkipNoSrcEff
  | EvImport (path : string)
  | EvErrNoNewPc
  | EvErrNoImportedEff
  | EvCamerasAttached (src new : nat)
  | EvCleared (cleared total : nat)
  | EvCannotTransfer
  | EvCountMismatch (src new n : nat)
  | EvCopied (copied n : nat).

(** The chunk and the console. *)
Record World : Type := mkWorld {
  point_clouds : list PointCloud;
  cameras : list Camera;
  masks : list Mask;
  console : list Event
}.

#[global] Instance PointCloud_inhabited : Inhabited PointCloud :=
  populate (mkPointCloud 0 "" None None false false false false).

Definition set_pc_label (l : string) (pc : PointCloud) : PointCloud :=
  mkPointCloud (pc_key pc) l (pc_transform pc) (pc_group pc) (pc_enabled pc)
    (pc_is_laser_scan pc) (pc_group_writable pc) (pc_enabled_writable pc).

Definition set_pc_transform (T : option Matrix) (pc : PointCloud) : PointCloud :=
  mkPointCloud (pc_key pc) (pc_label pc) T (pc_group pc) (pc_enabled pc)
    (pc_is_laser_scan pc) (pc_group_writable pc) (pc_enabled_writable pc).

Definition set_pc_group (g : option PointCloudGroup) (pc : PointCloud) : PointCloud :=
  mkPointCloud (pc_key pc) (pc_label pc) (pc_transform pc) g (pc_enabled pc)
    (pc_is_laser_scan pc) (pc_group_writable pc) (pc_enabled_writable pc).

Definition set_pc_enabled (b : bool) (pc : PointCloud) : PointCloud :=
  mkPointCloud (pc_key pc) (pc_label pc) (pc_transform pc) (pc_group pc) b
    (pc_is_laser_scan pc) (pc_group_writable pc) (pc_enabled_writable pc).

Definition set_cam_mask (m : option nat) (cam : Camera) : Camera :=
  mkCamera (cam_label cam) (cam_key cam) (cam_point_cloud cam)
    (cam_dense_cloud_id cam) (Some m) (cam_mask_accepts_none cam)
    (cam_mask_accepts_mask cam) (cam_resetMask cam).

Definition set_point_clouds (pcs : list PointCloud) (w : World) : World :=
  mkWorld pcs (cameras w) (masks w) (console w).

Definition print (e : Event) (w : World) : World :=
  mkWorld (point_clouds w) (cameras w) (masks w) (console w ++ [e]).

(** ** Transforms *)

(** [_copy_matrix]: a copy, a constructor copy or the object itself; one
    value in this model. *)
Definition _copy_matrix (M : option Matrix) : option Matrix := M.

(** [_effective_T] *)
Definition _effective_T (pc : PointCloud) : option Matrix :=
  match pc_transform pc with
  | None => None
  | Some T =>
      let g := pc_group pc in
      let gT := match g with Some g => group_transform g | None => None end in
      match gT with
      | Some gT => Some (Mat.mul gT T)
      | None => Some T
      end
  end.

(** [_apply_delta_to_pc_transform] *)
Definition _apply_delta_to_pc_transform (pc : PointCloud) (delta : Matrix)
    : PointCloud :=
  match pc_transform pc with
  | None => pc
  | Some T => set_pc_transform (Some (Mat.mul delta T)) pc
  end.

(** [delta = T_src_eff * T_new0_eff.inv()]; [None] when [inv] fails. *)
Definition compute_delta (T_src_eff T_new0_eff : Matrix) : option Matrix :=
  match Mat.inv T_new0_eff with
  | Some i => Some (Mat.mul T_src_eff i)
  | None => None
  end.

(** ** Camera association and mask utilities *)

(** [_camera_belongs_to_pointcloud]; [pc] is the reference of the point
    cloud object.  A comparison that raises counts as a failed test. *)
Definition _camera_belongs_to_pointcloud (w : World) (cam : Camera) (pc : nat)
    : bool :=
  if decide (cam_point_cloud cam = Some pc) then true
  else if decide (cam_dense_cloud_id cam = pc_key <$> point_clouds w !! pc)
  then true
  else false.

(** Python's order on the tuples [(label, key)]: strings by code, then
    integers. *)
Definition sort_key_leb (a b : string * Z) : bool :=
  match String.compare a.1 b.1 with
  | Lt => true
  | Eq => (a.2 <=? b.2)%Z
  | Gt => false
  end.

(** The key of [cams.sort]: [(getattr(c, "label", "") or "", getattr(c, "key", 0))]. *)
Definition camera_sort_key (c : Camera) : string * Z :=
  (default "" (cam_label c), default 0%Z (cam_key c)).

Section sorting.
Context {A K : Type} (leb : K → K → bool) (key : A → K).

Fixpoint insert_by (x : A) (l : list A) : list A :=
  match l with
  | [] => [x]
  | y :: l' => if leb (key x) (key y) then x :: l else y :: insert_by x l'
  end.

(** [list.sort(key=...)] and [sorted]: a stable sort.  Every element is put
    in front of the elements of the sorted rest that are not smaller, so
    equal keys keep their input order. *)
Definition sort_by (l : list A) : list A := foldr insert_by [] l.

(** The order of the elements by their keys. *)
Definition key_le (x y : A) : Prop := leb (key x) (key y) = true.
End sorting.

(** The sort key of the camera object [i]. *)
Definition camera_key_at (w : World) (i : nat) : string * Z :=
  from_option camera_sort_key ("", 0%Z) (cameras w !! i).

(** [_attached_cameras]: references of the cameras of the chunk that belong
    to [pc], sorted by [(label, key)]. *)
Definition _attached_cameras (w : World) (pc : nat) : list nat :=
  let cams :=
    filter (λ i, from_option (λ cam, _camera_belongs_to_pointcloud w cam pc)
                   false (cameras w !! i))
           (seq 0 (length (cameras w))) in
  sort_by sort_key_leb (camera_key_at w) cams.

(** [_copy_mask] on the heap of mask objects: a fresh object with the same
    content when [copy()] or the constructor delivers, the same object
    otherwise. *)
Definition _copy_mask (ms : list Mask) (mask_obj : option nat)
    : list Mask * option nat :=
  match mask_obj with
  | None => (ms, None)
  | Some r =>
      match ms !! r with
      | Some m =>
          if mask_copy_ok m then (ms ++ [m], Some (length ms))
          else if mask_ctor_ok m then (ms ++ [m], Some (length ms))
          else (ms, Some r)
      | None => (ms, Some r)
      end
  end.

(** [m.clear()]: the content is emptied in place. *)
Definition clear_mask (m : Mask) : Mask :=
  mkMask (replicate (length (mask_data m)) false)
         (mask_copy_ok m) (mask_ctor_ok m) (mask_clear_ok m).

(** [_clear_camera_mask]: the new heap, the new camera, and the result. *)
Definition _clear_camera_mask (ms : list Mask) (cam : Camera)
    : list Mask * Camera * bool :=
  let rare_fallback (ms : list Mask) :=
    match cam_resetMask cam with
    | Some true =>
        (ms, match cam_mask cam with
             | Some _ => set_cam_mask None cam
             | None => cam
             end, true)
    | _ => (ms, cam, false)
    end in
  match cam_mask cam with
  | Some m =>
      if cam_mask_accepts_none cam then (ms, set_cam_mask None cam, true)
      else
        match m with
        | Some r =>
            match ms !! r with
            | Some mo =>
                if mask_clear_ok mo then
                  let ms' := <[r := clear_mask mo]> ms in
                  if cam_mask_accepts_mask cam
                  then (ms', set_cam_mask (Some r) cam, true)
                  else rare_fallback ms'
                else rare_fallback ms
            | None => rare_fallback ms
            end
        | None => rare_fallback ms
        end
  | None => rare_fallback ms
  end.

(** The pairs visited by [for i in range(n)] with
    [n = min(len(src_cams), len(new_cams))]: [(src_cams[i], new_cams[i])]. *)
Definition pairing {A : Type} (src_cams new_cams : list A) : list (A * A) :=
  omap (λ i, s ← src_cams !! i; t ← new_cams !! i; Some (s, t))
       (seq 0 (length src_cams `min` length new_cams)).

(** The cameras of the chunk and the mask objects: what the mask transfer
    reads and updates. *)
Abbreviation Store := (list Camera * list Mask)%type.

Definition store (w : World) : Store := (cameras w, masks w).

Definition set_store (st : Store) (w : World) : World :=
  mkWorld (point_clouds w) st.1 st.2 (console w).

(** [getattr(cam, "mask", None)] for the camera object [i]. *)
Definition mask_of (st : Store) (i : nat) : option nat :=
  cam ← st.1 !! i; m ← cam_mask cam; m.

(** One round of [for cam in new_cams]: the store and the counter
    [cleared]. *)
Definition clear_step (acc : Store * nat) (i : nat) : Store * nat :=
  match acc.1.1 !! i with
  | Some cam =>
      let '(ms, cam', ok) := _clear_camera_mask acc.1.2 cam in
      ((<[i := cam']> acc.1.1, ms), if ok then S acc.2 else acc.2)
  | None => acc
  end.

Definition clear_new_masks (st : Store) (new_cams : list nat) : Store * nat :=
  foldl clear_step (st, 0) new_cams.

(** One round of [for i in range(n)], on the pair [(src_cams[i], new_cams[i])]:
    the store and the counter [copied]. *)
Definition copy_step (acc : Store * nat) (p : nat * nat) : Store * nat :=
  let src_mask := mask_of acc.1 p.1 in
  match src_mask with
  | None => acc
  | Some r =>
      let '(ms, m) := _copy_mask acc.1.2 (Some r) in
      match acc.1.1 !! p.2 with
      | Some cam =>
          if cam_mask_accepts_mask cam
          then ((<[p.2 := set_cam_mask m cam]> acc.1.1, ms), S acc.2)
          else ((acc.1.1, ms), acc.2)
      | None => ((acc.1.1, ms), acc.2)
      end
  end.

Definition copy_masks (st : Store) (pairs : list (nat * nat)) : Store * nat :=
  foldl copy_step (st, 0) pairs.

(** [_transfer_masks_from_src_to_new] *)
Definition _transfer_masks_from_src_to_new (w : World) (src_pc new_pc : nat)
    : World :=
  let src_cams := _attached_cameras w src_pc in
  let new_cams := _attached_cameras w new_pc in
  let w := print (EvCamerasAttached (length src_cams) (length new_cams)) w in
  let '(st, cleared) := clear_new_masks (store w) new_cams in
  let w := set_store st w in
  let w := match new_cams with
           | [] => w
           | _ => print (EvCleared cleared (length new_cams)) w
           end in
  match src_cams, new_cams with
  | [], _ | _, [] => print EvCannotTransfer w
  | _, _ =>
      let n := length src_cams `min` length new_cams in
      let '(st, copied) := copy_masks (store w) (pairing src_cams new_cams) in
      let w := set_store st w in
      let w := if decide (length src_cams = length new_cams) then w
               else print (EvCountMismatch (length src_cams) (length new_cams) n) w in
      print (EvCopied copied n) w
  end.

(** ** The host application *)

(** The format enumerator handed to the import primitive. *)
Definition Format : Type := nat.

(** What the script reads from the host besides the chunk: whether a document
    with a chunk is open, the answer of the directory dialog (the empty
    string when it is cancelled), the names in that directory with
    [os.path.isfile] of each, where the E57 enumerator can be found, and what
    [chunk.importPointCloud] adds to the chunk for a path. *)
Record Host : Type := mkHost {
  active_chunk : bool;
  selected_folder : string;
  listdir : list (string * bool);
  PointCloudFormatE57 : option Format;
  PointCloudFormat_PointCloudFormatE57 : option Format;
  importPointCloud : string → Format → list PointCloud * list Camera * list Mask
}.

(** ** Exceptions and state *)

Inductive Exn : Type :=
  | RuntimeError (msg : string)
  | InvalidTransform.

Inductive Outcome (A : Type) : Type :=
  | Done (a : A)
  | Raised (e : Exn).
Arguments Done {A} a.
Arguments Raised {A} e.

(** A computation on the world that returns or raises; the world it leaves
    behind is there in both cases. *)
Definition M (A : Type) : Type := World → Outcome A * World.

Definition raise {A : Type} (e : Exn) : M A := λ w, (Raised e, w).
Definition get : M World := λ w, (Done w, w).
Definition modify (f : World → World) : M unit := λ w, (Done tt, f w).

#[global] Instance M_ret : MRet M := λ A a w, (Done a, w).
#[global] Instance M_bind : MBind M := λ A B k m w,
  match m w with
  | (Done a, w') => k a w'
  | (Raised e, w') => (Raised e, w')
  end.

(** A [for] loop with the variables it updates in [acc]. *)
Fixpoint for_each {A S : Type} (body : S → A → M S) (acc : S) (l : list A)
    : M S :=
  match l with
  | [] => mret acc
  | x :: l' => acc' ← body acc x; for_each body acc' l'
  end.

Definition update_pc (i : nat) (f : PointCloud → PointCloud) : M unit :=
  modify (λ w, set_point_clouds (alter f i (point_clouds w)) w).

(** ** Paths *)

(** [s.endswith(suffix)] *)
Definition endswith (suffix s : string) : bool :=
  let n := String.length s in
  let m := String.length suffix in
  (m <=? n)%nat && String.eqb (substring (n - m) m s) suffix.

Definition is_dot (c : ascii) : bool := Ascii.eqb c "."%char.

(** Splits the reversed name at its first dot: reversed extension without the
    dot, reversed root. *)
Fixpoint split_at_dot (rs : list ascii) : option (list ascii) :=
  match rs with
  | [] => None
  | c :: rs' => if is_dot c then Some rs' else split_at_dot rs'
  end.

(** [os.path.splitext(fname)[0]] for a name without directory part: the name
    up to its last dot, or the whole name when there is no dot or only dots
    come before the last one. *)
Definition splitext_root (fname : string) : string :=
  match split_at_dot (rev (list_ascii_of_string fname)) with
  | Some rroot =>
      if forallb is_dot rroot then fname
      else string_of_list_ascii (rev rroot)
  | None => fname
  end.

(** [os.path.join(folder, fname)] on POSIX, for a name that is not
    absolute. *)
Definition posix_join (folder fname : string) : string :=
  if endswith "/" folder then folder +:+ fname
  else folder +:+ "/" +:+ fname.

(** The builtins on ASCII strings, on POSIX. *)
#[global] Instance ascii_builtins : Builtins :=
  {| lower := ascii_lower; strip := ascii_strip; path_join := posix_join |}.

(** ** Main workflow *)

(** [_get_e57_format] *)
Definition _get_e57_format (h : Host) : M Format :=
  match PointCloudFormatE57 h with
  | Some f => mret f
  | None =>
      match PointCloudFormat_PointCloudFormatE57 h with
      | Some f => mret f
      | None =>
          raise (RuntimeError
            "PointCloudFormatE57 was not found in this Metashape installation.")
      end
  end.

(** [{_norm_name(label) for label in labels if label}]: the set of known
    labels that [_make_unique_label] is given. *)
Definition known_labels_lower `{Builtins} (labels : list string)
    : gset string :=
  list_to_set (_norm_name <$> filter (λ l, l ≠ "") labels).

(** The loop that maps the stations by normalized label: first one wins. *)
Definition register_station `{Builtins}
    (loaded_by_name : gmap string nat) (pc : nat)
    : M (gmap string nat) :=
  w ← get;
  let label := pc_label (point_clouds w !!! pc) in
  let k := _norm_name label in
  if decide (k = "") then mret loaded_by_name
  else if decide (is_Some (loaded_by_name !! k)) then
    modify (print (EvDuplicateLabel label));; mret loaded_by_name
  else mret (<[k := pc]> loaded_by_name).

(** First part of the body of [for idx, new_pc in enumerate(new_pcs, start=1)]:
    the label, and the group of the source.  The result is the updated
    [existing_labels_lower]. *)
Definition label_new_pc `{Builtins} (base : string) (src : nat)
    (existing_labels_lower : gset string) (item : nat * nat)
    : M (gset string) :=
  let '(idx, new_pc) := item in
  (* Labeling *)
  let desired := if decide (idx = 1) then base +:+ "_new"
                 else base +:+ "_new_" +:+ fmt_02d idx in
  let new_label := _make_unique_label desired existing_labels_lower in
  update_pc new_pc (set_pc_label new_label);;
  w ← get;
  let existing_labels_lower :=
    existing_labels_lower ∪ {[ _norm_name (pc_label (point_clouds w !!! new_pc)) ]} in
  (* Same group as the source *)
  match pc_group (point_clouds w !!! src) with
  | Some g =>
      if pc_group_writable (point_clouds w !!! new_pc)
      then update_pc new_pc (set_pc_group (Some g))
      else mret tt
  | None => mret tt
  end;;
  mret existing_labels_lower.

(** Second part of that body: the delta, and the masks. *)
Definition align_new_pc (src : nat) (T_src_eff : Matrix) (new_pc : nat)
    : M unit :=
  (* Imported transforms (raw) *)
  w ← get;
  let T_new0_eff := _copy_matrix (_effective_T (point_clouds w !!! new_pc)) in
  match T_new0_eff with
  | None => modify (print EvErrNoImportedEff)
  | Some T_new0_eff =>
      match compute_delta T_src_eff T_new0_eff with
      | None => raise InvalidTransform
      | Some delta =>
          update_pc new_pc (λ pc, _apply_delta_to_pc_transform pc delta);;
          w ← get;
          (if pc_enabled_writable (point_clouds w !!! new_pc)
           then update_pc new_pc
                  (set_pc_enabled (pc_enabled (point_clouds w !!! src)))
           else mret tt);;
          modify (λ w, _transfer_masks_from_src_to_new w src new_pc)
      end
  end.

(** The body of [for idx, new_pc in enumerate(new_pcs, start=1)]; the
    variable it updates is [existing_labels_lower]. *)
Definition process_new_pc `{Builtins} (base : string) (src : nat)
    (T_src_eff : Matrix)
    (existing_labels_lower : gset string) (item : nat * nat)
    : M (gset string) :=
  existing_labels_lower ← label_new_pc base src existing_labels_lower item;
  align_new_pc src T_src_eff item.2;;
  mret existing_labels_lower.

(** The body of [for fname in e57_files]. *)
Definition process_file `{Builtins} (h : Host) (folder : string)
    (loaded_by_name : gmap string nat) (fmt_e57 : Format)
    (existing_labels_lower : gset string) (fname : string)
    : M (gset string) :=
  let base := splitext_root fname in
  let key := _norm_name base in
  match loaded_by_name !! key with
  | None => mret existing_labels_lower
  | Some src =>
      w ← get;
      let src_pc := point_clouds w !!! src in
      match pc_transform src_pc with
      | None =>
          modify (print (EvSkipNoTransform fname (pc_label src_pc)));;
          mret existing_labels_lower
      | Some _ =>
          modify (print (EvMatch fname (pc_label src_pc) (pc_key src_pc)));;
          match _copy_matrix (_effective_T src_pc) with
          | None =>
              modify (print EvSkipNoSrcEff);; mret existing_labels_lower
          | Some T_src_eff =>
              let before_keys : gset Z :=
                list_to_set (pc_key <$> point_clouds w) in
              let path := path_join folder fname in
              let '(pcs, cams, ms) := importPointCloud h path fmt_e57 in
              modify (λ w, print (EvImport path)
                                (mkWorld (point_clouds w ++ pcs)
                                   (cameras w ++ cams) (masks w ++ ms)
                                   (console w)));;
              w ← get;
              let after_pcs := point_clouds w in
              let new_pcs :=
                filter (λ i, pc_key (after_pcs !!! i) ∉ before_keys)
                       (seq 0 (length after_pcs)) in
              match new_pcs with
              | [] => modify (print EvErrNoNewPc);; mret existing_labels_lower
              | _ =>
                  for_each (process_new_pc base src T_src_eff)
                    existing_labels_lower
                    (zip (seq 1 (length new_pcs)) new_pcs)
              end
          end
      end
  end.

(** The sorted names of the regular files of the folder that end in
    [.e57], whatever the case. *)
Definition e57_files `{Builtins} (h : Host) : list string :=
  sort_by String.leb id
    (fst <$> filter (λ f, f.2 && endswith ".e57" (lower f.1)) (listdir h)).

(** [[pc for pc in pcs if getattr(pc, "is_laser_scan", False)]] *)
Definition laser_scans (w : World) : list nat :=
  filter (λ i, pc_is_laser_scan (point_clouds w !!! i))
         (seq 0 (length (point_clouds w))).

(** [importar_e57_y_aplicar_delta_y_mascaras] *)
Definition importar_e57_y_aplicar_delta_y_mascaras `{Builtins} (h : Host)
    : M unit :=
  if negb (active_chunk h) then
    raise (RuntimeError "No active Metashape document/chunk found.")
  else
  modify (print EvMessageBox);;
  let folder := selected_folder h in
  if decide (folder = "") then modify (print EvCancelled)
  else
  match e57_files h with
  | [] => modify (print (EvNoFiles folder))
  | _ =>
      w ← get;
      let pcs := point_clouds w in
      match laser_scans w with
      | [] => modify (print EvNoScans)
      | _ =>
          loaded_by_name ← for_each register_station ∅ (laser_scans w);
          let existing_labels_lower :=
            known_labels_lower (pc_label <$> pcs) in
          fmt_e57 ← _get_e57_format h;
          modify (print (EvHeader (length (e57_files h))
                                  (length (laser_scans w))));;
          for_each (process_file h folder loaded_by_name fmt_e57)
            existing_labels_lower (e57_files h);;
          mret tt
      end
  end.

(** ** Vocabulary of the properties *)

(** [label] and a member of [existing] are the same up to case. *)
Definition collides `{Builtins} (label : string) (existing : gset string)
    : Prop :=
  ∃ s, s ∈ existing ∧ lower s = lower label.

(** The camera has a [mask] attribute, and the attribute takes [None] as well
    as a mask object. *)
Definition assignable (cam : Camera) : Prop :=
  is_Some (cam_mask cam) ∧
  cam_mask_accepts_none cam = true ∧ cam_mask_accepts_mask cam = true.

(** Every mask that a camera holds is an object that [copy()] or the
    constructor can copy. *)
Definition copyable (st : Store) : Prop :=
  ∀ i r, mask_of st i = Some r →
    ∃ m, st.2 !! r = Some m ∧ (mask_copy_ok m = true ∨ mask_ctor_ok m = true).

(** Two states of one camera object: the label, the key, the links to point
    clouds and the behaviour of the attributes are the same; the mask may
    differ. *)
Definition same_camera (c c' : Camera) : Prop :=
  cam_label c' = cam_label c ∧ cam_key c' = cam_key c ∧
  cam_point_cloud c' = cam_point_cloud c ∧
  cam_dense_cloud_id c' = cam_dense_cloud_id c ∧
  cam_mask_accepts_none c' = cam_mask_accepts_none c ∧
  cam_mask_accepts_mask c' = cam_mask_accepts_mask c ∧
  cam_resetMask c' = cam_resetMask c.

(** The content of the mask object behind a reference. *)
Definition mask_content (ms : list Mask) (r : option nat) : option (list bool) :=
  i ← r; mask_data <$> ms !! i.

(** The camera objects behind a list of references. *)
Definition cameras_at (w : World) (l : list nat) : list Camera :=
  omap (λ i, cameras w !! i) l.

(** The cameras of the chunk that belong to [pc], in the order of the
    chunk: the list that [_attached_cameras] builds before it sorts. *)
Definition attached (w : World) (pc : nat) : list Camera :=
  filter (λ cam, _camera_belongs_to_pointcloud w cam pc) (cameras w).

(** The paths that [chunk.importPointCloud] was called with, in the order of
    the calls. *)
Definition imported_paths (out : list Event) : list string :=
  omap (λ e, match e with EvImport path => Some path | _ => None end) out.

(** ** Sample data *)

(** Rotation by a quarter turn about the z axis. *)
Definition rot_z : Matrix :=
  (Mat.mkMatrix 0 (-1) 0 0  1 0 0 0  0 0 1 0  0 0 0 1)%Qc.

(** Translation by one unit along the x axis. *)
Definition shift_x : Matrix :=
  (Mat.mkMatrix 1 0 0 1  0 1 0 0  0 0 1 0  0 0 0 1)%Qc.

(** Projection onto the plane z = 0: a singular matrix. *)
Definition flatten_z : Matrix :=
  (Mat.mkMatrix 1 0 0 0  0 1 0 0  0 0 0 0  0 0 0 1)%Qc.

Definition station (key : Z) (label : string) (T : option Matrix)
    (g : option PointCloudGroup) : PointCloud :=
  mkPointCloud key label T g true true true true.

(** A camera as the current host has it: linked to its point cloud, with a
    [mask] attribute that can be assigned. *)
Definition camera (label : string) (key : Z) (pc : nat) (m : option nat)
    : Camera :=
  mkCamera (Some label) (Some key) (Some pc) None (Some m) true true None.

Definition plain_mask (d : list bool) : Mask := mkMask d true true true.

(** A mask object that can neither be copied by [copy()] nor by the
    constructor. *)
Definition rigid_mask (d : list bool) : Mask := mkMask d false false false.

Definition host (files : list (string * bool))
    (import : string → list PointCloud * list Camera * list Mask) : Host :=
  mkHost true "/scans" files (Some 0) None (λ path _, import path).

Definition group_1 : PointCloudGroup := mkGroup 1 (Some shift_x).

(** One station in a group whose transform is a translation; the file of the
    same name imports one scan with the identity as transform. *)
Definition world_group : World :=
  mkWorld [station 1 "Scan1" (Some rot_z) (Some group_1)] [] [] [].

Definition host_group : Host :=
  host [("Scan1.e57", true)]
       (λ _, ([station 2 "" (Some Mat.identity) None], [], [])).

(** The same station without a group. *)
Definition world_plain : World :=
  mkWorld [station 1 "Scan1" (Some rot_z) None] [] [] [].

(** Two stations; the file of the first imports a scan with a singular
    transform. *)
Definition world_two : World :=
  mkWorld [station 1 "A" (Some rot_z) None; station 2 "B" (Some shift_x) None]
          [] [] [].

Definition host_singular : Host :=
  host [("B.e57", true); ("A.e57", true)]
       (λ path, if String.eqb path "/scans/A.e57"
                then ([station 3 "" (Some flatten_z) None], [], [])
                else ([station 4 "" (Some Mat.identity) None], [], [])).

(** Cameras of two stations, not in the order of their (label, key). *)
Definition cams_src : list Camera :=
  [camera "b" 11 0 None; camera "a" 12 0 None; camera "a" 10 0 None].

Definition cams_new : list Camera :=
  [camera "y" 21 1 None; camera "x" 22 1 None].

(** A station (object 0) with two cameras, the first with a mask, and its
    imported twin (object 1) with two cameras that both carry a mask from an
    earlier import. *)
Definition world_masks (m : Mask) : World :=
  mkWorld
    [station 1 "Scan1" (Some rot_z) None; station 2 "Scan1_new" (Some rot_z) None]
    [camera "s1" 1 0 (Some 0); camera "s2" 2 0 None;
     camera "t1" 3 1 (Some 1); camera "t2" 4 1 (Some 2)]
    [m; plain_mask [false]; plain_mask [true]]
    [].


(** No document is open. *)
Definition host_no_chunk : Host :=
  mkHost false "/scans" [("Scan1.e57", true)] (Some 0) None
         (λ _ _, ([], [], [])).

(** The folder holds no [.e57] file. *)
Definition host_no_files : Host :=
  host [("notes.txt", true); ("old.e57", false)] (λ _, ([], [], [])).

(** The E57 enumerator is in neither place. *)
Definition host_no_format : Host :=
  mkHost true "/scans" [("Scan1.e57", true)] None None
         (λ _ _, ([], [], [])).

(** A chunk whose only point cloud is not a laser scan. *)
Definition world_no_scans : World :=
  mkWorld [mkPointCloud 1 "Scan1" (Some rot_z) None true false true true]
          [] [] [].

(** Three point clouds with one name up to case and white space; the first
    is not a laser scan. *)
Definition world_duplicates : World :=
  mkWorld [mkPointCloud 1 "Scan" (Some rot_z) None true false true true;
           station 2 " scan " (Some rot_z) None;
           station 3 "SCAN" (Some shift_x) None]
          [] [] [].

(** A station with two cameras that is transferred onto itself. *)
Definition world_self : World :=
  mkWorld
    [station 10 "S" (Some Mat.identity) None]
    [camera "a" 1 0 (Some 0); camera "b" 2 0 (Some 1)]
    [plain_mask [true]; plain_mask [true; true]]
    [].

(** The chunk of [world_two] after an import that adds two scans. *)
Definition world_labels : World :=
  mkWorld (point_clouds world_two
           ++ [station 3 "" (Some rot_z) None; station 4 " A_new" None None])
          [] [] [].

(** A folder whose only file has the name of no station of [world_two]. *)
Definition host_unmatched : Host :=
  host [("C.e57", true)]
       (λ _, ([station 3 "" (Some Mat.identity) None], [], [])).

(** A station with two cameras of one label and one key, with different
    masks, and an imported scan with one camera. *)
Definition world_tie : World :=
  mkWorld
    [station 1 "Scan1" (Some rot_z) None; station 2 "Scan1_new" (Some rot_z) None]
    [camera "a" 1 0 (Some 0); camera "a" 1 0 (Some 1); camera "x" 2 1 None]
    [plain_mask [true]; plain_mask [false]]
    [].

(** The same chunk with its first two cameras in the other order. *)
Definition world_tie_swapped : World :=
  mkWorld
    (point_clouds world_tie)
    [camera "a" 1 0 (Some 1); camera "a" 1 0 (Some 0); camera "x" 2 1 None]
    (masks world_tie)
    [].

(** A camera of the station and a camera of the imported scan that hold one
    mask object; the [mask] attribute of the second takes no [None]. *)
Definition world_shared : World :=
  mkWorld
    [station 1 "Scan1" (Some rot_z) None; station 2 "Scan1_new" (Some rot_z) None]
    [camera "s1" 1 0 (Some 0);
     mkCamera (Some "t1") (Some 2%Z) (Some 1) None (Some (Some 0))
              false true None]
    [plain_mask [true; false]]
    [].

(** * Properties *)

(** ** Matrices *)


(** ** Effective transform *)

(** C6.  The effective transform is absent when the entity has no local
    transform; it is [group.transform * entity.transform] when the entity has
    a group that exposes a transform; otherwise it is the local transform.
    [_effective_T] is a function of the entity alone and has a value for every
    entity: it reads no state, changes none and cannot raise; absence of the
    result is the one signal, given exactly when the local transform is
    absent. *)
Theorem effective_T_cases (pc : PointCloud) :
  (pc_transform pc = None → _effective_T pc = None) ∧
  (∀ T g gT,
     pc_transform pc = Some T → pc_group pc = Some g →
     group_transform g = Some gT →
     _effective_T pc = Some (Mat.mul gT T)) ∧
  (∀ T,
     pc_transform pc = Some T →
     pc_group pc ≫= group_transform = None →
     _effective_T pc = Some T) ∧
  (_effective_T pc = None ↔ pc_transform pc = None).
Proof.
  unfold _effective_T. repeat split.
  - by intros ->.
  - by intros T g gT -> -> ->.
  - intros T -> Hg. destruct (pc_group pc) as [g|]; [|done].
    simpl in Hg. by rewrite Hg.
  - destruct (pc_transform pc) as [T|]; [|done].
    destruct (pc_group pc) as [g|]; [|done].
    by destruct (group_transform g).
  - by intros ->.
Qed.

Lemma effective_T_cases_witness :
  _effective_T (station 1 "Scan1" (Some rot_z) (Some group_1))
    = Some (Mat.mul shift_x rot_z) ∧
  _effective_T (station 1 "Scan1" (Some rot_z) None) = Some rot_z ∧
  _effective_T (station 1 "Scan1" None (Some group_1)) = None.
Proof.
  split; [|split].
  - by apply (effective_T_cases (station 1 "Scan1" (Some rot_z) (Some group_1)))
      with (g := group_1).
  - by apply (effective_T_cases (station 1 "Scan1" (Some rot_z) None)).
  - by apply (effective_T_cases (station 1 "Scan1" None (Some group_1))).
Defined.

(** ** The delta and the group *)

(** C2 fails on the code.  The station is in a group whose transform is a
    translation; the imported scan joins the group and gets the delta on its
    local transform.  Its effective transform then is not the one of the
    station: the translation part is (2, -1, 0) instead of (1, 0, 0). *)
Theorem delta_in_group_misses_reference :
  let r := importar_e57_y_aplicar_delta_y_mascaras host_group world_group in
  r.1 = Done tt ∧
  pc_label <$> point_clouds r.2 = ["Scan1"; "Scan1_new"] ∧
  pc_group <$> point_clouds r.2 = [Some group_1; Some group_1] ∧
  Mat.entries <$> _effective_T (point_clouds r.2 !!! 0)
  = Some [0; -1; 0; 1;  1; 0; 0; 0;  0; 0; 1; 0;  0; 0; 0; 1]%Q ∧
  Mat.entries <$> _effective_T (point_clouds r.2 !!! 1)
  = Some [0; -1; 0; 2;  1; 0; 0; -1;  0; 0; 1; 0;  0; 0; 0; 1]%Q ∧
  _effective_T (point_clouds r.2 !!! 1) ≠ _effective_T (point_clouds r.2 !!! 0).
Proof.
  intros r.
  assert (H0 : Mat.entries <$> _effective_T (point_clouds r.2 !!! 0)
    = Some [0; -1; 0; 1;  1; 0; 0; 0;  0; 0; 1; 0;  0; 0; 0; 1]%Q)
    by (by vm_compute).
  assert (H1 : Mat.entries <$> _effective_T (point_clouds r.2 !!! 1)
    = Some [0; -1; 0; 2;  1; 0; 0; -1;  0; 0; 1; 0;  0; 0; 0; 1]%Q)
    by (by vm_compute).
  split; [by vm_compute|]. split; [by vm_compute|].
  split; [by vm_compute|]. split; [done|]. split; [done|].
  intros E. rewrite E, H0 in H1. discriminate H1.
Qed.

(** ** Strings *)

Lemma append_cons c s t : String c s +:+ t = String c (s +:+ t).
Proof. reflexivity. Qed.

Lemma string_append_nil_r s : s +:+ "" = s.
Proof. induction s as [|c s IH]; [done|]. by rewrite append_cons, IH. Qed.

Lemma string_append_assoc s t u : (s +:+ t) +:+ u = s +:+ t +:+ u.
Proof. induction s as [|c s IH]; [done|]. by rewrite !append_cons, IH. Qed.

Lemma string_rev_app_append s t : String.rev_app s t = String.rev s +:+ t.
Proof.
  unfold String.rev. revert t. induction s as [|c s IH]; intros t; [done|].
  simpl. rewrite (IH (String c t)), (IH (String c "")).
  by rewrite string_append_assoc.
Qed.

Lemma string_rev_cons c s : String.rev (String c s) = String.rev s +:+ String c "".
Proof. unfold String.rev at 1. simpl. apply string_rev_app_append. Qed.

Lemma string_rev_append s t : String.rev (s +:+ t) = String.rev t +:+ String.rev s.
Proof.
  induction s as [|c s IH]; [by rewrite string_append_nil_r|].
  by rewrite append_cons, !string_rev_cons, IH, string_append_assoc.
Qed.

Lemma string_rev_involutive s : String.rev (String.rev s) = s.
Proof.
  induction s as [|c s IH]; [done|]. by rewrite string_rev_cons, string_rev_append, IH.
Qed.

Lemma string_length_append s t :
  String.length (s +:+ t) = String.length s + String.length t.
Proof. induction s as [|c s IH]; [done|]. rewrite append_cons. simpl. by rewrite IH. Qed.

Lemma list_ascii_of_string_append s t :
  list_ascii_of_string (s +:+ t) = list_ascii_of_string s ++ list_ascii_of_string t.
Proof. induction s as [|c s IH]; [done|]. rewrite append_cons. simpl. by rewrite IH. Qed.

Lemma string_rev_length s : String.length (String.rev s) = String.length s.
Proof.
  induction s as [|c s IH]; [done|].
  rewrite string_rev_cons, string_length_append, IH. simpl. lia.
Qed.

(** ** The builtins on ASCII strings *)

Lemma lower_ascii_idemp c : lower_ascii (lower_ascii c) = lower_ascii c.
Proof. by destruct c as [[] [] [] [] [] [] [] []]. Qed.

Lemma ascii_lower_idemp s : ascii_lower (ascii_lower s) = ascii_lower s.
Proof. induction s as [|c s IH]; simpl; [done|]. by rewrite lower_ascii_idemp, IH. Qed.

Lemma ascii_lower_app s t : ascii_lower (s +:+ t) = ascii_lower s +:+ ascii_lower t.
Proof.
  induction s as [|c s IH]; [done|].
  rewrite append_cons. cbn [ascii_lower]. by rewrite append_cons, IH.
Qed.

Lemma ascii_lower_string_of_uint d :
  ascii_lower (NilEmpty.string_of_uint d) = NilEmpty.string_of_uint d.
Proof. induction d; simpl; by f_equal. Qed.

Lemma ascii_lower_length s : String.length (ascii_lower s) = String.length s.
Proof. induction s as [|c s IH]; [done|]. simpl. by rewrite IH. Qed.

Lemma ascii_lower_append_inv p q : ∀ f,
  ascii_lower f = p +:+ q → ∃ f1 f2, f = f1 +:+ f2 ∧ ascii_lower f1 = p ∧ ascii_lower f2 = q.
Proof.
  induction p as [|c p IH]; intros f Hf.
  { by exists "", f. }
  destruct f as [|c' f]; [done|]. rewrite append_cons in Hf. cbn [ascii_lower] in Hf.
  injection Hf as Hc Hf. destruct (IH f Hf) as (f1 & f2 & -> & H1 & H2).
  exists (String c' f1), f2. rewrite append_cons. cbn [ascii_lower].
  by rewrite Hc, H1.
Qed.

Lemma lower_ascii_dot c : lower_ascii c = "."%char → c = "."%char.
Proof. destruct c as [[] [] [] [] [] [] [] []]; intros H; by try discriminate H. Qed.

Lemma lower_ascii_5 c : lower_ascii c = "5"%char → c = "5"%char.
Proof. destruct c as [[] [] [] [] [] [] [] []]; intros H; by try discriminate H. Qed.

Lemma lower_ascii_7 c : lower_ascii c = "7"%char → c = "7"%char.
Proof. destruct c as [[] [] [] [] [] [] [] []]; intros H; by try discriminate H. Qed.

Lemma lower_ascii_e c :
  lower_ascii c = "e"%char → c = "e"%char ∨ c = "E"%char.
Proof.
  destruct c as [[] [] [] [] [] [] [] []]; intros H; try discriminate H;
    (by left) || (by right).
Qed.

(** Only [.e57] and [.E57] are [.e57] in lower case. *)
Lemma ascii_lower_e57 f p :
  ascii_lower f = p +:+ ".e57" →
  ∃ base c, f = base +:+ "." +:+ String c "57" ∧ lower_ascii c = "e"%char.
Proof.
  intros (base & dext & -> & _ & Hext)%ascii_lower_append_inv.
  destruct dext as [|c1 [|c2 [|c3 [|c4 [|c5 dext]]]]]; try done.
  cbn [ascii_lower] in Hext. injection Hext as H1 H2 H3 H4.
  apply lower_ascii_dot in H1 as ->. apply lower_ascii_5 in H3 as ->.
  apply lower_ascii_7 in H4 as ->. by exists base, c2.
Qed.

Lemma is_space_lower c : is_space (lower_ascii c) = is_space c.
Proof. by destruct c as [[] [] [] [] [] [] [] []]. Qed.

Lemma ascii_lower_rev s : ascii_lower (String.rev s) = String.rev (ascii_lower s).
Proof.
  induction s as [|c s IH]; [done|].
  cbn [ascii_lower]. by rewrite !string_rev_cons, ascii_lower_app, IH.
Qed.

Lemma ascii_lower_lstrip s : ascii_lower (ascii_lstrip s) = ascii_lstrip (ascii_lower s).
Proof.
  induction s as [|c s IH]; [done|]. cbn [ascii_lstrip ascii_lower].
  rewrite is_space_lower. by destruct (is_space c).
Qed.

Lemma ascii_lower_strip s : ascii_lower (ascii_strip s) = ascii_strip (ascii_lower s).
Proof. unfold ascii_strip. by rewrite ascii_lower_rev, ascii_lower_lstrip, ascii_lower_rev, ascii_lower_lstrip. Qed.

Lemma ascii_lstrip_idemp s : ascii_lstrip (ascii_lstrip s) = ascii_lstrip s.
Proof.
  induction s as [|c s IH]; [done|]. cbn [ascii_lstrip].
  destruct (is_space c) eqn:E; [done|]. cbn [ascii_lstrip]. by rewrite E.
Qed.

(** White space in front is dropped. *)
Lemma ascii_lstrip_blank_l ws s : ascii_lstrip ws = "" → ascii_lstrip (ws +:+ s) = ascii_lstrip s.
Proof.
  induction ws as [|c ws IH]; [done|]. rewrite append_cons. cbn [ascii_lstrip].
  by destruct (is_space c).
Qed.

(** What starts with something else stays. *)
Lemma ascii_lstrip_keep s t : ascii_lstrip s ≠ "" → ascii_lstrip (s +:+ t) = ascii_lstrip s +:+ t.
Proof.
  induction s as [|c s IH]; [done|]. rewrite append_cons. cbn [ascii_lstrip].
  destruct (is_space c); [done|]. by rewrite append_cons.
Qed.

Lemma ascii_lstrip_split s : ∃ ws, ascii_lstrip ws = "" ∧ s = ws +:+ ascii_lstrip s.
Proof.
  induction s as [|c s (ws & Hws & IH)]; [by exists ""|]. cbn [ascii_lstrip].
  destruct (is_space c) eqn:E.
  - exists (String c ws). cbn [ascii_lstrip]. rewrite E, append_cons. by rewrite <-IH.
  - by exists "".
Qed.

Lemma ascii_lstrip_blank_append s t :
  ascii_lstrip (s +:+ t) = "" ↔ ascii_lstrip s = "" ∧ ascii_lstrip t = "".
Proof.
  induction s as [|c s IH]; [by split; [|intros []]|].
  rewrite append_cons. cbn [ascii_lstrip].
  destruct (is_space c); [done|]. split; [done|]. by intros [].
Qed.

Lemma ascii_lstrip_blank_rev ws : ascii_lstrip ws = "" → ascii_lstrip (String.rev ws) = "".
Proof.
  induction ws as [|c ws IH]; [done|]. cbn [ascii_lstrip].
  destruct (is_space c) eqn:E; [|done]. intros H.
  rewrite string_rev_cons. apply ascii_lstrip_blank_append. split; [by apply IH|].
  cbn [ascii_lstrip]. by rewrite E.
Qed.

Lemma ascii_lstrip_length s : String.length (ascii_lstrip s) ≤ String.length s.
Proof.
  induction s as [|c s IH]; [done|]. cbn [ascii_lstrip].
  destruct (is_space c); simpl; lia.
Qed.

Lemma ascii_lstrip_prefix s t : ascii_lstrip (s +:+ t) = s +:+ t → s ≠ "" → ascii_lstrip s = s.
Proof.
  destruct s as [|c s]; [done|]. rewrite append_cons. cbn [ascii_lstrip].
  destruct (is_space c) eqn:E; [|done]. intros H _. exfalso.
  pose proof (ascii_lstrip_length (s +:+ t)) as Hlen. rewrite H in Hlen.
  simpl in Hlen. lia.
Qed.

Lemma ascii_strip_idemp s : ascii_strip (ascii_strip s) = ascii_strip s.
Proof.
  unfold ascii_strip. set (s0 := ascii_lstrip s).
  destruct (ascii_lstrip_split (String.rev s0)) as (ws & Hws & Hrev).
  set (b := ascii_lstrip (String.rev s0)) in *.
  assert (ascii_lstrip (String.rev b) = String.rev b) as Hb.
  { destruct (decide (String.rev b = "")) as [->|Hne]; [done|].
    apply (ascii_lstrip_prefix _ (String.rev ws)); [|done].
    rewrite <-string_rev_append, <-Hrev, string_rev_involutive. apply ascii_lstrip_idemp. }
  rewrite Hb, string_rev_involutive. unfold b. by rewrite ascii_lstrip_idemp.
Qed.

Lemma ascii_strip_blank ws : ascii_lstrip ws = "" → ascii_strip ws = "".
Proof. unfold ascii_strip. by intros ->. Qed.

(** White space around a name is dropped. *)
Lemma ascii_strip_pad ws1 s ws2 :
  ascii_lstrip ws1 = "" → ascii_lstrip ws2 = "" → ascii_strip (ws1 +:+ s +:+ ws2) = ascii_strip s.
Proof.
  intros H1 H2. unfold ascii_strip. rewrite (ascii_lstrip_blank_l ws1) by done.
  destruct (decide (ascii_lstrip s = "")) as [Hs|Hs].
  - rewrite (ascii_lstrip_blank_l s), H2, Hs by done. done.
  - rewrite ascii_lstrip_keep, string_rev_append by done.
    by rewrite ascii_lstrip_blank_l by (by apply ascii_lstrip_blank_rev).
Qed.

Lemma ascii_lstrip_strip s : ascii_lstrip (ascii_strip s) = ascii_strip s.
Proof.
  unfold ascii_strip. set (s0 := ascii_lstrip s).
  destruct (ascii_lstrip_split (String.rev s0)) as (ws & Hws & Hrev).
  set (b := ascii_lstrip (String.rev s0)) in *.
  destruct (decide (String.rev b = "")) as [->|Hne]; [done|].
  apply (ascii_lstrip_prefix _ (String.rev ws)); [|done].
  rewrite <-string_rev_append, <-Hrev, string_rev_involutive. apply ascii_lstrip_idemp.
Qed.

Lemma ascii_lstrip_length_eq s :
  String.length (ascii_lstrip s) = String.length s → ascii_lstrip s = s.
Proof.
  destruct s as [|c s]; [done|]. cbn [ascii_lstrip].
  destruct (is_space c); [|done]. intros H.
  pose proof (ascii_lstrip_length s). simpl in H. lia.
Qed.

(** A string is what [strip] returns for it when there is no white space at
    its left end and none at its right end. *)
Lemma ascii_strip_fixed_iff s :
  ascii_strip s = s ↔
  ascii_lstrip s = s ∧ ascii_lstrip (String.rev s) = String.rev s.
Proof.
  split.
  - intros H. pose proof (ascii_lstrip_strip s) as Hl. rewrite H in Hl.
    split; [done|]. unfold ascii_strip in H. rewrite Hl in H.
    apply (f_equal String.rev) in H. by rewrite string_rev_involutive in H.
  - intros [H1 H2]. unfold ascii_strip. rewrite H1, H2.
    apply string_rev_involutive.
Qed.

Lemma ascii_lstrip_underscore s t :
  ascii_lstrip s = s → ascii_lstrip (s +:+ "_" +:+ t) = s +:+ "_" +:+ t.
Proof.
  destruct s as [|c s]; [done|]. rewrite append_cons. cbn [ascii_lstrip].
  destruct (is_space c); [|done]. intros H.
  pose proof (ascii_lstrip_length s) as Hlen. rewrite H in Hlen.
  simpl in Hlen. lia.
Qed.

Lemma ascii_strip_underscore s t :
  ascii_strip s = s → ascii_strip t = t →
  ascii_strip (s +:+ "_" +:+ t) = s +:+ "_" +:+ t.
Proof.
  intros [Hs Hs']%ascii_strip_fixed_iff [Ht Ht']%ascii_strip_fixed_iff.
  apply ascii_strip_fixed_iff. split; [by apply ascii_lstrip_underscore|].
  rewrite !string_rev_append, string_append_assoc.
  change (String.rev "_") with "_". by apply ascii_lstrip_underscore.
Qed.

(** White space is white space in lower case, and nothing else is. *)
Lemma ascii_strip_lower s :
  ascii_strip (ascii_lower s) = ascii_lower s → ascii_strip s = s.
Proof.
  intros [H1 H2]%ascii_strip_fixed_iff. apply ascii_strip_fixed_iff.
  rewrite <-ascii_lower_lstrip in H1.
  rewrite <-ascii_lower_rev, <-ascii_lower_lstrip in H2.
  apply (f_equal String.length) in H1, H2.
  rewrite !ascii_lower_length in H1, H2.
  split; by apply ascii_lstrip_length_eq.
Qed.

Lemma is_ascii_app s t : is_ascii (s +:+ t) ↔ is_ascii s ∧ is_ascii t.
Proof.
  unfold is_ascii. rewrite list_ascii_of_string_append, forallb_app.
  apply andb_true_iff.
Qed.

Lemma is_ascii_fmt_02d i : is_ascii (fmt_02d i).
Proof.
  unfold fmt_02d, is_ascii.
  generalize (if (i <? 10)%nat then Decimal.D0 (Nat.to_uint i)
              else Nat.to_uint i).
  intros d. induction d; simpl; done.
Qed.

Lemma is_ascii_candidate desired i :
  is_ascii desired → is_ascii (candidate desired i).
Proof.
  intros Hd. unfold candidate. apply is_ascii_app. split; [done|].
  apply is_ascii_app. split; [done|apply is_ascii_fmt_02d].
Qed.

Lemma is_ascii_lstrip s : is_ascii s → is_ascii (ascii_lstrip s).
Proof.
  induction s as [|c s IH]; [done|]. intros Hs. cbn [ascii_lstrip].
  destruct (is_space c); [|done]. apply IH.
  unfold is_ascii in Hs. simpl in Hs. by apply andb_true_iff in Hs as [_ ?].
Qed.

Lemma is_ascii_rev s : is_ascii s → is_ascii (String.rev s).
Proof.
  induction s as [|c s IH]; [done|]. intros Hs.
  change (String c s) with (String c "" +:+ s) in Hs.
  apply is_ascii_app in Hs as [Hc Hs].
  rewrite string_rev_cons. apply is_ascii_app. split; [by apply IH|done].
Qed.

Lemma is_ascii_strip s : is_ascii s → is_ascii (ascii_strip s).
Proof.
  intros Hs. unfold ascii_strip.
  by apply is_ascii_rev, is_ascii_lstrip, is_ascii_rev, is_ascii_lstrip.
Qed.

Lemma ascii_strip_blank_inv ws : ascii_strip ws = "" → ascii_lstrip ws = "".
Proof.
  unfold ascii_strip. intros H. apply (f_equal String.rev) in H.
  rewrite string_rev_involutive in H. change (String.rev "") with "" in H.
  apply ascii_lstrip_blank_rev in H.
  by rewrite string_rev_involutive, ascii_lstrip_idemp in H.
Qed.

(** The functions on ASCII strings have what the properties use of
    [lower] and [strip]. *)
Lemma ascii_laws : @BuiltinLaws ascii_builtins.
Proof.
  split; cbn [lower strip ascii_builtins].
  - done.
  - done.
  - apply ascii_lower_idemp.
  - intros s t. by rewrite !ascii_lower_app.
  - apply ascii_lower_e57.
  - apply ascii_strip_idemp.
  - apply ascii_lower_strip.
  - apply ascii_strip_lower.
  - intros ws1 s ws2 H1 H2. by apply ascii_strip_pad; apply ascii_strip_blank_inv.
  - apply ascii_strip_underscore.
Qed.

#[global] Existing Instance ascii_laws.

(** ** Unique labels *)

(** The number that a formatted counter denotes. *)
Lemma fmt_02d_read i :
  Nat.of_uint <$> NilEmpty.uint_of_string (fmt_02d i) = Some i.
Proof.
  unfold fmt_02d. rewrite NilEmpty.usu. simpl. f_equal.
  destruct (i <? 10)%nat; [|apply Unsigned.of_to].
  change (Nat.of_uint (Decimal.D0 (Nat.to_uint i))) with (Nat.of_uint (Nat.to_uint i)).
  apply Unsigned.of_to.
Qed.

Lemma fmt_02d_inj i j : fmt_02d i = fmt_02d j → i = j.
Proof.
  intros H. pose proof (fmt_02d_read i) as Hi. rewrite H, fmt_02d_read in Hi.
  congruence.
Qed.

Section unique_labels.
Context {py : Builtins} {py_laws : BuiltinLaws}.

Lemma lower_fmt_02d i : lower (fmt_02d i) = fmt_02d i.
Proof.
  rewrite lower_ascii_only by apply is_ascii_fmt_02d.
  apply ascii_lower_string_of_uint.
Qed.

Lemma lower_candidate desired i :
  lower (candidate desired i) = lower desired +:+ "_" +:+ fmt_02d i.
Proof. unfold candidate. by rewrite lower_underscore, lower_fmt_02d. Qed.

Lemma lower_candidate_inj desired i j :
  lower (candidate desired i) = lower (candidate desired j) → i = j.
Proof.
  rewrite !lower_candidate. intros H.
  by apply fmt_02d_inj, (inj (String.app "_")), (inj (String.app (lower desired))).
Qed.

(** What the loop returns, when it returns within the cut. *)
Lemma suffix_loop_Some fuel desired S i c :
  suffix_loop fuel desired S i = Some c ↔
  ∃ j, (i ≤ j < i + fuel) ∧ c = candidate desired j ∧
       (lower (candidate desired j) ∉ S) ∧
       ∀ k, i ≤ k < j → lower (candidate desired k) ∈ S.
Proof.
  revert i. induction fuel as [|fuel IH]; intros i; simpl.
  { split; [done|]. intros (j & ? & _). lia. }
  destruct (decide (lower (candidate desired i) ∈ S)) as [Hin|Hout].
  - rewrite IH. split.
    + intros (j & Hj & -> & Hnot & Hbelow). exists j. repeat split; [lia..|done|].
      intros k Hk. destruct (decide (k = i)) as [->|]; [done|]. apply Hbelow. lia.
    + intros (j & Hj & -> & Hnot & Hbelow). exists j.
      assert (j ≠ i) by (intros ->; done).
      repeat split; [lia..|done|]. intros k Hk. apply Hbelow. lia.
  - split.
    + intros [= <-]. exists i. repeat split; [lia..|done|]. intros k Hk. lia.
    + intros (j & Hj & -> & Hnot & Hbelow).
      destruct (decide (j = i)) as [->|]; [done|].
      exfalso. apply Hout, Hbelow. lia.
Qed.

Lemma suffix_loop_None fuel desired S i :
  suffix_loop fuel desired S i = None →
  ∀ k, i ≤ k < i + fuel → lower (candidate desired k) ∈ S.
Proof.
  revert i. induction fuel as [|fuel IH]; intros i; simpl; [lia|].
  destruct (decide (lower (candidate desired i) ∈ S)) as [Hin|Hout]; [|done].
  intros HN k Hk. destruct (decide (k = i)) as [->|]; [done|].
  apply (IH _ HN). lia.
Qed.

(** As many rounds as the set has elements, and one more, reach a free
    candidate: the candidates of different rounds differ, and the set cannot
    hold more of them than it has elements. *)
Lemma suffix_loop_total desired (S : gset string) i :
  is_Some (suffix_loop (Datatypes.S (size S)) desired S i).
Proof.
  destruct (suffix_loop _ desired S i) eqn:E; [eauto|exfalso].
  pose proof (suffix_loop_None _ _ _ _ E) as Hall.
  set (l := (λ k, lower (candidate desired k)) <$> seq i (Datatypes.S (size S))).
  assert (NoDup l) as Hnd.
  { apply NoDup_fmap_2_strong, NoDup_seq.
    intros ?? _ _. apply lower_candidate_inj. }
  assert (list_to_set l ⊆ S) as Hsub.
  { intros s [k [-> Hk%elem_of_seq]]%elem_of_list_to_set%list_elem_of_fmap.
    apply Hall. lia. }
  apply subseteq_size in Hsub. rewrite size_list_to_set in Hsub by done.
  unfold l in Hsub. rewrite length_fmap, length_seq in Hsub. lia.
Qed.

Lemma suffix_loop_mono fuel fuel' desired S i c :
  suffix_loop fuel desired S i = Some c → fuel ≤ fuel' →
  suffix_loop fuel' desired S i = Some c.
Proof.
  rewrite !suffix_loop_Some. intros (j & ? & ?) ?. exists j. split; [lia|done].
Qed.

Lemma collides_lower label (S : gset string) :
  (∀ s, s ∈ S → lower s = s) → collides label S ↔ lower label ∈ S.
Proof.
  intros Hlow. split.
  - intros (s & Hs & <-). by rewrite Hlow.
  - intros Hin. exists (lower label). split; [done|apply lower_idemp].
Qed.

Lemma known_labels_lower_lower labels s :
  s ∈ known_labels_lower labels → lower s = s.
Proof.
  unfold known_labels_lower, _norm_name.
  intros (l & -> & _)%elem_of_list_to_set%list_elem_of_fmap. apply lower_idemp.
Qed.

Lemma make_unique_label_in_total desired (S : gset string) :
  make_unique_label_in (Datatypes.S (size S)) desired S
  = Some (_make_unique_label desired S).
Proof.
  unfold _make_unique_label, make_unique_label_in.
  destruct (decide (lower desired ∈ S)); [|done].
  by destruct (suffix_loop_total desired S 2) as [c ->].
Qed.

Lemma make_unique_label_free desired (S : gset string) :
  lower desired ∉ S → _make_unique_label desired S = desired.
Proof.
  intros H. unfold _make_unique_label, make_unique_label_in.
  by rewrite decide_False.
Qed.

Lemma make_unique_label_taken desired (S : gset string) :
  lower desired ∈ S →
  ∃ i, (2 ≤ i) ∧ _make_unique_label desired S = candidate desired i ∧
       (lower (candidate desired i) ∉ S) ∧
       ∀ k, 2 ≤ k < i → lower (candidate desired k) ∈ S.
Proof.
  intros H. pose proof (make_unique_label_in_total desired S) as Ht.
  unfold make_unique_label_in in Ht. rewrite decide_True in Ht by done.
  apply suffix_loop_Some in Ht as (j & Hj & -> & Hfree & Hbelow).
  exists j. repeat split; [lia|done..].
Qed.

(** On ASCII labels the functions are the ones of the ASCII instance. *)
Lemma suffix_loop_ascii fuel desired (S : gset string) : ∀ i,
  is_ascii desired →
  suffix_loop fuel desired S i = @suffix_loop ascii_builtins fuel desired S i.
Proof.
  induction fuel as [|fuel IH]; intros i Hd; [done|]. cbn [suffix_loop].
  rewrite lower_ascii_only by (by apply is_ascii_candidate).
  cbn [lower ascii_builtins]. by rewrite IH.
Qed.

Lemma make_unique_label_ascii desired (S : gset string) :
  is_ascii desired →
  _make_unique_label desired S = @_make_unique_label ascii_builtins desired S.
Proof.
  intros Hd. unfold _make_unique_label, make_unique_label_in.
  rewrite lower_ascii_only by done. cbn [lower ascii_builtins].
  by rewrite suffix_loop_ascii.
Qed.

Lemma norm_name_ascii s :
  is_ascii s → _norm_name s = @_norm_name ascii_builtins s.
Proof.
  intros Hs. unfold _norm_name.
  rewrite strip_ascii_only, lower_ascii_only by (by try apply is_ascii_strip).
  done.
Qed.

Lemma known_labels_lower_ascii labels :
  Forall is_ascii labels →
  known_labels_lower labels = @known_labels_lower ascii_builtins labels.
Proof.
  intros Hl. unfold known_labels_lower. f_equal. apply Forall_fmap_ext.
  apply Forall_forall. intros s [_ Hs]%list_elem_of_filter.
  apply norm_name_ascii. by eapply Forall_forall in Hl.
Qed.

(** C7, amended.  For a set of known labels that are in lower case, as
    the pipeline builds it, [_make_unique_label] returns the desired label
    unchanged when it collides, up to case, with no label of the set;
    otherwise it returns the desired label with the suffix [_NN], where [NN]
    is the first counter from 02 on whose candidate collides with no label
    of the set.  For the normalized names of the labels [A], [B] and the
    desired label [A] the result is [A_02]; for those of the labels [A],
    [A_02] it is [A_03]. *)
Theorem make_unique_label_spec (desired : string) (existing_lower : gset string) :
  (∀ s, s ∈ existing_lower → lower s = s) →
  (¬ collides desired existing_lower →
     _make_unique_label desired existing_lower = desired) ∧
  (collides desired existing_lower →
     ∃ i, (2 ≤ i) ∧
       _make_unique_label desired existing_lower = desired +:+ "_" +:+ fmt_02d i ∧
       ¬ collides (desired +:+ "_" +:+ fmt_02d i) existing_lower ∧
       ∀ k, 2 ≤ k < i → collides (desired +:+ "_" +:+ fmt_02d k) existing_lower) ∧
  _make_unique_label "A" (known_labels_lower ["A"; "B"]) = "A_02" ∧
  _make_unique_label "A" (known_labels_lower ["A"; "A_02"]) = "A_03".
Proof.
  intros Hlow. split; [|split; [|split]].
  - rewrite collides_lower by done. apply make_unique_label_free.
  - rewrite collides_lower by done. intros Hin.
    destruct (make_unique_label_taken _ _ Hin) as (i & Hi & Hr & Hfree & Hbelow).
    exists i. split; [done|]. split; [done|]. split.
    + by rewrite collides_lower.
    + intros k Hk. rewrite collides_lower by done. by apply Hbelow.
  - rewrite make_unique_label_ascii, known_labels_lower_ascii;
      [by vm_compute|by repeat constructor|done].
  - rewrite make_unique_label_ascii, known_labels_lower_ascii;
      [by vm_compute|by repeat constructor|done].
Qed.

(** C9.  The loop of [_make_unique_label] ends: after at most as many rounds
    as the set has elements, and one more, it has found a candidate whose
    lower-case form is not in the set, and more rounds than that change
    nothing. *)
Theorem make_unique_label_terminates (desired : string) (existing_lower : gset string) :
  ∃ n c,
    (n ≤ S (size existing_lower)) ∧
    (∀ fuel, n ≤ fuel → suffix_loop fuel desired existing_lower 2 = Some c) ∧
    (lower c ∉ existing_lower) ∧
    (∀ fuel, n ≤ fuel →
       make_unique_label_in fuel desired existing_lower
       = Some (_make_unique_label desired existing_lower)) ∧
    lower (_make_unique_label desired existing_lower) ∉ existing_lower.
Proof.
  destruct (suffix_loop_total desired existing_lower 2) as [c Hc].
  exists (S (size existing_lower)), c.
  assert (Hloop : ∀ fuel, S (size existing_lower) ≤ fuel →
            suffix_loop fuel desired existing_lower 2 = Some c).
  { intros fuel Hf. by apply (suffix_loop_mono _ _ _ _ _ _ Hc). }
  assert (Hfree : lower c ∉ existing_lower).
  { by apply suffix_loop_Some in Hc as (j & _ & -> & ? & _). }
  split; [done|]. split; [done|]. split; [done|].
  unfold _make_unique_label, make_unique_label_in.
  destruct (decide (lower desired ∈ existing_lower)) as [Hin|Hout].
  - rewrite Hc. simpl. split; [|done]. intros fuel Hf. by rewrite Hloop.
  - done.
Qed.

End unique_labels.

Lemma make_unique_label_spec_witness :
  (∀ s, s ∈ known_labels_lower ["A"; "B"] → lower s = s) ∧
  collides "A" (known_labels_lower ["A"; "B"]) ∧
  ¬ collides "C" (known_labels_lower ["A"; "B"]) ∧
  _make_unique_label "C" (known_labels_lower ["A"; "B"]) = "C" ∧
  ∃ i, (2 ≤ i) ∧
    _make_unique_label "A" (known_labels_lower ["A"; "B"]) = "A" +:+ "_" +:+ fmt_02d i.
Proof.
  pose proof (known_labels_lower_lower ["A"; "B"]) as Hlow.
  assert (Hc : collides "A" (known_labels_lower ["A"; "B"])).
  { exists "a". split; [by vm_compute|done]. }
  assert (Hn : ¬ collides "C" (known_labels_lower ["A"; "B"])).
  { rewrite collides_lower by done. by vm_compute. }
  destruct (make_unique_label_spec "A" _ Hlow) as (_ & Htaken & _).
  destruct (make_unique_label_spec "C" _ Hlow) as (Hfree & _).
  split; [done|]. split; [done|]. split; [done|]. split; [by apply Hfree|].
  destruct (Htaken Hc) as (i & ? & ? & _). by exists i.
Defined.

(** C7, as stated, fails on a set of known labels that are not in lower
    case: the label [A] is one of the known labels [A], [B], and of the known
    labels [A], [A_02], and it is returned as it is. *)
Lemma make_unique_label_upper_case :
  collides "A" (list_to_set ["A"; "B"]) ∧
  _make_unique_label "A" (list_to_set ["A"; "B"]) = "A" ∧
  collides "A" (list_to_set ["A"; "A_02"]) ∧
  _make_unique_label "A" (list_to_set ["A"; "A_02"]) = "A".
Proof.
  split; [|split; [by vm_compute|split; [|by vm_compute]]].
  - exists "A". split; [|done]. apply elem_of_list_to_set. by left.
  - exists "A". split; [|done]. apply elem_of_list_to_set. by left.
Qed.

Lemma make_unique_label_terminates_witness :
  ∃ c, suffix_loop 3 "A" (known_labels_lower ["A"; "A_02"]) 2 = Some c ∧
       lower c ∉ known_labels_lower ["A"; "A_02"].
Proof.
  destruct (make_unique_label_terminates "A" (known_labels_lower ["A"; "A_02"]))
    as (n & c & Hn & Hloop & Hfree & _).
  exists c. split; [|done]. apply Hloop.
  assert (size (known_labels_lower ["A"; "A_02"]) = 2) as Hsize by (by vm_compute).
  rewrite Hsize in Hn. exact Hn.
Defined.

(** ** Sorting and pairing *)

Lemma NoDup_fmap_inj_on {A B : Type} (f : A → B) (l : list A) x y :
  NoDup (f <$> l) → x ∈ l → y ∈ l → f x = f y → x = y.
Proof.
  induction l as [|z l IH]; simpl; [by intros _ ?%elem_of_nil|].
  intros [Hz Hnd]%NoDup_cons [->|Hx]%elem_of_cons [->|Hy]%elem_of_cons Hf;
    [done| | |by apply IH].
  - destruct Hz. rewrite Hf. by apply list_elem_of_fmap_2.
  - destruct Hz. rewrite <-Hf. by apply list_elem_of_fmap_2.
Qed.

Section sort_facts.
Context {A K : Type} (leb : K → K → bool) (key : A → K).
Hypothesis leb_total : ∀ a b, leb a b = true ∨ leb b a = true.
Hypothesis leb_trans : ∀ a b c, leb a b = true → leb b c = true → leb a c = true.
Hypothesis leb_antisym : ∀ a b, leb a b = true → leb b a = true → a = b.

Lemma insert_by_Permutation x l : insert_by leb key x l ≡ₚ x :: l.
Proof.
  induction l as [|y l IH]; simpl; [done|].
  destruct (leb (key x) (key y)); [done|]. by rewrite IH, Permutation_swap.
Qed.

Lemma sort_by_Permutation l : sort_by leb key l ≡ₚ l.
Proof.
  induction l as [|x l IH]; simpl; [done|].
  by rewrite insert_by_Permutation, IH.
Qed.

Lemma insert_by_Sorted x l :
  Sorted (key_le leb key) l → Sorted (key_le leb key) (insert_by leb key x l).
Proof.
  induction 1 as [|y l Hl IH Hy]; simpl; [by repeat constructor|].
  destruct (leb (key x) (key y)) eqn:E.
  - constructor; [by constructor|]. by constructor.
  - constructor; [done|].
    assert (key_le leb key y x) by (by destruct (leb_total (key x) (key y)); [congruence|]).
    destruct Hy as [|z l' Hz]; simpl; [by constructor|].
    destruct (leb (key x) (key z)); by constructor.
Qed.

Lemma sort_by_Sorted l : Sorted (key_le leb key) (sort_by leb key l).
Proof. induction l; simpl; [constructor|by apply insert_by_Sorted]. Qed.

Lemma key_le_trans : Transitive (key_le leb key).
Proof. intros x y z. apply leb_trans. Qed.

(** The sorted sequence of a collection does not depend on the order in
    which the collection is given, as long as no two elements share a
    key. *)
Lemma sort_by_perm l l' :
  l ≡ₚ l' → NoDup (key <$> l) → sort_by leb key l = sort_by leb key l'.
Proof.
  intros Hp Hnd.
  apply (Sorted_unique_strong (key_le leb key) (Transitive0 := key_le_trans));
    [|apply sort_by_Sorted..|by rewrite !sort_by_Permutation].
  intros x1 x2 H1 H2 H12 H21.
  rewrite sort_by_Permutation in H1. rewrite sort_by_Permutation, <-Hp in H2.
  apply (NoDup_fmap_inj_on key l); [done..|]. by apply leb_antisym.
Qed.

Lemma fmap_insert_by x l :
  key <$> insert_by leb key x l = insert_by leb id (key x) (key <$> l).
Proof.
  induction l as [|y l IH]; simpl; [done|].
  destruct (leb (key x) (key y)); simpl; [done|]. f_equal. exact IH.
Qed.

Lemma fmap_sort_by l : key <$> sort_by leb key l = sort_by leb id (key <$> l).
Proof.
  induction l as [|x l IH]; simpl; [done|].
  etrans; [apply fmap_insert_by|]. f_equal. exact IH.
Qed.
End sort_facts.

Section sort_keys.
Context {A K : Type} (leb : K → K → bool) (key : A → K).
Hypothesis leb_total : ∀ a b, leb a b = true ∨ leb b a = true.
Hypothesis leb_trans : ∀ a b c, leb a b = true → leb b c = true → leb a c = true.
Hypothesis leb_antisym : ∀ a b, leb a b = true → leb b a = true → a = b.

(** The keys of the sorted sequence depend on the keys of the collection
    alone. *)
Lemma sort_by_perm_keys l l' :
  l ≡ₚ l' → key <$> sort_by leb key l = key <$> sort_by leb key l'.
Proof.
  intros Hp. rewrite !fmap_sort_by.
  apply (Sorted_unique_strong (key_le leb id)
           (Transitive0 := key_le_trans leb id leb_trans));
    [|by apply sort_by_Sorted..|by rewrite !sort_by_Permutation, Hp].
  intros x1 x2 _ _. apply leb_antisym.
Qed.
End sort_keys.

Lemma omap_seq_shift {B : Type} (f : nat → option B) k n :
  omap f (seq (S k) n) = omap (f ∘ S) (seq k n).
Proof.
  revert k. induction n as [|n IH]; intros k; simpl; [done|].
  by rewrite IH.
Qed.

Lemma pairing_cons {A : Type} (x y : A) s t :
  pairing (x :: s) (y :: t) = (x, y) :: pairing s t.
Proof.
  unfold pairing. simpl. f_equal. by rewrite omap_seq_shift.
Qed.

(** The index loop visits the two sequences in step, up to the end of the
    shorter one. *)
Lemma pairing_zip {A : Type} (s t : list A) : pairing s t = zip s t.
Proof.
  revert t. induction s as [|x s IH]; intros [|y t]; try done.
  by rewrite pairing_cons, IH.
Qed.

Lemma sort_key_leb_total a b : sort_key_leb a b = true ∨ sort_key_leb b a = true.
Proof.
  unfold sort_key_leb. rewrite (String.compare_antisym b.1 a.1).
  destruct (String.compare a.1 b.1); simpl; auto.
  rewrite !Z.leb_le. lia.
Qed.

Lemma sort_key_leb_antisym a b :
  sort_key_leb a b = true → sort_key_leb b a = true → a = b.
Proof.
  unfold sort_key_leb. rewrite (String.compare_antisym b.1 a.1).
  destruct (String.compare a.1 b.1) eqn:E; simpl; try done.
  apply String.compare_eq_iff in E. rewrite !Z.leb_le.
  destruct a, b; simpl in *. intros. f_equal; [done|lia].
Qed.

Lemma string_compare_leb s t : String.leb s t = true ↔ String.compare s t ≠ Gt.
Proof. unfold String.leb. by destruct (String.compare s t). Qed.

Lemma string_compare_refl s : String.compare s s = Eq.
Proof.
  pose proof (String.compare_antisym s s) as H.
  by destruct (String.compare s s).
Qed.

Lemma sort_key_leb_trans a b c :
  sort_key_leb a b = true → sort_key_leb b c = true → sort_key_leb a c = true.
Proof.
  unfold sort_key_leb. intros Hab Hbc.
  assert (String.le a.1 b.1) as Hab1.
  { apply Is_true_true, string_compare_leb. by destruct (String.compare a.1 b.1). }
  assert (String.le b.1 c.1) as Hbc1.
  { apply Is_true_true, string_compare_leb. by destruct (String.compare b.1 c.1). }
  assert (String.le a.1 c.1) as Hac1 by (by etrans).
  apply Is_true_true, string_compare_leb in Hac1.
  destruct (String.compare a.1 c.1) eqn:Eac; [|done..].
  apply String.compare_eq_iff in Eac.
  assert (a.1 = b.1) as Eab.
  { apply (anti_symm String.le); [done|]. by rewrite Eac. }
  rewrite Eab, string_compare_refl in Hab.
  rewrite <-Eac, Eab, string_compare_refl in Hbc.
  apply Z.leb_le. apply Z.leb_le in Hab, Hbc. lia.
Qed.

Lemma fmap_zip_keys {A K : Type} (key : A → K) (s t : list A) :
  prod_map key key <$> zip s t = zip (key <$> s) (key <$> t).
Proof.
  revert t. induction s as [|x s IH]; intros [|y t]; simpl; [done..|].
  f_equal. apply IH.
Qed.

Lemma omap_cons_Some {A B : Type} (f : A → option B) x y l :
  f x = Some y → omap f (x :: l) = y :: omap f l.
Proof. intros H. simpl. by rewrite H. Qed.

Lemma omap_insert_by {A B K : Type} (leb : K → K → bool) (key : A → K)
    (key' : B → K) (f : A → option B) x y l :
  f x = Some y → key x = key' y →
  (∀ a, a ∈ l → ∃ b, f a = Some b ∧ key a = key' b) →
  omap f (insert_by leb key x l) = insert_by leb key' y (omap f l).
Proof.
  intros Hx Hk. induction l as [|a l IH]; intros Hl; simpl.
  { by rewrite Hx. }
  destruct (Hl a) as (b & Hb & Hkb); [by left|].
  rewrite Hb. simpl. rewrite Hk, Hkb.
  destruct (leb (key' y) (key' b)); simpl.
  - by rewrite Hx, Hb.
  - rewrite Hb. f_equal. apply IH. intros a' Ha'. apply Hl. by right.
Qed.

(** Sorting references by the keys of the objects behind them is sorting
    the objects. *)
Lemma omap_sort_by {A B K : Type} (leb : K → K → bool) (key : A → K)
    (key' : B → K) (f : A → option B) l :
  (∀ a, a ∈ l → ∃ b, f a = Some b ∧ key a = key' b) →
  omap f (sort_by leb key l) = sort_by leb key' (omap f l).
Proof.
  induction l as [|a l IH]; intros Hl; [done|].
  destruct (Hl a) as (b & Hb & Hkb); [by left|].
  assert (∀ a', a' ∈ l → ∃ b', f a' = Some b' ∧ key a' = key' b') as Hl'.
  { intros a' Ha'. apply Hl. by right. }
  assert (omap f (a :: l) = b :: omap f l) as -> by (simpl; by rewrite Hb).
  pose proof (sort_by_Permutation leb key l) as Hp.
  unfold sort_by in *. cbn [foldr].
  rewrite (omap_insert_by leb key key' f a b); [by rewrite IH|done..|].
  intros a' Ha'. apply Hl'. by rewrite Hp in Ha'.
Qed.

Lemma omap_lookup_filter_seq {A : Type} (P : A → bool) (l : list A) :
  ∀ pre,
    omap (λ i, (pre ++ l) !! i)
         (filter (λ i, from_option P false ((pre ++ l) !! i))
                 (seq (length pre) (length l)))
    = filter P l.
Proof.
  induction l as [|x l IH]; intros pre; [done|].
  cbn [length seq]. rewrite !filter_cons. cbv beta.
  rewrite list_lookup_middle by done.
  specialize (IH (pre ++ [x])).
  rewrite <-(assoc_L (++)), length_app, Nat.add_1_r in IH. simpl in IH.
  cbn [from_option]. destruct (decide (P x)); [|done].
  rewrite (omap_cons_Some _ _ x) by (by apply list_lookup_middle).
  by rewrite IH.
Qed.

Lemma zip_Forall2 {A B : Type} (R : A → B → Prop) s s' t t' :
  Forall2 R s s' → Forall2 R t t' →
  Forall2 (λ p q, R p.1 q.1 ∧ R p.2 q.2) (zip s t) (zip s' t').
Proof.
  intros Hs. revert t t'. induction Hs; intros t t' Ht; [constructor|].
  destruct Ht; simpl; constructor; [done|]. by apply IHHs.
Qed.

(** ** Attached cameras *)

Lemma attached_cameras_perm w pc :
  _attached_cameras w pc ≡ₚ
  filter (λ i, from_option (λ cam, _camera_belongs_to_pointcloud w cam pc)
                 false (cameras w !! i))
         (seq 0 (length (cameras w))).
Proof. apply sort_by_Permutation. Qed.

Lemma attached_cameras_Sorted w pc :
  Sorted (key_le sort_key_leb (camera_key_at w)) (_attached_cameras w pc).
Proof. apply sort_by_Sorted, sort_key_leb_total. Qed.

Lemma attached_cameras_NoDup w pc : NoDup (_attached_cameras w pc).
Proof.
  rewrite attached_cameras_perm. apply NoDup_filter, NoDup_seq.
Qed.

Lemma elem_of_attached_cameras w pc i :
  i ∈ _attached_cameras w pc ↔
  ∃ cam, cameras w !! i = Some cam ∧ _camera_belongs_to_pointcloud w cam pc = true.
Proof.
  rewrite attached_cameras_perm, list_elem_of_filter, elem_of_seq. split.
  - intros [Hb _]. destruct (cameras w !! i) as [cam|]; [|done].
    exists cam. split; [done|]. by apply Is_true_true.
  - intros (cam & Hi & Hb). rewrite Hi. split; [by apply Is_true_true|].
    apply lookup_lt_Some in Hi. lia.
Qed.

(** The camera objects that [_attached_cameras] returns are the cameras of
    the chunk that belong to the point cloud, sorted by (label, key). *)
Lemma cameras_at_attached w pc :
  cameras_at w (_attached_cameras w pc)
  = sort_by sort_key_leb camera_sort_key (attached w pc).
Proof.
  unfold cameras_at, _attached_cameras, attached.
  rewrite (omap_sort_by sort_key_leb (camera_key_at w) camera_sort_key).
  - f_equal. apply (omap_lookup_filter_seq _ (cameras w) []).
  - intros i [Hb _]%list_elem_of_filter. unfold camera_key_at.
    destruct (cameras w !! i) as [cam|]; [by exists cam|done].
Qed.

Lemma cameras_at_lookup w pc :
  Forall2 (λ i cam, cameras w !! i = Some cam)
          (_attached_cameras w pc) (cameras_at w (_attached_cameras w pc)).
Proof.
  unfold cameras_at.
  assert (∀ i, i ∈ _attached_cameras w pc → is_Some (cameras w !! i)) as Hl.
  { intros i (cam & Hi & _)%elem_of_attached_cameras. eauto. }
  induction (_attached_cameras w pc) as [|i l IH]; [constructor|].
  destruct (Hl i) as [cam Hcam]; [by left|].
  rewrite (omap_cons_Some _ _ cam) by done.
  constructor; [done|]. apply IH. intros j Hj. apply Hl. by right.
Qed.

(** The cameras that belong to a point cloud are the same for every order
    of the cameras of the chunk. *)
Lemma attached_perm w w' pc :
  point_clouds w' = point_clouds w → cameras w' ≡ₚ cameras w →
  attached w' pc ≡ₚ attached w pc.
Proof.
  intros Hpcs Hcams. unfold attached. rewrite Hcams.
  assert (filter (λ cam, _camera_belongs_to_pointcloud w' cam pc) (cameras w)
          = filter (λ cam, _camera_belongs_to_pointcloud w cam pc) (cameras w))
    as ->; [|done].
  apply list_filter_iff. intros cam.
  unfold _camera_belongs_to_pointcloud. by rewrite Hpcs.
Qed.

(** ** The two loops of the mask transfer *)

Lemma mask_of_lookup st st' i :
  st'.1 !! i = st.1 !! i → mask_of st' i = mask_of st i.
Proof. unfold mask_of. by intros ->. Qed.

(** Clearing the mask of a camera changes no mask object other than the
    mask of that camera. *)
Lemma clear_camera_mask_frame ms cam :
  length (_clear_camera_mask ms cam).1.1 = length ms ∧
  ∀ r, mjoin (cam_mask cam) ≠ Some r →
       (_clear_camera_mask ms cam).1.1 !! r = ms !! r.
Proof.
  unfold _clear_camera_mask.
  destruct (cam_mask cam) as [[r0|]|]; simpl;
    destruct (cam_mask_accepts_none cam); simpl;
    try destruct (ms !! r0) as [mo|]; simpl;
    try destruct (mask_clear_ok mo); simpl;
    try destruct (cam_mask_accepts_mask cam); simpl;
    destruct (cam_resetMask cam) as [[]|]; simpl;
    rewrite ?length_insert; (split; [done|]); intros r Hr; try done;
    apply list_lookup_insert_ne; congruence.
Qed.

(** A round of the clearing loop writes the camera it visits, and no mask
    object other than the mask of that camera. *)
Lemma clear_step_frame acc i :
  length (clear_step acc i).1.1 = length acc.1.1 ∧
  length (clear_step acc i).1.2 = length acc.1.2 ∧
  (∀ j, j ≠ i → (clear_step acc i).1.1 !! j = acc.1.1 !! j) ∧
  (∀ r, mask_of acc.1 i ≠ Some r → (clear_step acc i).1.2 !! r = acc.1.2 !! r).
Proof.
  unfold clear_step, mask_of.
  destruct (acc.1.1 !! i) as [cam|] eqn:Hi; [|done]. simpl.
  destruct (clear_camera_mask_frame acc.1.2 cam) as [Hlen Hms].
  destruct (_clear_camera_mask acc.1.2 cam) as [[ms' cam'] ok]. simpl in *.
  rewrite length_insert. repeat split; [done| |].
  - intros j Hj. by apply list_lookup_insert_ne.
  - intros r Hr. apply Hms. by destruct (cam_mask cam) as [[]|].
Qed.

Lemma clear_loop_frame l : ∀ acc,
  NoDup l →
  length (foldl clear_step acc l).1.1 = length acc.1.1 ∧
  length (foldl clear_step acc l).1.2 = length acc.1.2 ∧
  (∀ j, j ∉ l → (foldl clear_step acc l).1.1 !! j = acc.1.1 !! j) ∧
  (∀ r, (∀ t, t ∈ l → mask_of acc.1 t ≠ Some r) →
        (foldl clear_step acc l).1.2 !! r = acc.1.2 !! r).
Proof.
  induction l as [|i l IH]; intros acc Hnd; simpl; [done|].
  apply NoDup_cons in Hnd as [Hi Hnd].
  destruct (clear_step_frame acc i) as (Hl1 & Hl2 & Hcam & Hms).
  destruct (IH (clear_step acc i) Hnd) as (IH1 & IH2 & IHcam & IHms).
  split; [congruence|]. split; [congruence|]. split.
  - intros j [Hji Hjl]%not_elem_of_cons. by rewrite IHcam, Hcam.
  - intros r Hr. rewrite IHms, Hms; [done|apply Hr; by left|].
    intros t Ht. rewrite (mask_of_lookup acc.1); [apply Hr; by right|].
    apply Hcam. by intros ->.
Qed.

(** On cameras whose [mask] attribute takes [None] the clearing loop leaves
    no mask, counts every camera, and touches no mask object.  Every camera
    is as before, or is a visited one with its mask set to [None]. *)
Lemma clear_loop_assignable l : ∀ acc,
  (∀ t, t ∈ l → ∃ cam, acc.1.1 !! t = Some cam ∧ assignable cam) →
  (foldl clear_step acc l).1.2 = acc.1.2 ∧
  (foldl clear_step acc l).2 = acc.2 + length l ∧
  (∀ t cam, (foldl clear_step acc l).1.1 !! t = Some cam →
     ∃ cam0, acc.1.1 !! t = Some cam0 ∧
       if decide (t ∈ l) then cam = set_cam_mask None cam0 else cam = cam0).
Proof.
  induction l as [|i l IH]; intros acc Hok; simpl.
  { split; [done|]. split; [lia|]. intros t cam Ht. exists cam.
    by split. }
  destruct (Hok i) as (cam & Hi & Hattr & Hnone & Hobj); [by left|].
  assert (clear_step acc i = ((<[i:=set_cam_mask None cam]> acc.1.1, acc.1.2), S acc.2))
    as Hstep.
  { unfold clear_step, _clear_camera_mask. rewrite Hi.
    destruct Hattr as [m ->]. by rewrite Hnone. }
  rewrite Hstep.
  assert (i < length acc.1.1) as Hlt by (by eapply lookup_lt_Some).
  destruct (IH ((<[i:=set_cam_mask None cam]> acc.1.1, acc.1.2), S acc.2))
    as (IHms & IHn & IHcam).
  { simpl. intros t Ht. destruct (decide (t = i)) as [->|Hne].
    - rewrite list_lookup_insert_eq by done. eexists. split; [done|].
      unfold assignable; simpl. eauto.
    - rewrite list_lookup_insert_ne by done. apply Hok. by right. }
  simpl in *. split; [done|]. split; [lia|].
  intros t cam' Ht. destruct (IHcam _ _ Ht) as (cam0 & Hcam0 & Hcases).
  destruct (decide (t = i)) as [->|Hne].
  - rewrite list_lookup_insert_eq in Hcam0 by done. injection Hcam0 as <-.
    exists cam. split; [done|]. rewrite decide_True by (by left).
    by destruct (decide (i ∈ l)); subst cam'.
  - rewrite list_lookup_insert_ne in Hcam0 by done.
    exists cam0. split; [done|].
    destruct (decide (t ∈ l)) as [Hl|Hl].
    + by rewrite decide_True by (by right).
    + rewrite decide_False; [done|]. by intros [?|?]%elem_of_cons.
Qed.

Lemma mask_of_set_cam_mask st t cam m :
  st.1 !! t = Some (set_cam_mask m cam) → mask_of st t = m.
Proof. unfold mask_of. by intros ->. Qed.

Lemma copy_mask_cases ms r :
  (∃ m, ms !! r = Some m ∧ (mask_copy_ok m = true ∨ mask_ctor_ok m = true) ∧
        _copy_mask ms (Some r) = (ms ++ [m], Some (length ms))) ∨
  _copy_mask ms (Some r) = (ms, Some r).
Proof.
  unfold _copy_mask. destruct (ms !! r) as [m|]; [|by right].
  destruct (mask_copy_ok m) eqn:E1; [left; eauto|].
  destruct (mask_ctor_ok m) eqn:E2; [left; eauto|by right].
Qed.

(** A round of the copying loop writes the camera of the target, adds mask
    objects at the end of the heap, and changes none that is there. *)
Lemma copy_step_frame acc p :
  length (copy_step acc p).1.1 = length acc.1.1 ∧
  (∀ j, j ≠ p.2 → (copy_step acc p).1.1 !! j = acc.1.1 !! j) ∧
  (∃ extra, (copy_step acc p).1.2 = acc.1.2 ++ extra) ∧
  (∀ j cam', (copy_step acc p).1.1 !! j = Some cam' →
     ∃ cam, acc.1.1 !! j = Some cam ∧
            cam_mask_accepts_mask cam' = cam_mask_accepts_mask cam).
Proof.
  unfold copy_step. destruct (mask_of acc.1 p.1) as [r|].
  2:{ split; [done|]. split; [done|]. split; [by exists []; rewrite app_nil_r|].
      eauto. }
  assert (∃ ms m extra, _copy_mask acc.1.2 (Some r) = (ms, m) ∧ ms = acc.1.2 ++ extra)
    as (ms & m & extra & -> & ->).
  { destruct (copy_mask_cases acc.1.2 r) as [(m & _ & _ & ->)| ->]; [by eauto|].
    exists acc.1.2, (Some r), []. by rewrite app_nil_r. }
  destruct (acc.1.1 !! p.2) as [cam|] eqn:Ht; simpl;
    [destruct (cam_mask_accepts_mask cam) eqn:Hacc; simpl|].
  - rewrite length_insert. split; [done|]. split.
    { intros j Hj. by apply list_lookup_insert_ne. }
    split; [eauto|]. intros j cam' Hj. destruct (decide (j = p.2)) as [->|Hne].
    + rewrite list_lookup_insert_eq in Hj by (by eapply lookup_lt_Some).
      injection Hj as <-. eauto.
    + rewrite list_lookup_insert_ne in Hj by done. eauto.
  - split; [done|]. split; [done|]. split; eauto.
  - split; [done|]. split; [done|]. split; eauto.
Qed.

Lemma copy_loop_frame pairs : ∀ acc,
  length (foldl copy_step acc pairs).1.1 = length acc.1.1 ∧
  (∀ j, j ∉ pairs.*2 → (foldl copy_step acc pairs).1.1 !! j = acc.1.1 !! j) ∧
  (∃ extra, (foldl copy_step acc pairs).1.2 = acc.1.2 ++ extra) ∧
  (∀ j cam', (foldl copy_step acc pairs).1.1 !! j = Some cam' →
     ∃ cam, acc.1.1 !! j = Some cam ∧
            cam_mask_accepts_mask cam' = cam_mask_accepts_mask cam).
Proof.
  induction pairs as [|p pairs IH]; intros acc; simpl.
  { split; [done|]. split; [done|]. split; [by exists []; rewrite app_nil_r|].
    eauto. }
  destruct (copy_step_frame acc p) as (Hlen & Hcam & [e1 He1] & Hflag).
  destruct (IH (copy_step acc p)) as (IHlen & IHcam & [e2 He2] & IHflag).
  split; [congruence|]. split.
  { intros j [Hjp Hj]%not_elem_of_cons. by rewrite IHcam, Hcam. }
  split.
  { exists (e1 ++ e2). by rewrite He2, He1, <-(assoc_L (++)). }
  intros j cam' Hj. destruct (IHflag _ _ Hj) as (cam1 & Hj1 & E1).
  destruct (Hflag _ _ Hj1) as (cam & Hj0 & E0). exists cam. split; congruence.
Qed.

(** With masks that can be copied, and a target that takes a mask object, a
    round on a source with a mask gives the target a new object with the
    content of the mask of the source. *)
Lemma copy_step_copy acc s t r cam :
  copyable acc.1 → mask_of acc.1 s = Some r →
  acc.1.1 !! t = Some cam → cam_mask_accepts_mask cam = true →
  ∃ m, acc.1.2 !! r = Some m ∧
    (copy_step acc (s, t)).1
    = (<[t := set_cam_mask (Some (length acc.1.2)) cam]> acc.1.1, acc.1.2 ++ [m]).
Proof.
  intros Hc Hs Ht Hacc. destruct (Hc _ _ Hs) as (m & Hr & Hok).
  exists m. split; [done|]. unfold copy_step. cbn [fst snd]. rewrite Hs.
  destruct (copy_mask_cases acc.1.2 r) as [(m' & Hr' & _ & ->)|Hno].
  - rewrite Ht, Hacc. simpl. congruence.
  - exfalso. unfold _copy_mask in Hno. rewrite Hr in Hno.
    destruct Hok as [Hok|Hok]; rewrite Hok in Hno.
    + injection Hno as Hno _. apply (f_equal length) in Hno.
      rewrite length_app in Hno. simpl in Hno. lia.
    + destruct (mask_copy_ok m); injection Hno as Hno _;
        apply (f_equal length) in Hno; rewrite length_app in Hno;
        simpl in Hno; lia.
Qed.

Lemma copy_step_copyable acc p : copyable acc.1 → copyable (copy_step acc p).1.
Proof.
  intros Hc. unfold copy_step.
  destruct (mask_of acc.1 p.1) as [r|] eqn:Hs; [|done].
  destruct (Hc _ _ Hs) as (m & Hr & Hok).
  assert (∀ i r0 extra, mask_of acc.1 i = Some r0 →
    ∃ m0, (acc.1.2 ++ extra) !! r0 = Some m0 ∧
          (mask_copy_ok m0 = true ∨ mask_ctor_ok m0 = true)) as Hold.
  { intros i r0 extra Hi. destruct (Hc _ _ Hi) as (m0 & Hr0 & Hok0).
    exists m0. split; [by apply lookup_app_l_Some|done]. }
  destruct (copy_mask_cases acc.1.2 r) as [(m' & Hr' & _ & ->)|Hno].
  2:{ exfalso. unfold _copy_mask in Hno. rewrite Hr in Hno.
      destruct Hok as [Hok|Hok]; rewrite Hok in Hno.
      - injection Hno as Hno _. apply (f_equal length) in Hno.
        rewrite length_app in Hno. simpl in Hno. lia.
      - destruct (mask_copy_ok m); injection Hno as Hno _;
          apply (f_equal length) in Hno; rewrite length_app in Hno;
          simpl in Hno; lia. }
  assert (m' = m) as -> by congruence.
  destruct (acc.1.1 !! p.2) as [cam|] eqn:Ht; simpl;
    [destruct (cam_mask_accepts_mask cam) eqn:Hacc; simpl|].
  - intros i r0 Hi. destruct (decide (i = p.2)) as [->|Hne].
    + unfold mask_of in Hi. simpl in Hi.
      rewrite list_lookup_insert_eq in Hi by (by eapply lookup_lt_Some).
      simpl in Hi. injection Hi as <-. exists m. split; [|done].
      simpl. by rewrite lookup_app_r, Nat.sub_diag.
    + apply (Hold i). unfold mask_of in *. simpl in Hi.
      by rewrite list_lookup_insert_ne in Hi.
  - intros i r0 Hi. by apply (Hold i).
  - intros i r0 Hi. by apply (Hold i).
Qed.

Lemma copy_loop_copyable pairs : ∀ acc,
  copyable acc.1 → copyable (foldl copy_step acc pairs).1.
Proof.
  induction pairs as [|p pairs IH]; intros acc Hc; simpl; [done|].
  by apply IH, copy_step_copyable.
Qed.

(** The round of the pair [(s, t)] in the copying loop, with the rounds
    [pre] before it and [post] after it: when the source has a mask as the
    round starts, the target ends with a new object that has the content of
    that mask; when it has none, the target ends with what it had before the
    loop. *)
Lemma copy_loop_middle pre s t post acc :
  NoDup (pre ++ (s, t) :: post).*2 → copyable acc.1 →
  (∃ cam, acc.1.1 !! t = Some cam ∧ cam_mask_accepts_mask cam = true) →
  let st_i := (foldl copy_step acc pre).1 in
  let st' := (foldl copy_step acc (pre ++ (s, t) :: post)).1 in
  match mask_of st_i s with
  | Some r =>
      ∃ r' m, mask_of st' t = Some r' ∧ r' ≠ r ∧ st_i.2 !! r' = None ∧
              st_i.2 !! r = Some m ∧ st'.2 !! r' = Some m ∧ st'.2 !! r = Some m
  | None => mask_of st' t = mask_of acc.1 t
  end.
Proof.
  rewrite fmap_app, fmap_cons. simpl.
  intros (Hpre & Hnotpre & [Hnotpost _]%NoDup_cons)%NoDup_app Hc (cam0 & Ht0 & Hacc0).
  rewrite foldl_app. simpl.
  set (acc_i := foldl copy_step acc pre).
  assert (t ∉ pre.*2) as Htpre.
  { intros Hin. apply (Hnotpre _ Hin). by left. }
  destruct (copy_loop_frame pre acc) as (Hlen & Hcam & _ & _).
  fold acc_i in Hlen, Hcam.
  assert (acc_i.1.1 !! t = Some cam0) as Ht by (by rewrite Hcam).
  assert (copyable acc_i.1) as Hci by (by apply copy_loop_copyable).
  destruct (copy_loop_frame post (copy_step acc_i (s, t)))
    as (_ & Hcam' & [extra Hheap] & _).
  destruct (mask_of acc_i.1 s) as [r|] eqn:Hs.
  - destruct (copy_step_copy acc_i s t r cam0 Hci Hs Ht Hacc0) as (m & Hr & Hstep).
    rewrite Hstep in Hcam', Hheap. simpl in Hcam', Hheap.
    exists (length acc_i.1.2), m.
    assert (r < length acc_i.1.2) as Hlt by (by eapply lookup_lt_Some).
    split.
    { apply (mask_of_set_cam_mask _ _ cam0). rewrite Hcam' by done.
      apply list_lookup_insert_eq. by eapply lookup_lt_Some. }
    split; [lia|]. split; [by apply lookup_ge_None|]. split; [done|].
    rewrite Hheap. split.
    + apply lookup_app_l_Some. by rewrite lookup_app_r, Nat.sub_diag.
    + by do 2 apply lookup_app_l_Some.
  - assert (copy_step acc_i (s, t) = acc_i) as Hstep.
    { unfold copy_step. simpl. by rewrite Hs. }
    rewrite Hstep in Hcam' |- *. apply mask_of_lookup.
    by rewrite Hcam', Hcam.
Qed.

(** ** The mask transfer *)

Lemma pairing_nil_r {A : Type} (l : list A) : pairing l [] = [].
Proof. rewrite pairing_zip. by destruct l. Qed.

Lemma pairing_snd {A : Type} (s t : list A) :
  (pairing s t).*2 = take (length s) t.
Proof.
  rewrite pairing_zip. revert t.
  induction s as [|x s IH]; intros [|y t]; simpl; [done..|]. f_equal. apply IH.
Qed.

Lemma pairing_elem_of {A : Type} (l k : list A) s t :
  (s, t) ∈ pairing l k → s ∈ l ∧ t ∈ k.
Proof.
  rewrite pairing_zip. intros H. split.
  - by eapply elem_of_zip_l.
  - by eapply elem_of_zip_r.
Qed.

Lemma pairing_snd_elem_of {A : Type} (l k : list A) t :
  t ∈ (pairing l k).*2 → t ∈ k.
Proof. rewrite pairing_snd. intros (i & Hi & _)%elem_of_take. by eapply list_elem_of_lookup_2. Qed.

(** The cameras and masks that the transfer leaves are those of the clearing
    loop followed by the copying loop; the point clouds stay. *)
Lemma transfer_store w src_pc new_pc :
  store (_transfer_masks_from_src_to_new w src_pc new_pc)
  = (copy_masks (clear_new_masks (store w) (_attached_cameras w new_pc)).1
       (pairing (_attached_cameras w src_pc) (_attached_cameras w new_pc))).1 ∧
  point_clouds (_transfer_masks_from_src_to_new w src_pc new_pc) = point_clouds w.
Proof.
  unfold _transfer_masks_from_src_to_new.
  set (src_cams := _attached_cameras w src_pc).
  set (new_cams := _attached_cameras w new_pc).
  change (store (print _ w)) with (store w).
  destruct (clear_new_masks (store w) new_cams) as [[cs ms] cleared]. simpl.
  destruct src_cams as [|s src_cams], new_cams as [|t new_cams]; try done.
  set (pairs := pairing (s :: src_cams) (t :: new_cams)).
  change (store (print _ (set_store (cs, ms) _))) with (cs, ms).
  destruct (copy_masks (cs, ms) pairs) as [[cs2 ms2] copied].
  by destruct (decide _).
Qed.

(** C4, amended.  The camera objects that [_attached_cameras] returns for
    the source and for the target are the cameras of the chunk that belong to
    them, sorted ascending by (label, key).  The mask transfer copies along
    the pairs of this loop: the two sorted sequences index by index, cut at
    the length of the shorter one.  The (label, key) pairs of the paired
    cameras are the same for every order of the cameras in the chunk; the
    paired cameras themselves are the same when no two cameras of a
    collection share their (label, key). *)
Theorem attached_pairing (w : World) (src_pc new_pc : nat) :
  let src_cams := _attached_cameras w src_pc in
  let new_cams := _attached_cameras w new_pc in
  let n := length src_cams `min` length new_cams in
  let pairs := pairing (cameras_at w src_cams) (cameras_at w new_cams) in
  cameras_at w src_cams
  = sort_by sort_key_leb camera_sort_key (attached w src_pc) ∧
  cameras_at w new_cams
  = sort_by sort_key_leb camera_sort_key (attached w new_pc) ∧
  cameras_at w src_cams ≡ₚ attached w src_pc ∧
  cameras_at w new_cams ≡ₚ attached w new_pc ∧
  Sorted (key_le sort_key_leb camera_sort_key) (cameras_at w src_cams) ∧
  Sorted (key_le sort_key_leb camera_sort_key) (cameras_at w new_cams) ∧
  pairing src_cams new_cams = zip (take n src_cams) (take n new_cams) ∧
  length (pairing src_cams new_cams) = n ∧
  Forall2 (λ p q, cameras w !! p.1 = Some q.1 ∧ cameras w !! p.2 = Some q.2)
          (pairing src_cams new_cams) pairs ∧
  store (_transfer_masks_from_src_to_new w src_pc new_pc)
  = (copy_masks (clear_new_masks (store w) new_cams).1
       (pairing src_cams new_cams)).1 ∧
  ∀ w', point_clouds w' = point_clouds w → cameras w' ≡ₚ cameras w →
    let pairs' := pairing (cameras_at w' (_attached_cameras w' src_pc))
                          (cameras_at w' (_attached_cameras w' new_pc)) in
    prod_map camera_sort_key camera_sort_key <$> pairs'
    = prod_map camera_sort_key camera_sort_key <$> pairs ∧
    (NoDup (camera_sort_key <$> attached w src_pc) →
     NoDup (camera_sort_key <$> attached w new_pc) → pairs' = pairs).
Proof.
  intros src_cams new_cams n pairs.
  pose proof (cameras_at_attached w src_pc) as Hs.
  pose proof (cameras_at_attached w new_pc) as Ht.
  fold src_cams in Hs. fold new_cams in Ht.
  split; [done|]. split; [done|].
  split; [rewrite Hs; apply sort_by_Permutation|].
  split; [rewrite Ht; apply sort_by_Permutation|].
  split; [rewrite Hs; apply sort_by_Sorted, sort_key_leb_total|].
  split; [rewrite Ht; apply sort_by_Sorted, sort_key_leb_total|].
  split; [|split; [|split; [|split]]].
  - rewrite pairing_zip, zip_with_take_l', zip_with_take_r'; [done|lia|].
    rewrite length_take. lia.
  - rewrite pairing_zip. apply length_zip_with.
  - unfold pairs. rewrite !pairing_zip.
    apply (zip_Forall2 (λ i cam, cameras w !! i = Some cam));
      apply cameras_at_lookup.
  - apply transfer_store.
  - intros w' Hpcs Hcams pairs'. unfold pairs', pairs.
    rewrite Hs, Ht, !cameras_at_attached.
    pose proof (attached_perm w w' src_pc Hpcs Hcams) as Hsrc.
    pose proof (attached_perm w w' new_pc Hpcs Hcams) as Hnew.
    split.
    + rewrite !pairing_zip, !fmap_zip_keys.
      by rewrite (sort_by_perm_keys sort_key_leb camera_sort_key
                    sort_key_leb_total sort_key_leb_trans
                    sort_key_leb_antisym _ _ Hsrc),
                 (sort_by_perm_keys sort_key_leb camera_sort_key
                    sort_key_leb_total sort_key_leb_trans
                    sort_key_leb_antisym _ _ Hnew).
    + intros Hns Hnt.
      rewrite (sort_by_perm sort_key_leb camera_sort_key sort_key_leb_total
                 sort_key_leb_trans sort_key_leb_antisym
                 (attached w' src_pc) (attached w src_pc)),
              (sort_by_perm sort_key_leb camera_sort_key sort_key_leb_total
                 sort_key_leb_trans sort_key_leb_antisym
                 (attached w' new_pc) (attached w new_pc));
        [done|done|by rewrite Hnew|done|by rewrite Hsrc].
Qed.

(** C4, as stated, fails where two cameras of a collection share label
    and key: they come out of the sort in the order of the chunk, so the
    cameras that are paired, and the mask that the camera of the target
    gets, depend on that order. *)
Lemma pairing_depends_on_order :
  let w := world_tie in
  let w' := world_tie_swapped in
  point_clouds w' = point_clouds w ∧
  cameras w' ≡ₚ cameras w ∧
  pairing (cameras_at w (_attached_cameras w 0))
          (cameras_at w (_attached_cameras w 1))
  = [(camera "a" 1 0 (Some 0), camera "x" 2 1 None)] ∧
  pairing (cameras_at w' (_attached_cameras w' 0))
          (cameras_at w' (_attached_cameras w' 1))
  = [(camera "a" 1 0 (Some 1), camera "x" 2 1 None)] ∧
  (let w1 := _transfer_masks_from_src_to_new w 0 1 in
   mask_content (masks w1) (mask_of (store w1) 2) = Some [true]) ∧
  (let w1' := _transfer_masks_from_src_to_new w' 0 1 in
   mask_content (masks w1') (mask_of (store w1') 2) = Some [false]).
Proof.
  split; [done|]. split; [apply Permutation_swap|]. by vm_compute.
Qed.

(** C10, amended.  The mask transfer writes the cameras attached to the
    target only: every other camera object is after the transfer what it was
    before, its mask attribute included; so the source cameras hold the same
    mask objects before and after when no camera is attached to both.  A
    mask object that is not the mask of a camera of the target is not
    changed either; so the content of the mask of a source camera is the same
    before and after when, in addition, no camera of the target holds that
    mask object. *)
Theorem transfer_masks_frame (w : World) (src_pc new_pc : nat) :
  let src_cams := _attached_cameras w src_pc in
  let new_cams := _attached_cameras w new_pc in
  let w' := _transfer_masks_from_src_to_new w src_pc new_pc in
  (∀ j, j ∉ new_cams → cameras w' !! j = cameras w !! j) ∧
  ((∀ s, s ∈ src_cams → s ∉ new_cams) →
     ∀ s, s ∈ src_cams →
       mask_of (store w') s = mask_of (store w) s ∧
       ((∀ t, t ∈ new_cams → mask_of (store w) t ≠ mask_of (store w) s) →
        ∀ d, mask_content (masks w) (mask_of (store w) s) = Some d →
             mask_content (masks w') (mask_of (store w') s) = Some d)) ∧
  (∀ r, (∀ t, t ∈ new_cams → mask_of (store w) t ≠ Some r) →
        r < length (masks w) → masks w' !! r = masks w !! r) ∧
  point_clouds w' = point_clouds w ∧
  length (cameras w') = length (cameras w).
Proof.
  intros src_cams new_cams w'.
  destruct (transfer_store w src_pc new_pc) as [Hst Hpcs].
  fold src_cams new_cams w' in Hst, Hpcs.
  destruct (clear_loop_frame new_cams (store w, 0) (attached_cameras_NoDup _ _))
    as (Hlen1 & Hlenm1 & Hcam1 & Hms1).
  fold (clear_new_masks (store w) new_cams) in Hlen1, Hlenm1, Hcam1, Hms1.
  destruct (copy_loop_frame (pairing src_cams new_cams)
              ((clear_new_masks (store w) new_cams).1, 0))
    as (Hlen2 & Hcam2 & [extra Hms2] & _).
  fold (copy_masks (clear_new_masks (store w) new_cams).1
          (pairing src_cams new_cams)) in Hlen2, Hcam2, Hms2.
  rewrite <-Hst in Hlen2, Hcam2, Hms2. simpl in *.
  assert (Hframe : ∀ j, j ∉ new_cams → cameras w' !! j = cameras w !! j).
  { intros j Hj. rewrite Hcam2, Hcam1; [done..|].
    intros Hin. by apply Hj, (pairing_snd_elem_of src_cams). }
  assert (Hobj : ∀ r, (∀ t, t ∈ new_cams → mask_of (store w) t ≠ Some r) →
            r < length (masks w) → masks w' !! r = masks w !! r).
  { intros r Hr Hlt. rewrite Hms2, lookup_app_l by lia. by apply Hms1. }
  split; [done|]. split; [|split; [done|split; [done|congruence]]].
  intros Hdisj s Hs.
  assert (Hm : mask_of (store w') s = mask_of (store w) s).
  { apply mask_of_lookup. simpl. by apply Hframe, Hdisj. }
  split; [done|]. intros Hne d Hd. rewrite Hm.
  destruct (mask_of (store w) s) as [r|]; [|done].
  unfold mask_content in *. cbn [mbind option_bind] in *.
  rewrite Hobj; [done|done|].
  apply lookup_lt_is_Some. by destruct (masks w !! r); [eauto|].
Qed.

(** After the clearing loop on cameras whose [mask] attribute can be
    assigned: no mask on the cameras of the target, the other masks and all
    mask objects as before. *)
Lemma clear_new_masks_assignable (st : Store) (new_cams : list nat) :
  NoDup new_cams →
  (∀ t, t ∈ new_cams → ∃ cam, st.1 !! t = Some cam ∧ assignable cam) →
  let st1 := (clear_new_masks st new_cams).1 in
  st1.2 = st.2 ∧
  (clear_new_masks st new_cams).2 = length new_cams ∧
  (∀ t, t ∈ new_cams → mask_of st1 t = None) ∧
  (∀ j, j ∉ new_cams → mask_of st1 j = mask_of st j) ∧
  (∀ t, t ∈ new_cams →
     ∃ cam, st1.1 !! t = Some cam ∧ cam_mask_accepts_mask cam = true).
Proof.
  intros Hnd Hok st1.
  destruct (clear_loop_assignable new_cams (st, 0) Hok) as (Hms & Hn & Hshape).
  destruct (clear_loop_frame new_cams (st, 0) Hnd) as (Hlen & _ & Hcam & _).
  fold (clear_new_masks st new_cams) in Hms, Hn, Hshape, Hlen, Hcam.
  fold st1 in Hms, Hshape, Hlen, Hcam. simpl in *.
  assert (Hset : ∀ t, t ∈ new_cams →
            ∃ cam0, st.1 !! t = Some cam0 ∧ assignable cam0 ∧
                    st1.1 !! t = Some (set_cam_mask None cam0)).
  { intros t Ht. destruct (Hok t Ht) as (cam0 & Ht0 & Hass).
    destruct (st1.1 !! t) as [cam|] eqn:E.
    - destruct (Hshape _ _ E) as (cam0' & Ht0' & Hcase).
      rewrite decide_True in Hcase by done. exists cam0.
      split; [done|]. split; [done|]. congruence.
    - apply lookup_ge_None in E. apply lookup_lt_Some in Ht0. lia. }
  split; [done|]. split; [done|]. split; [|split].
  - intros t Ht. destruct (Hset t Ht) as (cam0 & _ & _ & E).
    by apply (mask_of_set_cam_mask _ _ cam0).
  - intros j Hj. apply mask_of_lookup. by apply Hcam.
  - intros t Ht. destruct (Hset t Ht) as (cam0 & _ & (_ & _ & Hacc) & E).
    eexists. split; [done|]. done.
Qed.

(** C5, amended.  When the [mask] attribute of every camera of the target
    can be assigned, and every mask held by a camera can be copied, the
    transfer first clears the masks of all cameras of the target, whatever
    comes after; a target without a pair stays without mask; and for the
    pair [(s, t)] at position [i]: when [s] has a mask as its round starts,
    [t] ends with a new mask object, other than that of [s], with the same
    content; when [s] has none, [t] ends without mask.  When no camera is
    attached to both, the mask of [s] as its round starts is the one it had
    before the transfer. *)
Theorem transfer_masks_spec (w : World) (src_pc new_pc : nat) :
  let src_cams := _attached_cameras w src_pc in
  let new_cams := _attached_cameras w new_pc in
  let pairs := pairing src_cams new_cams in
  let w' := _transfer_masks_from_src_to_new w src_pc new_pc in
  let st1 := (clear_new_masks (store w) new_cams).1 in
  (∀ t cam, t ∈ new_cams → cameras w !! t = Some cam → assignable cam) →
  copyable (store w) →
  (st1.2 = masks w ∧
   (∀ t, t ∈ new_cams → mask_of st1 t = None) ∧
   (∀ j, j ∉ new_cams → mask_of st1 j = mask_of (store w) j)) ∧
  (∀ t, t ∈ new_cams → t ∉ pairs.*2 → mask_of (store w') t = None) ∧
  (∀ i s t, pairs !! i = Some (s, t) →
     let st_i := (copy_masks st1 (take i pairs)).1 in
     match mask_of st_i s with
     | Some r =>
         ∃ r' m, mask_of (store w') t = Some r' ∧ r' ≠ r ∧
                 st_i.2 !! r' = None ∧ st_i.2 !! r = Some m ∧
                 masks w' !! r' = Some m ∧ masks w' !! r = Some m
     | None => mask_of (store w') t = None
     end) ∧
  ((∀ s, s ∈ src_cams → s ∉ new_cams) →
     ∀ i s t, pairs !! i = Some (s, t) →
       mask_of (copy_masks st1 (take i pairs)).1 s = mask_of (store w) s).
Proof.
  intros src_cams new_cams pairs w' st1 Hass Hcopy.
  assert (Hnd : NoDup new_cams) by apply attached_cameras_NoDup.
  assert (Hok : ∀ t, t ∈ new_cams →
            ∃ cam, (store w).1 !! t = Some cam ∧ assignable cam).
  { intros t Ht. pose proof Ht as (cam & Hcam & _)%elem_of_attached_cameras.
    exists cam. split; [done|]. by apply (Hass t). }
  destruct (clear_new_masks_assignable (store w) new_cams Hnd Hok)
    as (Hms1 & _ & Hnone & Hother & Hacc).
  fold st1 in Hms1, Hnone, Hother, Hacc.
  destruct (transfer_store w src_pc new_pc) as [Hst _].
  fold src_cams new_cams pairs w' st1 in Hst.
  assert (Hc1 : copyable st1).
  { intros i r Hi. destruct (decide (i ∈ new_cams)) as [Hin|Hout].
    - by rewrite Hnone in Hi.
    - rewrite Hother in Hi by done. rewrite Hms1. by apply (Hcopy i). }
  assert (Hndp : NoDup pairs.*2).
  { unfold pairs. rewrite pairing_snd. apply (sublist_NoDup _ new_cams); [done|apply sublist_take]. }
  assert (Htgt : ∀ t, t ∈ pairs.*2 → t ∈ new_cams).
  { intros t. apply pairing_snd_elem_of. }
  split; [done|]. split; [|split].
  - intros t Ht Hnp. rewrite Hst, <-(Hnone t Ht). apply mask_of_lookup.
    by apply (copy_loop_frame pairs (st1, 0)).
  - intros i s t Hi st_i.
    assert (Ht : t ∈ pairs.*2).
    { apply list_elem_of_fmap. exists (s, t).
      split; [done|]. by eapply list_elem_of_lookup_2. }
    pose proof (copy_loop_middle (take i pairs) s t (drop (S i) pairs) (st1, 0))
      as Hmid.
    rewrite (take_drop_middle pairs i (s, t) Hi) in Hmid.
    specialize (Hmid Hndp Hc1 (Hacc t (Htgt t Ht))). simpl in Hmid.
    fold (copy_masks st1 (take i pairs)) in Hmid.
    fold (copy_masks st1 pairs) in Hmid. rewrite <-Hst in Hmid. fold st_i in Hmid.
    destruct (mask_of st_i s) as [r|]; [done|].
    rewrite Hmid. by apply Hnone, Htgt.
  - intros Hdisj i s t Hi.
    assert (Hs : s ∈ src_cams).
    { eapply (pairing_elem_of src_cams new_cams s t), list_elem_of_lookup_2, Hi. }
    rewrite <-(Hother s (Hdisj s Hs)). apply mask_of_lookup.
    apply (copy_loop_frame (take i pairs) (st1, 0)).
    intros (p & Hp2 & (k & Hk & _)%elem_of_take)%list_elem_of_fmap.
    apply (Hdisj s Hs), Htgt, list_elem_of_fmap.
    exists p. split; [done|by eapply list_elem_of_lookup_2].
Qed.

Lemma world_masks_attached m :
  _attached_cameras (world_masks m) 0 = [0; 1] ∧
  _attached_cameras (world_masks m) 1 = [2; 3].
Proof. by vm_compute. Qed.

Lemma transfer_masks_frame_witness :
  let w := world_masks (plain_mask [true; false]) in
  let w' := _transfer_masks_from_src_to_new w 0 1 in
  (0 ∉ _attached_cameras w 1) ∧
  (∀ s, s ∈ _attached_cameras w 0 → s ∉ _attached_cameras w 1) ∧
  (∀ t, t ∈ _attached_cameras w 1 →
        mask_of (store w) t ≠ mask_of (store w) 0) ∧
  cameras w' !! 0 = cameras w !! 0 ∧
  mask_of (store w') 0 = mask_of (store w) 0 ∧
  mask_content (masks w') (mask_of (store w') 0) = Some [true; false] ∧
  masks w' !! 0 = masks w !! 0.
Proof.
  intros w w'.
  destruct (world_masks_attached (plain_mask [true; false])) as [Hsrc Hnew].
  fold w in Hsrc, Hnew.
  assert (H0 : 0 ∉ _attached_cameras w 1).
  { rewrite Hnew. intros [?|[?|?%elem_of_nil]%elem_of_cons]%elem_of_cons; lia. }
  assert (Hd : ∀ s, s ∈ _attached_cameras w 0 → s ∉ _attached_cameras w 1).
  { rewrite Hsrc, Hnew.
    intros s [->|[->|?%elem_of_nil]%elem_of_cons]%elem_of_cons; [| |done];
      intros [?|[?|?%elem_of_nil]%elem_of_cons]%elem_of_cons; lia. }
  assert (Hne : ∀ t, t ∈ _attached_cameras w 1 →
                     mask_of (store w) t ≠ mask_of (store w) 0).
  { rewrite Hnew.
    intros t [->|[->|?%elem_of_nil]%elem_of_cons]%elem_of_cons; [| |done];
      by vm_compute. }
  assert (Hin : 0 ∈ _attached_cameras w 0) by (rewrite Hsrc; by left).
  destruct (transfer_masks_frame w 0 1) as (Hcam & Hsrcm & Hobj & _).
  destruct (Hsrcm Hd 0 Hin) as [Hmask Hcontent].
  split; [done|]. split; [done|]. split; [done|].
  split; [by apply Hcam|]. split; [done|].
  split; [by apply (Hcontent Hne)|].
  apply Hobj; [|simpl; lia]. rewrite Hnew.
  intros t [->|[->|?%elem_of_nil]%elem_of_cons]%elem_of_cons; [| |done];
    by vm_compute.
Defined.

(** C10, as stated, fails where a camera of the target holds the mask
    object of a camera of the source and its [mask] attribute takes no
    [None]: no camera is attached to both point clouds, the source camera
    holds the same object before and after, and [clear()] has emptied it. *)
Lemma shared_mask_is_cleared :
  let w := world_shared in
  let w' := _transfer_masks_from_src_to_new w 0 1 in
  _attached_cameras w 0 = [0] ∧ _attached_cameras w 1 = [1] ∧
  mask_of (store w) 0 = Some 0 ∧ mask_of (store w) 1 = Some 0 ∧
  mask_of (store w') 0 = Some 0 ∧
  mask_content (masks w) (mask_of (store w) 0) = Some [true; false] ∧
  mask_content (masks w') (mask_of (store w') 0) = Some [false; false].
Proof. by vm_compute. Qed.

Lemma transfer_masks_spec_witness :
  let w := world_masks (plain_mask [true; false]) in
  let w' := _transfer_masks_from_src_to_new w 0 1 in
  (∀ t cam, t ∈ _attached_cameras w 1 → cameras w !! t = Some cam →
            assignable cam) ∧
  copyable (store w) ∧
  pairing (_attached_cameras w 0) (_attached_cameras w 1) = [(0, 2); (1, 3)] ∧
  (∃ r' m, mask_of (store w') 2 = Some r' ∧ r' ≠ 0 ∧
           masks w !! r' = None ∧ masks w !! 0 = Some m ∧
           masks w' !! r' = Some m ∧ masks w' !! 0 = Some m) ∧
  mask_of (store w') 3 = None.
Proof.
  intros w w'.
  destruct (world_masks_attached (plain_mask [true; false])) as [Hsrc Hnew].
  fold w in Hsrc, Hnew.
  assert (Hass : ∀ t cam, t ∈ _attached_cameras w 1 →
            cameras w !! t = Some cam → assignable cam).
  { rewrite Hnew.
    intros t cam [->|[->|?%elem_of_nil]%elem_of_cons]%elem_of_cons Hc;
      [| |done]; injection Hc as <-; (split; [by eexists|by split]). }
  assert (Hcopy : copyable (store w)).
  { intros [|[|[|[|i]]]] r Hr; try discriminate Hr; injection Hr as <-;
      eexists; (split; [reflexivity|by left]). }
  assert (Hpairs : pairing (_attached_cameras w 0) (_attached_cameras w 1)
                   = [(0, 2); (1, 3)]) by (by rewrite Hsrc, Hnew).
  destruct (transfer_masks_spec w 0 1 Hass Hcopy) as (_ & _ & Hpair & _).
  rewrite Hpairs, Hnew in Hpair.
  split; [done|]. split; [done|]. split; [done|]. split.
  - exact (Hpair 0 0 2 eq_refl).
  - exact (Hpair 1 1 3 eq_refl).
Defined.

(** C5, as stated, fails on a mask that neither [copy()] nor the constructor
    can copy: the camera [t1] of the target ends up holding the very mask
    object of the camera [s1] of the source. *)
Lemma transfer_masks_alias :
  let w := world_masks (rigid_mask [true; false]) in
  let w' := _transfer_masks_from_src_to_new w 0 1 in
  pairing (_attached_cameras w 0) (_attached_cameras w 1) = [(0, 2); (1, 3)] ∧
  mask_of (store w) 0 = Some 0 ∧
  mask_of (store w') 0 = Some 0 ∧
  mask_of (store w') 2 = Some 0 ∧
  length (masks w') = length (masks w).
Proof. by vm_compute. Qed.

(** ** The pipeline *)


Lemma for_each_done {A S : Type} (body : S → A → M S) acc x l w acc' w' :
  body acc x w = (Done acc', w') →
  for_each body acc (x :: l) w = for_each body acc' l w'.
Proof. intros H. simpl. unfold mbind, M_bind. by rewrite H. Qed.

Section preflight.
Context {py : Builtins}.

(** Mapping the stations by name prints warnings and does nothing else. *)
Lemma register_station_effect loaded pc w :
  ∃ loaded' labels,
    register_station loaded pc w
    = (Done loaded',
       mkWorld (point_clouds w) (cameras w) (masks w)
               (console w ++ (EvDuplicateLabel <$> labels))).
Proof.
  unfold register_station, mbind, M_bind, get. simpl.
  destruct w as [pcs cams ms out]. simpl.
  destruct (decide _).
  { exists loaded, []. simpl. by rewrite app_nil_r. }
  destruct (decide _).
  - eexists loaded, [_]. reflexivity.
  - eexists _, []. simpl. by rewrite app_nil_r.
Qed.

Lemma register_stations_effect scans : ∀ loaded w,
  ∃ loaded' labels,
    for_each register_station loaded scans w
    = (Done loaded',
       mkWorld (point_clouds w) (cameras w) (masks w)
               (console w ++ (EvDuplicateLabel <$> labels))).
Proof.
  induction scans as [|pc scans IH]; intros loaded w.
  { exists loaded, []. destruct w. simpl. by rewrite app_nil_r. }
  destruct (register_station_effect loaded pc w) as (loaded1 & l1 & H1).
  rewrite (for_each_done _ _ _ _ _ _ _ H1).
  destruct (IH loaded1 (mkWorld (point_clouds w) (cameras w) (masks w)
              (console w ++ (EvDuplicateLabel <$> l1)))) as (loaded2 & l2 & H2).
  exists loaded2, (l1 ++ l2). rewrite H2. simpl.
  by rewrite fmap_app, (assoc_L (++)).
Qed.

(** C8, amended.  Without an active document and chunk the pipeline raises
    at once.  With no [.e57] file in the folder, and with no laser scan in
    the chunk, it prints a message and returns.  When the format enumerator
    is found in neither place it raises, once files and laser scans were
    found.  In all four cases no file is imported and no point cloud, camera
    or mask is changed. *)
Theorem preflight (h : Host) (w : World) :
  (active_chunk h = false →
     importar_e57_y_aplicar_delta_y_mascaras h w
     = (Raised (RuntimeError "No active Metashape document/chunk found."), w)) ∧
  (active_chunk h = true → selected_folder h ≠ "" → e57_files h = [] →
     importar_e57_y_aplicar_delta_y_mascaras h w
     = (Done tt, print (EvNoFiles (selected_folder h)) (print EvMessageBox w))) ∧
  (active_chunk h = true → selected_folder h ≠ "" → e57_files h ≠ [] →
   laser_scans w = [] →
     importar_e57_y_aplicar_delta_y_mascaras h w
     = (Done tt, print EvNoScans (print EvMessageBox w))) ∧
  (active_chunk h = true → selected_folder h ≠ "" → e57_files h ≠ [] →
   laser_scans w ≠ [] →
   PointCloudFormatE57 h = None →
   PointCloudFormat_PointCloudFormatE57 h = None →
     ∃ labels,
       importar_e57_y_aplicar_delta_y_mascaras h w
       = (Raised (RuntimeError
            "PointCloudFormatE57 was not found in this Metashape installation."),
          mkWorld (point_clouds w) (cameras w) (masks w)
            (console w ++ EvMessageBox :: (EvDuplicateLabel <$> labels)))).
Proof.
  unfold importar_e57_y_aplicar_delta_y_mascaras.
  split; [|split; [|split]].
  - by intros ->.
  - intros -> Hf He. simpl. unfold mbind, M_bind, modify. simpl.
    rewrite decide_False by done. by rewrite He.
  - intros -> Hf He Hl. simpl. unfold mbind, M_bind, modify, get. simpl.
    rewrite decide_False by done.
    destruct (e57_files h); [done|].
    change (laser_scans (print EvMessageBox w)) with (laser_scans w).
    by rewrite Hl.
  - intros -> Hf He Hl Hf1 Hf2. simpl. unfold mbind, M_bind, modify, get. simpl.
    rewrite decide_False by done.
    destruct (e57_files h); [done|].
    change (laser_scans (print EvMessageBox w)) with (laser_scans w).
    destruct (laser_scans w) as [|pc scans] eqn:El; [done|].
    destruct (register_stations_effect (pc :: scans) ∅ (print EvMessageBox w))
      as (loaded & labels & ->).
    exists labels. unfold _get_e57_format. rewrite Hf1, Hf2. simpl.
    by rewrite <-(assoc_L (++)).
Qed.

End preflight.

Lemma preflight_witness :
  importar_e57_y_aplicar_delta_y_mascaras host_no_chunk world_plain
  = (Raised (RuntimeError "No active Metashape document/chunk found."),
     world_plain) ∧
  importar_e57_y_aplicar_delta_y_mascaras host_no_files world_plain
  = (Done tt, print (EvNoFiles "/scans") (print EvMessageBox world_plain)) ∧
  importar_e57_y_aplicar_delta_y_mascaras host_group world_no_scans
  = (Done tt, print EvNoScans (print EvMessageBox world_no_scans)) ∧
  ∃ labels,
    importar_e57_y_aplicar_delta_y_mascaras host_no_format world_plain
    = (Raised (RuntimeError
         "PointCloudFormatE57 was not found in this Metashape installation."),
       mkWorld (point_clouds world_plain) (cameras world_plain)
         (masks world_plain)
         (console world_plain ++ EvMessageBox :: (EvDuplicateLabel <$> labels))).
Proof.
  split; [|split; [|split]].
  - by apply (preflight host_no_chunk world_plain).
  - by apply (preflight host_no_files world_plain).
  - by apply (preflight host_group world_no_scans).
  - by apply (preflight host_no_format world_plain).
Defined.

(** C8, as stated, fails: with no [.e57] file in the folder the pipeline
    does not raise, it prints a message and returns. *)
Lemma no_files_returns :
  e57_files host_no_files = [] ∧
  importar_e57_y_aplicar_delta_y_mascaras host_no_files world_plain
  = (Done tt,
     mkWorld (point_clouds world_plain) [] [] [EvMessageBox; EvNoFiles "/scans"]).
Proof. split; reflexivity. Qed.

Section labelling.
Context {py : Builtins}.

(** Labelling an imported point cloud writes its label and its group, and
    nothing else. *)
Lemma label_new_pc_effect base src existing idx new_pc w :
  ∃ existing' pcs,
    label_new_pc base src existing (idx, new_pc) w
    = (Done existing', mkWorld pcs (cameras w) (masks w) (console w)) ∧
    pc_transform <$> pcs = pc_transform <$> point_clouds w ∧
    pc_key <$> pcs = pc_key <$> point_clouds w ∧
    (∀ j, j ≠ new_pc → pcs !! j = point_clouds w !! j) ∧
    (new_pc < length (point_clouds w) →
     pc_label (pcs !!! new_pc)
     = _make_unique_label
         (if decide (idx = 1) then base +:+ "_new"
          else base +:+ "_new_" +:+ fmt_02d idx) existing).
Proof.
  destruct w as [pcs0 cams ms out].
  unfold label_new_pc, mbind, M_bind, update_pc, modify, get. simpl.
  set (new_label := _make_unique_label _ existing).
  set (pcs1 := alter (set_pc_label new_label) new_pc pcs0).
  assert (H1 : pc_transform <$> pcs1 = pc_transform <$> pcs0 ∧
               pc_key <$> pcs1 = pc_key <$> pcs0).
  { unfold pcs1. split; apply list_eq; intros j; rewrite !list_lookup_fmap;
      (destruct (decide (j = new_pc)) as [->|];
        [rewrite list_lookup_alter_eq|rewrite list_lookup_alter_ne by done]);
      try done; by destruct (pcs0 !! new_pc). }
  assert (H2 : ∀ g, pc_transform <$> alter (set_pc_group g) new_pc pcs1
                    = pc_transform <$> pcs1 ∧
                    pc_key <$> alter (set_pc_group g) new_pc pcs1
                    = pc_key <$> pcs1).
  { intros g. split; apply list_eq; intros j; rewrite !list_lookup_fmap;
      (destruct (decide (j = new_pc)) as [->|];
        [rewrite list_lookup_alter_eq|rewrite list_lookup_alter_ne by done]);
      try done; by destruct (pcs1 !! new_pc). }
  assert (H3 : new_pc < length pcs0 → pc_label (pcs1 !!! new_pc) = new_label).
  { intros Hlt. destruct (lookup_lt_is_Some_2 pcs0 new_pc Hlt) as [pc Hpc].
    unfold pcs1. erewrite list_lookup_total_correct; [|by rewrite list_lookup_alter_eq, Hpc].
    done. }
  assert (H4 : ∀ g, new_pc < length pcs0 →
            pc_label (alter (set_pc_group g) new_pc pcs1 !!! new_pc) = new_label).
  { intros g Hlt. destruct (lookup_lt_is_Some_2 pcs0 new_pc Hlt) as [pc Hpc].
    unfold pcs1. erewrite list_lookup_total_correct;
      [|by rewrite !list_lookup_alter_eq, Hpc]. done. }
  destruct (pc_group (pcs1 !!! src)) as [g|];
    [destruct (pc_group_writable (pcs1 !!! new_pc))|]; simpl;
    eexists _, _; (split; [reflexivity|]).
  - destruct H1, (H2 (Some g)). split; [congruence|]. split; [congruence|].
    split; [|by apply H4]. intros j Hj. unfold pcs1.
    by rewrite !list_lookup_alter_ne.
  - destruct H1. split; [done|]. split; [done|]. split; [|done].
    intros j Hj. unfold pcs1. by rewrite list_lookup_alter_ne.
  - destruct H1. split; [done|]. split; [done|]. split; [|done].
    intros j Hj. unfold pcs1. by rewrite list_lookup_alter_ne.
Qed.


End labelling.



(** ** Names *)

Section names.
Context {py : Builtins} {py_laws : BuiltinLaws}.

Lemma norm_name_idemp s : _norm_name (_norm_name s) = _norm_name s.
Proof.
  unfold _norm_name. by rewrite lower_strip, lower_idemp, lower_strip, strip_idemp.
Qed.

(** X1.  The normalized name is a function of the name in lower case; white
    space around the name does not count; and normalizing twice changes
    nothing. *)
Theorem norm_name_insensitive (s t ws1 ws2 : string) :
  _norm_name (_norm_name s) = _norm_name s ∧
  (lower s = lower t → _norm_name s = _norm_name t) ∧
  (strip ws1 = "" → strip ws2 = "" →
     _norm_name (ws1 +:+ s +:+ ws2) = _norm_name s).
Proof.
  split; [apply norm_name_idemp|]. unfold _norm_name. split.
  - intros Hst. by rewrite !lower_strip, Hst.
  - intros H1 H2. by rewrite strip_pad.
Qed.

End names.

Lemma norm_name_insensitive_witness :
  _norm_name ("  " +:+ "Station_01" +:+ " ") = _norm_name "Station_01" ∧
  _norm_name "Station_01" = _norm_name "station_01" ∧
  _norm_name "Station_01" = "station_01".
Proof.
  destruct (norm_name_insensitive "Station_01" "station_01" "  " " ")
    as (_ & Hcase & Hpad).
  split; [by apply Hpad|]. split; [by apply Hcase|done].
Defined.

(** ** File names *)

Lemma substring_skip p m t :
  substring (String.length p) m (p +:+ t) = substring 0 m t.
Proof. induction p as [|c p IH]; [done|]. by rewrite append_cons. Qed.

Lemma substring_all t : substring 0 (String.length t) t = t.
Proof. induction t as [|c t IH]; [done|]. simpl. by rewrite IH. Qed.

Lemma substring_split n s :
  n ≤ String.length s →
  s = substring 0 n s +:+ substring n (String.length s - n) s.
Proof.
  revert n. induction s as [|c s IH]; intros [|n] Hn; simpl in *; try lia.
  - done.
  - by rewrite substring_all.
  - rewrite append_cons. f_equal. apply IH. lia.
Qed.

(** [endswith] holds of the strings that are the suffix after something. *)
Lemma endswith_spec suffix s :
  endswith suffix s = true ↔ ∃ p, s = p +:+ suffix.
Proof.
  unfold endswith. rewrite andb_true_iff, Nat.leb_le, String.eqb_eq. split.
  - intros [Hle Hsub]. exists (substring 0 (String.length s - String.length suffix) s).
    pose proof (substring_split (String.length s - String.length suffix) s) as H.
    replace (String.length s - (String.length s - String.length suffix))
      with (String.length suffix) in H by lia.
    rewrite Hsub in H. apply H. lia.
  - intros [p ->]. rewrite string_length_append. split; [lia|].
    replace (String.length p + String.length suffix - String.length suffix)
      with (String.length p) by lia.
    by rewrite substring_skip, substring_all.
Qed.

Lemma split_at_dot_app ext rest :
  forallb (λ c, negb (is_dot c)) ext = true →
  split_at_dot (ext ++ "."%char :: rest) = Some rest.
Proof.
  induction ext as [|c ext IH]; simpl; [done|].
  intros [Hc Hext]%andb_true_iff. destruct (is_dot c); [done|]. by apply IH.
Qed.

Lemma split_at_dot_None l :
  forallb (λ c, negb (is_dot c)) l = true → split_at_dot l = None.
Proof.
  induction l as [|c l IH]; simpl; [done|].
  intros [Hc Hl]%andb_true_iff. destruct (is_dot c); [done|]. by apply IH.
Qed.

Lemma forallb_rev {A : Type} (f : A → bool) (l : list A) :
  forallb f (rev l) = forallb f l.
Proof.
  induction l as [|x l IH]; [done|]. simpl.
  rewrite forallb_app, IH. simpl. by rewrite andb_true_r, andb_comm.
Qed.

(** The root of a file name: with an extension that has no dot in it, the
    name is split at the dot of the extension, unless nothing but dots comes
    before it; a name without a dot is its own root. *)
Lemma splitext_root_spec (base ext : string) :
  forallb (λ c, negb (is_dot c)) (list_ascii_of_string ext) = true →
  (forallb is_dot (list_ascii_of_string base) = false →
     splitext_root (base +:+ "." +:+ ext) = base) ∧
  (forallb is_dot (list_ascii_of_string base) = true →
     splitext_root (base +:+ "." +:+ ext) = base +:+ "." +:+ ext) ∧
  splitext_root ext = ext.
Proof.
  intros Hext. unfold splitext_root.
  assert (split_at_dot (rev (list_ascii_of_string (base +:+ "." +:+ ext)))
          = Some (rev (list_ascii_of_string base))) as Hsplit.
  { rewrite !list_ascii_of_string_append. simpl.
    rewrite rev_app_distr. simpl. rewrite <-app_assoc. simpl.
    apply split_at_dot_app. by rewrite forallb_rev. }
  split; [|split].
  - intros Hbase. rewrite Hsplit, forallb_rev, Hbase, List.rev_involutive.
    apply string_of_list_ascii_of_string.
  - intros Hbase. by rewrite Hsplit, forallb_rev, Hbase.
  - by rewrite split_at_dot_None by (by rewrite forallb_rev).
Qed.

(** ** The files of the folder *)

Lemma string_leb_trans a b c :
  String.leb a b = true → String.leb b c = true → String.leb a c = true.
Proof.
  intros H1%Is_true_true H2%Is_true_true. apply Is_true_true.
  by apply (transitivity (R := String.le) (y := b)).
Qed.

Lemma Sorted_key_le_id (l : list string) :
  Sorted (key_le String.leb id) l → Sorted String.le l.
Proof.
  induction 1 as [|x l Hl IH Hx]; constructor; [done|].
  destruct Hx as [|y l Hxy]; constructor. by apply Is_true_true.
Qed.

Lemma sort_by_id_perm (l l' : list string) :
  l ≡ₚ l' → sort_by String.leb id l = sort_by String.leb id l'.
Proof.
  intros Hp.
  pose proof (sort_by_perm_keys String.leb id String.leb_total
                string_leb_trans String.leb_antisym l l' Hp) as H.
  by rewrite !list_fmap_id in H.
Qed.

Section files.
Context {py : Builtins}.

(** X2.  The files that the pipeline visits: the regular files of the folder
    whose name ends in [.e57] in lower case, each as often as it is listed, in
    ascending order of their names, whatever the order of the listing. *)
Theorem e57_files_spec (h : Host) :
  Sorted String.le (e57_files h) ∧
  e57_files h ≡ₚ
    (fst <$> filter (λ f, f.2 && endswith ".e57" (lower f.1)) (listdir h)) ∧
  (∀ f, f ∈ e57_files h ↔
        (f, true) ∈ listdir h ∧ ∃ p, lower f = p +:+ ".e57") ∧
  (∀ h', listdir h' ≡ₚ listdir h → e57_files h' = e57_files h).
Proof.
  unfold e57_files. split; [|split; [|split]].
  - apply Sorted_key_le_id, sort_by_Sorted, String.leb_total.
  - apply sort_by_Permutation.
  - intros f. rewrite sort_by_Permutation, list_elem_of_fmap. split.
    + intros ([f' b] & -> & [Hf Hin]%list_elem_of_filter). simpl in *.
      apply Is_true_true, andb_true_iff in Hf as [-> Hend].
      split; [done|]. by apply endswith_spec.
    + intros [Hin Hend]. exists (f, true). split; [done|].
      apply list_elem_of_filter. split; [|done]. simpl.
      apply Is_true_true. by apply endswith_spec.
  - intros h' Hp. apply sort_by_id_perm. by rewrite Hp.
Qed.

End files.

Lemma e57_files_spec_witness :
  listdir host_singular ≡ₚ [("A.e57", true); ("B.e57", true)] ∧
  e57_files host_singular = ["A.e57"; "B.e57"].
Proof.
  assert (Hp : listdir host_singular ≡ₚ [("A.e57", true); ("B.e57", true)])
    by apply Permutation_swap.
  split; [done|].
  destruct (e57_files_spec
    (host [("A.e57", true); ("B.e57", true)] (λ _, ([], [], []))))
    as (_ & _ & _ & Hperm).
  by rewrite (Hperm host_singular Hp).
Defined.

Lemma lower_ascii_not_dot c : lower_ascii c ≠ "."%char → is_dot c = false.
Proof.
  intros H. unfold is_dot. apply Ascii.eqb_neq. by intros ->.
Qed.

Section roots.
Context {py : Builtins} {py_laws : BuiltinLaws}.

(** X3.  The root that the pipeline takes from a file it visits is the name
    without its last four characters (the dot and the three letters of the
    extension, in any case), unless nothing but dots comes before them: then
    it is the whole name. *)
Theorem e57_file_root (h : Host) (f : string) :
  f ∈ e57_files h →
  ∃ base ext,
    f = base +:+ "." +:+ ext ∧ lower ext = "e57" ∧
    splitext_root f = (if forallb is_dot (list_ascii_of_string base)
                       then f else base).
Proof.
  intros Hf. unfold e57_files in Hf. rewrite sort_by_Permutation in Hf.
  apply list_elem_of_fmap in Hf as ([f' b] & -> & [Hf _]%list_elem_of_filter).
  simpl in *. apply Is_true_true, andb_true_iff in Hf as [_ Hend].
  apply endswith_spec in Hend as [p Hp].
  apply lower_e57 in Hp as (base & c & -> & Hc).
  exists base, (String c "57"). split; [done|].
  pose proof (lower_ascii_e c Hc) as Hce. split.
  { rewrite lower_ascii_only by (by destruct Hce as [-> | ->]).
    cbn [ascii_lower]. by rewrite Hc. }
  assert (forallb (λ c, negb (is_dot c))
            (list_ascii_of_string (String c "57")) = true) as Hnodot.
  { by destruct Hce as [-> | ->]. }
  destruct (splitext_root_spec base _ Hnodot) as (Hsome & Hall & _).
  destruct (forallb is_dot (list_ascii_of_string base)); [by apply Hall|by apply Hsome].
Qed.

End roots.

Lemma e57_file_root_witness :
  "A.e57" ∈ e57_files host_singular ∧
  ∃ base ext,
    "A.e57" = base +:+ "." +:+ ext ∧ lower ext = "e57" ∧
    splitext_root "A.e57" = (if forallb is_dot (list_ascii_of_string base)
                             then "A.e57" else base).
Proof.
  assert (Hin : "A.e57" ∈ e57_files host_singular) by (by left).
  split; [done|]. by apply (e57_file_root host_singular).
Defined.

(** ** Stability of the sort *)

Lemma sort_key_leb_refl k : sort_key_leb k k = true.
Proof. by destruct (sort_key_leb_total k k). Qed.

Lemma filter_insert_by {A : Type} (key : A → string * Z) k x l :
  filter (λ y, key y = k) (insert_by sort_key_leb key x l)
  = filter (λ y, key y = k) (x :: l).
Proof.
  induction l as [|y l IH]; [done|]. simpl.
  destruct (sort_key_leb (key x) (key y)) eqn:E; [done|].
  assert (key x ≠ key y) as Hne.
  { intros Heq. by rewrite Heq, sort_key_leb_refl in E. }
  rewrite (filter_cons _ y), IH, !filter_cons.
  repeat case_decide; congruence.
Qed.

(** The sort is stable: the elements with one and the same key come out in
    the order in which they went in. *)
Lemma sort_by_stable {A : Type} (key : A → string * Z) (l : list A)
    (k : string * Z) :
  filter (λ x, key x = k) (sort_by sort_key_leb key l)
  = filter (λ x, key x = k) l.
Proof.
  induction l as [|x l IH]; [done|]. simpl.
  by rewrite filter_insert_by, !filter_cons, IH.
Qed.

(** ** Attached cameras, in full *)

(** X7.  [_attached_cameras] returns the cameras of the chunk that belong to
    the point cloud, each once, in ascending order of (label, key), and those
    with the same (label, key) in the order of the chunk. *)
Theorem attached_cameras_spec (w : World) (pc : nat) :
  Sorted (key_le sort_key_leb (camera_key_at w)) (_attached_cameras w pc) ∧
  NoDup (_attached_cameras w pc) ∧
  (∀ i, i ∈ _attached_cameras w pc ↔
        ∃ cam, cameras w !! i = Some cam ∧
               _camera_belongs_to_pointcloud w cam pc = true) ∧
  (∀ k, filter (λ i, camera_key_at w i = k) (_attached_cameras w pc)
        = filter (λ i, camera_key_at w i = k)
            (filter (λ i, from_option
                            (λ cam, _camera_belongs_to_pointcloud w cam pc)
                            false (cameras w !! i))
                    (seq 0 (length (cameras w))))).
Proof.
  split; [apply attached_cameras_Sorted|].
  split; [apply attached_cameras_NoDup|].
  split; [apply elem_of_attached_cameras|].
  intros k. apply sort_by_stable.
Qed.

(** ** Stations by name *)

Lemma filter_seq_lookup_lt (P : nat → Prop) `{!∀ i, Decision (P i)} len :
  ∀ start a b x y,
    filter P (seq start len) !! a = Some x →
    filter P (seq start len) !! b = Some y → a < b → x < y.
Proof.
  induction len as [|len IH]; intros start a b x y Ha Hb Hab; [done|].
  simpl in Ha, Hb. rewrite filter_cons in Ha, Hb.
  destruct (decide (P start)).
  - destruct b as [|b]; [lia|]. simpl in Hb.
    assert (S start ≤ y) as Hy.
    { apply list_elem_of_lookup_2, list_elem_of_filter in Hb as [_ Hb].
      apply elem_of_seq in Hb. lia. }
    destruct a as [|a]; simpl in Ha.
    + injection Ha as <-. lia.
    + apply (IH (S start) a b); [done..|lia].
  - by apply (IH (S start) a b).
Qed.

Section stations.
Context {py : Builtins}.

Lemma register_station_map loaded pc w :
  (register_station loaded pc w).1
  = Done (let k := _norm_name (pc_label (point_clouds w !!! pc)) in
          if decide (k = "") then loaded
          else if decide (is_Some (loaded !! k)) then loaded
          else <[k := pc]> loaded) ∧
  point_clouds (register_station loaded pc w).2 = point_clouds w.
Proof.
  unfold register_station, mbind, M_bind, get. simpl.
  destruct (decide _); [done|]. by destruct (decide _).
Qed.

Lemma register_stations_map scans : ∀ loaded w,
  ∃ loaded',
    (for_each register_station loaded scans w).1 = Done loaded' ∧
    ∀ k, loaded' !! k
         = match loaded !! k with
           | Some i => Some i
           | None =>
               if decide (k = "") then None
               else snd <$> list_find
                      (λ i, _norm_name (pc_label (point_clouds w !!! i)) = k)
                      scans
           end.
Proof.
  induction scans as [|pc scans IH]; intros loaded w.
  { exists loaded. split; [done|]. intros k.
    destruct (loaded !! k); [done|]. by destruct (decide _). }
  destruct (register_station_map loaded pc w) as [Hmap Hpcs].
  destruct (register_station loaded pc w) as [out w1] eqn:E.
  cbn [fst snd] in Hmap, Hpcs. subst out.
  rewrite (for_each_done _ _ _ _ _ _ _ E).
  set (k0 := _norm_name (pc_label (point_clouds w !!! pc))) in *.
  destruct (IH (if decide (k0 = "") then loaded
                else if decide (is_Some (loaded !! k0)) then loaded
                else <[k0 := pc]> loaded) w1) as (loaded' & Hrun & Hlook).
  exists loaded'. split; [done|]. intros k. rewrite Hlook, Hpcs. clear Hlook.
  simpl. fold k0.
  destruct (decide (k0 = "")) as [Hk0|Hk0].
  { destruct (loaded !! k); [done|]. destruct (decide (k = "")); [done|].
    rewrite decide_False by congruence. by destruct (list_find _ scans) as [[]|]. }
  destruct (decide (is_Some (loaded !! k0))) as [[i Hi]|Hnone].
  { destruct (loaded !! k) eqn:Hk; [done|]. destruct (decide (k = "")); [done|].
    rewrite decide_False by congruence. by destruct (list_find _ scans) as [[]|]. }
  destruct (decide (k = k0)) as [->|Hne].
  - rewrite lookup_insert_eq. apply eq_None_not_Some in Hnone. rewrite Hnone.
    rewrite decide_False by done. by rewrite decide_True.
  - rewrite lookup_insert_ne by done. destruct (loaded !! k); [done|].
    destruct (decide (k = "")); [done|].
    rewrite decide_False by congruence. by destruct (list_find _ scans) as [[]|].
Qed.

(** X8.  The stations by name: a name is mapped exactly when it is not empty
    and is the normalized label of a laser scan, and it is mapped to the first
    laser scan of the chunk with that normalized label. *)
Theorem loaded_by_name_first (w : World) :
  ∃ loaded_by_name,
    (for_each register_station ∅ (laser_scans w) w).1 = Done loaded_by_name ∧
    (∀ k i, loaded_by_name !! k = Some i →
       k ≠ "" ∧ i < length (point_clouds w) ∧
       pc_is_laser_scan (point_clouds w !!! i) = true ∧
       _norm_name (pc_label (point_clouds w !!! i)) = k ∧
       ∀ j, j < i → pc_is_laser_scan (point_clouds w !!! j) = true →
            _norm_name (pc_label (point_clouds w !!! j)) ≠ k) ∧
    (∀ i, i < length (point_clouds w) →
          pc_is_laser_scan (point_clouds w !!! i) = true →
          _norm_name (pc_label (point_clouds w !!! i)) ≠ "" →
          is_Some (loaded_by_name !! _norm_name (pc_label (point_clouds w !!! i)))).
Proof.
  destruct (register_stations_map (laser_scans w) ∅ w) as (loaded & Hrun & Hlook).
  exists loaded. split; [done|].
  assert (Hscan : ∀ i, i ∈ laser_scans w ↔
            pc_is_laser_scan (point_clouds w !!! i) = true ∧
            i < length (point_clouds w)).
  { intros i. unfold laser_scans. rewrite list_elem_of_filter, elem_of_seq.
    rewrite Is_true_true. split; intros [? ?]; split; (done || lia). }
  split.
  - intros k i Hk. rewrite Hlook, lookup_empty in Hk.
    destruct (decide (k = "")); [done|].
    destruct (list_find _ (laser_scans w)) as [[pos i']|] eqn:Hfind; [|done].
    injection Hk as ->. apply list_find_Some in Hfind as (Hpos & Hname & Hfirst).
    pose proof (proj1 (Hscan i) (list_elem_of_lookup_2 _ _ _ Hpos)) as [Hl Hlt].
    split; [done|]. split; [done|]. split; [done|]. split; [done|].
    intros j Hj Hjl Hjk.
    assert (j ∈ laser_scans w) as [pos' Hpos']%list_elem_of_lookup
      by (apply Hscan; split; [done|lia]).
    apply (Hfirst pos' j Hpos'); [|done].
    destruct (decide (pos' < pos)) as [|Hge]; [done|exfalso].
    destruct (decide (pos' = pos)) as [->|Hne]; [simplify_eq; lia|].
    pose proof (filter_seq_lookup_lt _ _ _ pos pos' i j Hpos Hpos') as Hlt'.
    lia.
  - intros i Hi Hl Hne. rewrite Hlook, lookup_empty, decide_False by done.
    destruct (list_find _ (laser_scans w)) as [[pos i']|] eqn:Hfind; [by eexists|].
    exfalso. apply list_find_None in Hfind. rewrite Forall_forall in Hfind.
    apply (Hfind i); [by apply Hscan|done].
Qed.

End stations.

Lemma loaded_by_name_first_witness :
  ∃ loaded_by_name,
    (for_each register_station ∅ (laser_scans world_duplicates)
              world_duplicates).1 = Done loaded_by_name ∧
    loaded_by_name !! "scan" = Some 1.
Proof.
  destruct (loaded_by_name_first world_duplicates)
    as (loaded & Hrun & Hfirst & Hall).
  exists loaded. split; [done|].
  destruct (Hall 1) as [i Hi]; [simpl; lia|done|by vm_compute|].
  change (_norm_name (pc_label (point_clouds world_duplicates !!! 1)))
    with "scan" in Hi.
  destruct (Hfirst "scan" i Hi) as (_ & Hlt & Hlaser & _ & Hmin).
  destruct i as [|[|[|i]]]; [done|done| |simpl in Hlt; lia].
  exfalso. by apply (Hmin 1); [lia|done|].
Defined.

(** ** The mask utilities *)

(** X9.  [_copy_mask] returns [None] for [None] only; the object it returns
    has the content of the argument; it is a new object when [copy()] or the
    constructor delivers, and the argument itself otherwise; the objects that
    were there are as before. *)
Theorem copy_mask_spec (ms : list Mask) (mask_obj : option nat) :
  let ms' := (_copy_mask ms mask_obj).1 in
  let r' := (_copy_mask ms mask_obj).2 in
  (r' = None ↔ mask_obj = None) ∧
  mask_content ms' r' = mask_content ms mask_obj ∧
  (∀ r, r < length ms → ms' !! r = ms !! r) ∧
  (∀ r m, mask_obj = Some r → ms !! r = Some m →
     if mask_copy_ok m || mask_ctor_ok m
     then r' = Some (length ms) ∧ ms' = ms ++ [m]
     else r' = Some r ∧ ms' = ms).
Proof.
  unfold _copy_mask, mask_content.
  destruct mask_obj as [r|]; simpl; [|done].
  destruct (ms !! r) as [m|] eqn:Hr; simpl.
  2:{ split; [done|]. split; [by rewrite Hr|]. split; [done|].
      intros r0 m0 [= <-] ?. congruence. }
  assert (r < length ms) as Hlt by (by eapply lookup_lt_Some).
  destruct (mask_copy_ok m) eqn:E1; [|destruct (mask_ctor_ok m) eqn:E2]; simpl.
  - split; [done|]. split.
    { by rewrite lookup_app_r, Nat.sub_diag by lia. }
    split; [intros r0 H0; by rewrite lookup_app_l|].
    intros r0 m0 [= <-] ?; simplify_eq. by rewrite E1.
  - split; [done|]. split.
    { by rewrite lookup_app_r, Nat.sub_diag by lia. }
    split; [intros r0 H0; by rewrite lookup_app_l|].
    intros r0 m0 [= <-] ?; simplify_eq. by rewrite E1, E2.
  - split; [done|]. split; [by rewrite Hr|]. split; [done|].
    intros r0 m0 [= <-] ?; simplify_eq. by rewrite E1, E2.
Qed.

Lemma same_camera_refl c : same_camera c c.
Proof. by repeat split. Qed.

Lemma same_camera_trans c1 c2 c3 :
  same_camera c1 c2 → same_camera c2 c3 → same_camera c1 c3.
Proof.
  unfold same_camera. intros (?&?&?&?&?&?&?) (?&?&?&?&?&?&?).
  repeat split; congruence.
Qed.

Lemma same_camera_set_cam_mask m c : same_camera c (set_cam_mask m c).
Proof. by repeat split. Qed.

(** X10.  The result of [_clear_camera_mask]: the camera it leaves behind is
    the same camera as far as label, key and links go; when the result is
    [True] the camera shows no mask, or a mask object whose content is empty;
    when it is [False] the camera is as it was, but its mask object may have
    been emptied by [clear()] all the same. *)
Theorem clear_camera_mask_spec (ms : list Mask) (cam : Camera) :
  let ms' := (_clear_camera_mask ms cam).1.1 in
  let cam' := (_clear_camera_mask ms cam).1.2 in
  let ok := (_clear_camera_mask ms cam).2 in
  same_camera cam cam' ∧
  length ms' = length ms ∧
  (ok = true →
     match mjoin (cam_mask cam') with
     | None => ms' = ms ∨ cam_mask_accepts_mask cam = false
     | Some r => ∃ mo, ms !! r = Some mo ∧ ms' = <[r := clear_mask mo]> ms ∧
                       mask_content ms' (Some r)
                       = Some (replicate (length (mask_data mo)) false)
     end) ∧
  (ok = false →
     cam' = cam ∧
     (is_Some (cam_mask cam) → cam_mask_accepts_none cam = false) ∧
     cam_resetMask cam ≠ Some true ∧
     (ms' = ms ∨
      ∃ r mo, cam_mask cam = Some (Some r) ∧ ms !! r = Some mo ∧
              mask_clear_ok mo = true ∧ cam_mask_accepts_mask cam = false ∧
              ms' = <[r := clear_mask mo]> ms)).
Proof.
  unfold _clear_camera_mask, mask_content.
  destruct (cam_mask cam) as [[r|]|] eqn:Hm; simpl;
    destruct (cam_mask_accepts_none cam) eqn:Hn; simpl;
    try destruct (ms !! r) as [mo|] eqn:Hr; simpl;
    try destruct (mask_clear_ok mo) eqn:Hc; simpl;
    try destruct (cam_mask_accepts_mask cam) eqn:Ha; simpl;
    destruct (cam_resetMask cam) as [[]|] eqn:Hreset; simpl;
    rewrite ?Hm, ?length_insert; simpl;
    (split; [by repeat split|]); (split; [done|]);
    (split; [intros Hok; try done; try (by left); try (by right)
            |intros Hok; try done]).
  all: try (exists mo; split; [done|]; split; [done|];
            rewrite list_lookup_insert_eq by (by eapply lookup_lt_Some); done).
  all: try (split; [done|]; split; [by intros _|]; split; [done|]; by left).
  all: try (split; [done|]; split; [by intros _|]; split; [done|];
            right; by exists r, mo).
  all: split; [done|]; split; [by intros [? ?]|]; split; [done|]; by left.
Qed.

(** ** The transfer keeps the cameras *)

Lemma clear_camera_mask_same ms cam :
  same_camera cam (_clear_camera_mask ms cam).1.2.
Proof.
  unfold _clear_camera_mask.
  destruct (cam_mask cam) as [[r|]|]; simpl;
    destruct (cam_mask_accepts_none cam); simpl;
    try destruct (ms !! r) as [mo|]; simpl;
    try destruct (mask_clear_ok mo); simpl;
    try destruct (cam_mask_accepts_mask cam); simpl;
    destruct (cam_resetMask cam) as [[]|]; simpl; by repeat split.
Qed.

Lemma Forall2_same_camera_insert cs cs' i c c' :
  Forall2 same_camera cs cs' → cs' !! i = Some c → same_camera c c' →
  Forall2 same_camera cs (<[i := c']> cs').
Proof.
  intros H Hi Hc. apply Forall2_same_length_lookup.
  pose proof (Forall2_length _ _ _ H) as Hlen.
  split; [by rewrite length_insert|].
  intros j x y Hx Hy. destruct (decide (j = i)) as [->|Hne].
  - rewrite list_lookup_insert_eq in Hy by (by eapply lookup_lt_Some).
    injection Hy as <-. eapply same_camera_trans; [|done].
    by eapply Forall2_lookup_lr.
  - rewrite list_lookup_insert_ne in Hy by done. by eapply Forall2_lookup_lr.
Qed.

Lemma clear_step_same cs acc i :
  Forall2 same_camera cs acc.1.1 →
  Forall2 same_camera cs (clear_step acc i).1.1.
Proof.
  intros H. unfold clear_step. destruct (acc.1.1 !! i) as [cam|] eqn:Hi; [|done].
  pose proof (clear_camera_mask_same acc.1.2 cam) as Hs.
  destruct (_clear_camera_mask acc.1.2 cam) as [[ms' cam'] ok]. simpl in *.
  by eapply Forall2_same_camera_insert.
Qed.

Lemma clear_loop_same cs l : ∀ acc,
  Forall2 same_camera cs acc.1.1 →
  Forall2 same_camera cs (foldl clear_step acc l).1.1.
Proof.
  induction l as [|i l IH]; intros acc H; simpl; [done|].
  by apply IH, clear_step_same.
Qed.

Lemma copy_step_same cs acc p :
  Forall2 same_camera cs acc.1.1 →
  Forall2 same_camera cs (copy_step acc p).1.1.
Proof.
  intros H. unfold copy_step. destruct (mask_of acc.1 p.1) as [r|]; [|done].
  destruct (_copy_mask acc.1.2 (Some r)) as [ms m].
  destruct (acc.1.1 !! p.2) as [cam|] eqn:Ht; [|done].
  destruct (cam_mask_accepts_mask cam); [|done]. simpl.
  eapply Forall2_same_camera_insert; [done..|apply same_camera_set_cam_mask].
Qed.

Lemma copy_loop_same cs pairs : ∀ acc,
  Forall2 same_camera cs acc.1.1 →
  Forall2 same_camera cs (foldl copy_step acc pairs).1.1.
Proof.
  induction pairs as [|p pairs IH]; intros acc H; simpl; [done|].
  by apply IH, copy_step_same.
Qed.

Lemma sort_by_key_ext {A K : Type} (leb : K → K → bool) (key key' : A → K) l :
  (∀ x, key x = key' x) → sort_by leb key l = sort_by leb key' l.
Proof.
  intros Hk. induction l as [|x l IH]; [done|]. simpl. rewrite IH.
  generalize (sort_by leb key' l). intros k.
  induction k as [|y k IHk]; [done|]. simpl. by rewrite IHk, !Hk.
Qed.

(** What [_attached_cameras] returns depends on the point clouds and on the
    cameras up to their masks. *)
Lemma attached_cameras_ext w w' pc :
  point_clouds w' = point_clouds w →
  Forall2 same_camera (cameras w) (cameras w') →
  _attached_cameras w' pc = _attached_cameras w pc.
Proof.
  intros Hpcs Hcams. unfold _attached_cameras.
  rewrite <-(Forall2_length _ _ _ Hcams).
  assert (∀ i, option_Forall2 same_camera (cameras w !! i) (cameras w' !! i))
    as Hlook by (by apply Forall2_lookup).
  rewrite (sort_by_key_ext _ (camera_key_at w') (camera_key_at w)).
  2:{ intros i. unfold camera_key_at, camera_sort_key.
      destruct (Hlook i) as [c c' (Hl & Hk & _)|]; simpl; [|done].
      by rewrite Hl, Hk. }
  f_equal. apply list_filter_iff. intros i.
  destruct (Hlook i) as [c c' (_ & _ & Hp & Hd & _)|]; simpl; [|done].
  unfold _camera_belongs_to_pointcloud. by rewrite Hp, Hd, Hpcs.
Qed.

(** X11.  The mask transfer changes masks and nothing else: every camera
    object keeps its label, its key and its links, no camera is added or
    removed, and [_attached_cameras] returns for every point cloud what it
    returned before, in the same order. *)
Theorem transfer_keeps_cameras (w : World) (src_pc new_pc : nat) :
  let w' := _transfer_masks_from_src_to_new w src_pc new_pc in
  Forall2 same_camera (cameras w) (cameras w') ∧
  ∀ pc, _attached_cameras w' pc = _attached_cameras w pc.
Proof.
  intros w'.
  destruct (transfer_store w src_pc new_pc) as [Hst Hpcs].
  assert (Forall2 same_camera (cameras w) (cameras w')) as Hcams.
  { change (cameras w') with (store w').1. unfold w'. rewrite Hst.
    apply copy_loop_same, clear_loop_same. simpl.
    apply Forall2_same_length_lookup. split; [done|].
    intros i x y Hx Hy. simplify_eq. apply same_camera_refl. }
  split; [done|]. intros pc. by apply attached_cameras_ext.
Qed.

(** ** The report of the mask transfer *)

Lemma clear_loop_count l : ∀ acc,
  acc.2 ≤ (foldl clear_step acc l).2 ≤ acc.2 + length l.
Proof.
  induction l as [|i l IH]; intros acc; simpl; [lia|].
  specialize (IH (clear_step acc i)).
  assert (acc.2 ≤ (clear_step acc i).2 ≤ S acc.2); [|lia].
  unfold clear_step. destruct (acc.1.1 !! i); [|simpl; lia].
  destruct (_clear_camera_mask acc.1.2 c) as [[ms' cam'] []]; simpl; lia.
Qed.

Lemma copy_loop_count pairs : ∀ acc,
  acc.2 ≤ (foldl copy_step acc pairs).2 ≤ acc.2 + length pairs.
Proof.
  induction pairs as [|p pairs IH]; intros acc; simpl; [lia|].
  specialize (IH (copy_step acc p)).
  assert (acc.2 ≤ (copy_step acc p).2 ≤ S acc.2); [|lia].
  unfold copy_step. destruct (mask_of acc.1 p.1); [|simpl; lia].
  destruct (_copy_mask acc.1.2 (Some n)) as [ms m].
  destruct (acc.1.1 !! p.2) as [cam|]; [|simpl; lia].
  destruct (cam_mask_accepts_mask cam); simpl; lia.
Qed.

Lemma pairing_length {A : Type} (s t : list A) :
  length (pairing s t) = length s `min` length t.
Proof. rewrite pairing_zip. apply length_zip. Qed.

Lemma pairing_fst {A : Type} (s t : list A) :
  (pairing s t).*1 = take (length t) s.
Proof.
  rewrite pairing_zip. revert t.
  induction s as [|x s IH]; intros [|y t]; simpl; try done.
  by rewrite IH.
Qed.

Lemma length_filter_fst {A B : Type} (P : A → Prop) `{!∀ x, Decision (P x)}
    (l : list (A * B)) :
  length (filter (λ p, P p.1) l) = length (filter P l.*1).
Proof.
  induction l as [|p l IH]; [done|]. rewrite fmap_cons, !filter_cons.
  destruct (decide (P p.1)); simpl; by rewrite IH.
Qed.

(** Where no source shows a mask the copying loop does nothing. *)
Lemma copy_loop_no_source pairs : ∀ acc,
  (∀ s, s ∈ pairs.*1 → mask_of acc.1 s = None) →
  foldl copy_step acc pairs = acc.
Proof.
  induction pairs as [|p pairs IH]; intros acc Hs; simpl; [done|].
  assert (copy_step acc p = acc) as ->.
  { unfold copy_step. rewrite Hs; [done|]. rewrite fmap_cons. by left. }
  apply IH. intros s Hin. apply Hs. rewrite fmap_cons. by right.
Qed.

(** With targets that take a mask object, and sources that are no targets,
    the copying loop counts the sources that show a mask. *)
Lemma copy_loop_counts (msk : nat → option nat) pairs : ∀ acc,
  (∀ t, t ∈ pairs.*2 →
     ∃ cam, acc.1.1 !! t = Some cam ∧ cam_mask_accepts_mask cam = true) →
  (∀ s, s ∈ pairs.*1 → s ∉ pairs.*2) →
  (∀ s, s ∈ pairs.*1 → mask_of acc.1 s = msk s) →
  (foldl copy_step acc pairs).2
  = acc.2 + length (filter (λ p, is_Some (msk p.1)) pairs).
Proof.
  induction pairs as [|[s t] pairs IH]; intros acc Htgt Hdisj Hmsk; simpl; [lia|].
  rewrite !fmap_cons in Htgt, Hdisj, Hmsk. simpl in *.
  rewrite filter_cons. simpl.
  assert (∀ s', s' ∈ pairs.*1 → s' ≠ t ∧ s' ∉ pairs.*2) as Hd'.
  { intros s' Hs'. apply not_elem_of_cons, Hdisj. by right. }
  pose proof (Hmsk s (list_elem_of_here _ _)) as Hs.
  destruct (copy_step_frame acc (s, t)) as (_ & Hcam & _ & Hflag). simpl in *.
  assert (Hrest : (foldl copy_step (copy_step acc (s, t)) pairs).2
          = (copy_step acc (s, t)).2
            + length (filter (λ p, is_Some (msk p.1)) pairs)).
  { apply IH.
    - intros t' Ht'. destruct (Htgt t') as (cam & Hc & Hacc); [by right|].
      destruct (decide (t' = t)) as [->|Hne].
      + destruct (lookup_lt_is_Some_2 (copy_step acc (s, t)).1.1 t) as [cam' Hc'].
        { destruct (copy_step_frame acc (s, t)) as (-> & _).
          by eapply lookup_lt_Some. }
        exists cam'. split; [done|].
        destruct (Hflag _ _ Hc') as (cam0 & Hc0 & ->). congruence.
      + exists cam. by rewrite Hcam.
    - intros s' Hs'. by apply Hd'.
    - intros s' Hs'. rewrite <-Hmsk by (by right). apply mask_of_lookup.
      apply Hcam. by apply Hd'. }
  rewrite Hrest. unfold copy_step. cbn [fst snd]. rewrite Hs.
  destruct (msk s) as [r|] eqn:Hr.
  - rewrite decide_True by done.
    destruct (_copy_mask acc.1.2 (Some r)) as [ms m].
    destruct (Htgt t) as (cam & -> & ->); [by left|]. simpl. lia.
  - rewrite decide_False by (by intros [? ?]). simpl. lia.
Qed.

(** What [_transfer_masks_from_src_to_new] prints. *)
Lemma transfer_console w src_pc new_pc :
  let src_cams := _attached_cameras w src_pc in
  let new_cams := _attached_cameras w new_pc in
  let n := length src_cams `min` length new_cams in
  let cleared := (clear_new_masks (store w) new_cams).2 in
  let copied :=
    (copy_masks (clear_new_masks (store w) new_cams).1
                (pairing src_cams new_cams)).2 in
  console (_transfer_masks_from_src_to_new w src_pc new_pc)
  = console w
    ++ EvCamerasAttached (length src_cams) (length new_cams)
    :: (if decide (new_cams = []) then []
        else [EvCleared cleared (length new_cams)])
    ++ (if decide (n = 0) then [EvCannotTransfer]
        else (if decide (length src_cams = length new_cams) then []
              else [EvCountMismatch (length src_cams) (length new_cams) n])
             ++ [EvCopied copied n]).
Proof.
  unfold _transfer_masks_from_src_to_new.
  set (src_cams := _attached_cameras w src_pc).
  set (new_cams := _attached_cameras w new_pc).
  change (store (print _ w)) with (store w).
  destruct (clear_new_masks (store w) new_cams) as [[cs ms] cleared]. simpl.
  destruct src_cams as [|s src_cams], new_cams as [|t new_cams]; simpl;
    try (by rewrite <-?(assoc_L (++))).
  set (pairs := pairing (s :: src_cams) (t :: new_cams)).
  change (store (print _ (set_store (cs, ms) _))) with (cs, ms).
  destruct (copy_masks (cs, ms) pairs) as [[cs2 ms2] copied].
  destruct (decide (S (length src_cams) = S (length new_cams))); simpl;
    by rewrite <-?(assoc_L (++)).
Qed.

(** X12.  The report: after the line with the two counts comes the line with
    the number of cleared cameras, unless there is no new camera; then the
    warning that nothing can be transferred when one of the lists is empty,
    and otherwise the warning about the mismatch, when the counts differ, and
    the line with the number of copied masks.  No count exceeds its total.
    When the new cameras take [None] and a mask object as mask, every one is
    counted as cleared; when moreover no source camera is a new camera, the
    copied masks are as many as the cameras with a mask among the first [n]
    source cameras. *)
Theorem transfer_report (w : World) (src_pc new_pc : nat) :
  let src_cams := _attached_cameras w src_pc in
  let new_cams := _attached_cameras w new_pc in
  let n := length src_cams `min` length new_cams in
  ∃ cleared copied,
    console (_transfer_masks_from_src_to_new w src_pc new_pc)
    = console w
      ++ EvCamerasAttached (length src_cams) (length new_cams)
      :: (if decide (new_cams = []) then []
          else [EvCleared cleared (length new_cams)])
      ++ (if decide (n = 0) then [EvCannotTransfer]
          else (if decide (length src_cams = length new_cams) then []
                else [EvCountMismatch (length src_cams) (length new_cams) n])
               ++ [EvCopied copied n]) ∧
    cleared ≤ length new_cams ∧ copied ≤ n ∧
    ((∀ t cam, t ∈ new_cams → cameras w !! t = Some cam → assignable cam) →
       cleared = length new_cams ∧
       ((∀ s, s ∈ src_cams → s ∉ new_cams) →
          copied = length (filter (λ s, is_Some (mask_of (store w) s))
                                  (take n src_cams)))).
Proof.
  intros src_cams new_cams n.
  set (st1 := (clear_new_masks (store w) new_cams).1).
  set (pairs := pairing src_cams new_cams).
  exists (clear_new_masks (store w) new_cams).2, (copy_masks st1 pairs).2.
  split; [apply transfer_console|].
  split.
  { pose proof (clear_loop_count new_cams (store w, 0)) as H. simpl in H.
    unfold clear_new_masks. lia. }
  split.
  { pose proof (copy_loop_count pairs (st1, 0)) as H. simpl in H.
    unfold copy_masks, n. rewrite <-(pairing_length src_cams new_cams).
    fold pairs. lia. }
  intros Hass.
  assert (Hnd : NoDup new_cams) by apply attached_cameras_NoDup.
  assert (Hok : ∀ t, t ∈ new_cams →
            ∃ cam, (store w).1 !! t = Some cam ∧ assignable cam).
  { intros t Ht. pose proof Ht as (cam & Hcam & _)%elem_of_attached_cameras.
    exists cam. split; [done|]. by apply (Hass t). }
  destruct (clear_new_masks_assignable (store w) new_cams Hnd Hok)
    as (_ & Hcount & _ & Hother & Hacc).
  fold st1 in Hother, Hacc.
  split; [done|]. intros Hdisj.
  assert (Htgt : ∀ t, t ∈ pairs.*2 → t ∈ new_cams).
  { intros t. apply pairing_snd_elem_of. }
  assert (Hsrc : ∀ s, s ∈ pairs.*1 → s ∈ src_cams).
  { intros s. unfold pairs. rewrite pairing_fst.
    intros (i & Hi & _)%elem_of_take. by eapply list_elem_of_lookup_2. }
  unfold copy_masks.
  rewrite (copy_loop_counts (mask_of (store w)) pairs (st1, 0)); simpl.
  - pose proof (length_filter_fst (λ s, is_Some (mask_of (store w) s)) pairs)
      as Hl.
    etrans; [exact Hl|]. unfold pairs. rewrite pairing_fst. f_equal. f_equal.
    unfold n. destruct (decide (length src_cams ≤ length new_cams)).
    + rewrite Nat.min_l by done. by rewrite !take_ge by lia.
    + by rewrite Nat.min_r by lia.
  - intros t Ht. by apply Hacc, Htgt.
  - intros s Hs Ht. by apply (Hdisj s (Hsrc s Hs)), Htgt.
  - intros s Hs. by apply Hother, Hdisj, Hsrc.
Qed.

Lemma transfer_report_witness :
  let w := world_masks (plain_mask [true; false]) in
  (∀ t cam, t ∈ _attached_cameras w 1 → cameras w !! t = Some cam →
            assignable cam) ∧
  (∀ s, s ∈ _attached_cameras w 0 → s ∉ _attached_cameras w 1) ∧
  console (_transfer_masks_from_src_to_new w 0 1)
  = [EvCamerasAttached 2 2; EvCleared 2 2; EvCopied 1 2].
Proof.
  intros w.
  destruct (world_masks_attached (plain_mask [true; false])) as [Hsrc Hnew].
  fold w in Hsrc, Hnew.
  assert (Hass : ∀ t cam, t ∈ _attached_cameras w 1 →
            cameras w !! t = Some cam → assignable cam).
  { rewrite Hnew.
    intros t cam [->|[->|?%elem_of_nil]%elem_of_cons]%elem_of_cons Hc;
      [| |done]; injection Hc as <-; (split; [by eexists|by split]). }
  assert (Hd : ∀ s, s ∈ _attached_cameras w 0 → s ∉ _attached_cameras w 1).
  { rewrite Hsrc, Hnew.
    intros s [->|[->|?%elem_of_nil]%elem_of_cons]%elem_of_cons; [| |done];
      intros [?|[?|?%elem_of_nil]%elem_of_cons]%elem_of_cons; lia. }
  split; [done|]. split; [done|].
  destruct (transfer_report w 0 1) as (cleared & copied & -> & _ & _ & Hn).
  destruct (Hn Hass) as [-> Hc]. rewrite (Hc Hd), Hsrc, Hnew. reflexivity.
Defined.

(** ** A point cloud as its own source *)

(** X13.  With one point cloud as source and as target, and cameras whose mask
    can be assigned, the transfer removes the masks of all cameras of the
    point cloud and copies none: the masks are cleared before they are read. *)
Theorem transfer_onto_itself (w : World) (pc : nat) :
  let cams := _attached_cameras w pc in
  let w' := _transfer_masks_from_src_to_new w pc pc in
  (∀ t cam, t ∈ cams → cameras w !! t = Some cam → assignable cam) →
  (∀ t, t ∈ cams → mask_of (store w') t = None) ∧
  (∀ j, j ∉ cams → cameras w' !! j = cameras w !! j) ∧
  masks w' = masks w ∧
  console w'
  = console w
    ++ EvCamerasAttached (length cams) (length cams)
    :: (if decide (cams = []) then [EvCannotTransfer]
        else [EvCleared (length cams) (length cams);
              EvCopied 0 (length cams)]).
Proof.
  intros cams w' Hass.
  assert (Hnd : NoDup cams) by apply attached_cameras_NoDup.
  assert (Hok : ∀ t, t ∈ cams →
            ∃ cam, (store w).1 !! t = Some cam ∧ assignable cam).
  { intros t Ht. pose proof Ht as (cam & Hcam & _)%elem_of_attached_cameras.
    exists cam. split; [done|]. by apply (Hass t). }
  destruct (clear_new_masks_assignable (store w) cams Hnd Hok)
    as (Hms & Hcount & Hnone & _ & _).
  destruct (transfer_store w pc pc) as [Hst _]. fold cams w' in Hst.
  pose proof (transfer_console w pc pc) as Hcon. simpl in Hcon.
  fold cams w' in Hcon.
  assert (Hcopy : copy_masks (clear_new_masks (store w) cams).1 (pairing cams cams)
                  = ((clear_new_masks (store w) cams).1, 0)).
  { apply copy_loop_no_source. simpl. intros s Hs. apply Hnone.
    rewrite pairing_fst in Hs. apply elem_of_take in Hs as (i & Hi & _).
    by eapply list_elem_of_lookup_2. }
  rewrite Hcopy in Hst, Hcon. simpl in Hst, Hcon.
  split; [intros t Ht; rewrite Hst; by apply Hnone|].
  split.
  { intros j Hj. change (cameras w') with (store w').1. rewrite Hst.
    by apply (clear_loop_frame cams (store w, 0)). }
  split; [change (masks w') with (store w').2; by rewrite Hst|].
  rewrite Hcon, Hcount, Nat.min_id.
  destruct cams as [|c cams']; [done|].
  rewrite decide_False by done. rewrite decide_False by (simpl; lia).
  by rewrite decide_True by done.
Qed.

Lemma transfer_onto_itself_witness :
  (∀ t cam, t ∈ _attached_cameras world_self 0 →
            cameras world_self !! t = Some cam → assignable cam) ∧
  mask_of (store world_self) 0 = Some 0 ∧
  mask_of (store (_transfer_masks_from_src_to_new world_self 0 0)) 0 = None ∧
  console (_transfer_masks_from_src_to_new world_self 0 0)
  = [EvCamerasAttached 2 2; EvCleared 2 2; EvCopied 0 2].
Proof.
  assert (Hcams : _attached_cameras world_self 0 = [0; 1]) by (by vm_compute).
  assert (Hass : ∀ t cam, t ∈ _attached_cameras world_self 0 →
            cameras world_self !! t = Some cam → assignable cam).
  { rewrite Hcams.
    intros t cam [->|[->|?%elem_of_nil]%elem_of_cons]%elem_of_cons Hc;
      [| |done]; injection Hc as <-; (split; [by eexists|by split]). }
  destruct (transfer_onto_itself world_self 0 Hass) as (Hnone & _ & _ & Hcon).
  split; [done|]. split; [done|].
  split; [apply Hnone; rewrite Hcams; by left|].
  rewrite Hcon, Hcams. reflexivity.
Defined.

(** ** The labels of the imported scans *)

Lemma no_space_string_of_uint d :
  forallb (λ c, negb (is_space c))
          (list_ascii_of_string (NilEmpty.string_of_uint d)) = true.
Proof. induction d; simpl; done. Qed.

Lemma no_space_append s t :
  forallb (λ c, negb (is_space c)) (list_ascii_of_string (s +:+ t))
  = forallb (λ c, negb (is_space c)) (list_ascii_of_string s)
    && forallb (λ c, negb (is_space c)) (list_ascii_of_string t).
Proof. by rewrite list_ascii_of_string_append, forallb_app. Qed.

Lemma no_space_last t :
  t ≠ "" →
  forallb (λ c, negb (is_space c)) (list_ascii_of_string t) = true →
  ∃ t' c, t = t' +:+ String c "" ∧ is_space c = false.
Proof.
  induction t as [|c t IH]; [done|]. intros _ H. simpl in H.
  apply andb_true_iff in H as [Hc Ht]. apply negb_true_iff in Hc.
  destruct t as [|c' t].
  - by exists "", c.
  - destruct IH as (t' & c0 & -> & Hc0); [done..|].
    exists (String c t'), c0. by rewrite append_cons.
Qed.

(** A name without white space at its left end, followed by a tail without
    white space, is what [ascii_strip] returns for it. *)
Lemma ascii_strip_fixed base t :
  ascii_lstrip base = base → t ≠ "" →
  forallb (λ c, negb (is_space c)) (list_ascii_of_string t) = true →
  ascii_strip (base +:+ t) = base +:+ t.
Proof.
  intros Hbase Hne Ht.
  assert (ascii_lstrip (base +:+ t) = base +:+ t) as Hl.
  { destruct base as [|c base].
    - destruct t as [|c t]; [done|]. simpl in Ht |- *.
      apply andb_true_iff in Ht as [Hc _]. apply negb_true_iff in Hc.
      by rewrite Hc.
    - rewrite ascii_lstrip_keep; [by rewrite Hbase|]. by rewrite Hbase. }
  destruct (no_space_last t Hne Ht) as (t' & c & -> & Hc).
  unfold ascii_strip. rewrite Hl.
  rewrite <-string_append_assoc, string_rev_append.
  change (String.rev (String c "")) with (String c "").
  rewrite append_cons. cbn [ascii_lstrip]. rewrite Hc.
  change (String c ("" +:+ String.rev (base +:+ t')))
    with (String.rev (String c "") +:+ String.rev (base +:+ t')).
  by rewrite <-string_rev_append, string_rev_involutive.
Qed.

Lemma fmt_02d_nonempty i : fmt_02d i ≠ "".
Proof.
  intros Hi. pose proof (fmt_02d_read i) as Hr. rewrite Hi in Hr.
  injection Hr as <-. discriminate Hi.
Qed.

Lemma ascii_strip_fmt_02d i : ascii_strip (fmt_02d i) = fmt_02d i.
Proof.
  apply (ascii_strip_fixed "" (fmt_02d i)); [done|apply fmt_02d_nonempty|].
  apply no_space_string_of_uint.
Qed.

Section new_labels.
Context {py : Builtins} {py_laws : BuiltinLaws}.

Lemma strip_fmt_02d i : strip (fmt_02d i) = fmt_02d i.
Proof.
  rewrite strip_ascii_only by apply is_ascii_fmt_02d.
  apply ascii_strip_fmt_02d.
Qed.

(** The label that [_make_unique_label] returns for a label without white
    space at its ends has none either. *)
Lemma new_label_stripped desired (S : gset string) :
  strip desired = desired →
  strip (_make_unique_label desired S) = _make_unique_label desired S.
Proof.
  intros Hd. destruct (decide (lower desired ∈ S)) as [Hin|Hout].
  - destruct (make_unique_label_taken desired S Hin) as (i & _ & -> & _).
    unfold candidate. apply strip_underscore; [done|apply strip_fmt_02d].
  - by rewrite (make_unique_label_free desired S Hout).
Qed.

Lemma label_new_pc_known base src existing idx new_pc w :
  new_pc < length (point_clouds w) →
  let new_label :=
    _make_unique_label
      (if decide (idx = 1) then base +:+ "_new"
       else base +:+ "_new_" +:+ fmt_02d idx) existing in
  let out := label_new_pc base src existing (idx, new_pc) w in
  out.1 = Done (existing ∪ {[ _norm_name new_label ]}) ∧
  pc_label (point_clouds out.2 !!! new_pc) = new_label.
Proof.
  intros Hlt new_label out.
  destruct (label_new_pc_effect base src existing idx new_pc w)
    as (existing' & pcs & Hrun & _ & _ & _ & Hlabel).
  specialize (Hlabel Hlt). fold new_label in Hlabel.
  split; [|unfold out; by rewrite Hrun].
  unfold out. clear out Hrun Hlabel.
  destruct w as [pcs0 cams ms con]. simpl in Hlt.
  destruct (lookup_lt_is_Some_2 pcs0 new_pc Hlt) as [pc Hpc].
  unfold label_new_pc, mbind, M_bind, update_pc, modify, get.
  cbn [fst snd point_clouds set_point_clouds]. fold new_label.
  set (pcs1 := alter (set_pc_label new_label) new_pc pcs0).
  assert (pc_label (pcs1 !!! new_pc) = new_label) as ->.
  { unfold pcs1. erewrite list_lookup_total_correct;
      [|by rewrite list_lookup_alter_eq, Hpc]. done. }
  destruct (pc_group (pcs1 !!! src)) as [g|];
    [destruct (pc_group_writable (pcs1 !!! new_pc))|]; done.
Qed.

(** X14.  The label of an imported scan.  The set of known names is the set
    of the normalized names before, with the normalized new label.  The new
    label in lower case is none of the known names.  When the desired label
    has no white space at its ends, the normalized new label is none of the
    known names either: the label is new up to case and white space.  When
    it has (the name of the file starts with white space), no test for a
    known name is ever positive, and the label is the desired one whatever
    labels are there. *)
Theorem new_label_fresh (base : string) (src : nat) (existing : gset string)
    (idx new_pc : nat) (w : World) :
  let desired := if decide (idx = 1) then base +:+ "_new"
                 else base +:+ "_new_" +:+ fmt_02d idx in
  let out := label_new_pc base src existing (idx, new_pc) w in
  let new_label := pc_label (point_clouds out.2 !!! new_pc) in
  new_pc < length (point_clouds w) →
  (∀ s, s ∈ existing → _norm_name s = s) →
  out.1 = Done (existing ∪ {[ _norm_name new_label ]}) ∧
  (∀ s, s ∈ existing ∪ {[ _norm_name new_label ]} → _norm_name s = s) ∧
  (lower new_label ∉ existing) ∧
  (strip desired = desired → _norm_name new_label ∉ existing) ∧
  (strip desired ≠ desired → new_label = desired).
Proof.
  intros desired out new_label Hlt Hnorm.
  destruct (label_new_pc_known base src existing idx new_pc w Hlt)
    as [Hrun Hlabel].
  fold desired out in Hrun, Hlabel. fold new_label in Hlabel.
  rewrite Hlabel in *.
  assert (lower (_make_unique_label desired existing) ∉ existing) as Hfree.
  { destruct (decide (lower desired ∈ existing)) as [Hin|Hout].
    - by destruct (make_unique_label_taken desired existing Hin)
        as (i & _ & -> & ? & _).
    - by rewrite (make_unique_label_free desired existing Hout). }
  split; [done|]. split.
  { intros s [Hs| ->%elem_of_singleton]%elem_of_union; [by apply Hnorm|].
    apply norm_name_idemp. }
  split; [done|]. split.
  - intros Hd. unfold _norm_name.
    by rewrite (new_label_stripped desired existing Hd).
  - intros Hd. apply make_unique_label_free. intros Hin.
    apply Hd, strip_lower. pose proof (Hnorm _ Hin) as Hn.
    unfold _norm_name in Hn. by rewrite lower_strip, lower_idemp in Hn.
Qed.

End new_labels.

Lemma new_label_fresh_witness :
  let known := known_labels_lower (pc_label <$> point_clouds world_labels) in
  let label_1 :=
    pc_label (point_clouds
                (label_new_pc "A" 0 known (1, 2) world_labels).2 !!! 2) in
  let label_2 :=
    pc_label (point_clouds
                (label_new_pc " A" 0 known (1, 2) world_labels).2 !!! 2) in
  (2 < length (point_clouds world_labels)) ∧
  (∀ s, s ∈ known → _norm_name s = s) ∧
  "a_new" ∈ known ∧
  label_1 = "A_new_02" ∧ (_norm_name label_1 ∉ known) ∧
  label_2 = " A_new" ∧ _norm_name label_2 ∈ known.
Proof.
  intros known label_1 label_2.
  assert (Hlt : 2 < length (point_clouds world_labels)) by (simpl; lia).
  assert (Hnorm : ∀ s, s ∈ known → _norm_name s = s).
  { intros s (l & -> & _)%elem_of_list_to_set%list_elem_of_fmap.
    apply norm_name_idemp. }
  assert (Hin : "a_new" ∈ known).
  { apply elem_of_list_to_set.
    assert (_norm_name <$> filter (λ l, l ≠ "")
                             (pc_label <$> point_clouds world_labels)
            = ["a"; "b"; "a_new"]) as -> by (by vm_compute).
    apply elem_of_cons. right. apply elem_of_cons. right.
    apply elem_of_cons. by left. }
  destruct (new_label_fresh "A" 0 known 1 2 world_labels Hlt Hnorm)
    as (_ & _ & _ & Hnew & _).
  destruct (new_label_fresh " A" 0 known 1 2 world_labels Hlt Hnorm)
    as (_ & _ & _ & _ & Hsame).
  fold label_1 in Hnew. fold label_2 in Hsame.
  assert (label_2 = " A_new") as H2.
  { apply Hsame. intros Hx. vm_compute in Hx. discriminate Hx. }
  split; [done|]. split; [done|]. split; [done|].
  split; [by vm_compute|]. split; [by apply Hnew|]. split; [done|].
  by rewrite H2.
Defined.

(** ** The point clouds of the chunk *)

(** What holds before a loop and is kept by every round holds after the loop,
    also when a round raises. *)
Lemma for_each_inv {A S : Type} (P : World → Prop) (body : S → A → M S) l :
  (∀ acc x w, x ∈ l → P w → P (body acc x w).2) →
  ∀ acc w, P w → P (for_each body acc l w).2.
Proof.
  induction l as [|x l IH]; intros Hbody acc w Hw; [done|].
  simpl. unfold mbind, M_bind.
  pose proof (Hbody acc x w (list_elem_of_here _ _) Hw) as Hx.
  destruct (body acc x w) as [[acc'|e] w1]; [|done].
  apply IH; [|done]. intros acc0 y w0 Hy. apply Hbody. by right.
Qed.

Lemma take_point_clouds_frame n i (pcs pcs' : list PointCloud) :
  n ≤ i → length pcs' = length pcs →
  (∀ j, j ≠ i → pcs' !! j = pcs !! j) →
  take n pcs' = take n pcs.
Proof.
  intros Hn Hlen Hj. apply list_eq. intros j.
  destruct (decide (j < n)).
  - rewrite !lookup_take_lt by done. apply Hj. lia.
  - by rewrite !lookup_take_ge by lia.
Qed.

Section point_clouds_kept.
Context {py : Builtins}.

(** The second part of the body of the loop over the new point clouds
    writes the new point cloud and no other. *)
Lemma align_new_pc_frame src T_src_eff new_pc w :
  let w' := (align_new_pc src T_src_eff new_pc w).2 in
  length (point_clouds w') = length (point_clouds w) ∧
  ∀ j, j ≠ new_pc → point_clouds w' !! j = point_clouds w !! j.
Proof.
  unfold align_new_pc, mbind, M_bind, get, update_pc, modify, raise.
  cbn [fst snd].
  destruct (_copy_matrix (_effective_T (point_clouds w !!! new_pc))) as [T0|];
    [|done].
  destruct (compute_delta T_src_eff T0) as [delta|]; [|done].
  cbn [fst snd point_clouds set_point_clouds].
  set (pcs1 := alter _ new_pc (point_clouds w)).
  destruct (pc_enabled_writable (pcs1 !!! new_pc));
    cbn [fst snd point_clouds set_point_clouds mret M_ret];
    rewrite (proj2 (transfer_store _ _ _));
    cbn [point_clouds set_point_clouds]; unfold pcs1;
    rewrite ?length_alter; (split; [done|]);
    intros j Hj; by rewrite ?list_lookup_alter_ne.
Qed.

Lemma process_new_pc_frame base src T_src_eff existing idx new_pc w :
  let w' := (process_new_pc base src T_src_eff existing (idx, new_pc) w).2 in
  length (point_clouds w') = length (point_clouds w) ∧
  ∀ j, j ≠ new_pc → point_clouds w' !! j = point_clouds w !! j.
Proof.
  unfold process_new_pc, mbind, M_bind.
  destruct (label_new_pc_effect base src existing idx new_pc w)
    as (existing' & pcs & -> & _ & Hkeys & Hframe & _).
  apply (f_equal length) in Hkeys. rewrite !length_fmap in Hkeys.
  cbn [snd].
  destruct (align_new_pc_frame src T_src_eff new_pc
              (mkWorld pcs (cameras w) (masks w) (console w))) as [Hlen Hj].
  destruct (align_new_pc src T_src_eff new_pc _) as [[[]|e] w2];
    unfold mret, M_ret; cbn [fst snd point_clouds] in *.
  - split; [congruence|]. intros j Hne. by rewrite Hj, Hframe.
  - split; [congruence|]. intros j Hne. by rewrite Hj, Hframe.
Qed.

End point_clouds_kept.

(** The point clouds that the import has added are behind the point clouds
    that were there. *)
Lemma new_pcs_behind (before added : list PointCloud) i :
  i ∈ filter (λ i, pc_key ((before ++ added) !!! i)
                   ∉ (list_to_set (pc_key <$> before) : gset Z))
             (seq 0 (length (before ++ added))) →
  length before ≤ i.
Proof.
  intros [Hkey _]%list_elem_of_filter.
  destruct (decide (i < length before)) as [Hlt|]; [exfalso|lia].
  apply Hkey, elem_of_list_to_set, list_elem_of_fmap.
  destruct (lookup_lt_is_Some_2 before i Hlt) as [pc Hpc].
  exists pc. split; [|by eapply list_elem_of_lookup_2].
  f_equal. apply list_lookup_total_correct. by apply lookup_app_l_Some.
Qed.

Section run_keeps.
Context {py : Builtins}.

Lemma process_file_keeps h folder loaded fmt existing fname pcs0 w :
  take (length pcs0) (point_clouds w) = pcs0 →
  take (length pcs0)
       (point_clouds (process_file h folder loaded fmt existing fname w).2)
  = pcs0.
Proof.
  intros Hw.
  assert (length pcs0 ≤ length (point_clouds w)) as Hlen.
  { apply (f_equal length) in Hw. rewrite length_take in Hw. lia. }
  unfold process_file.
  destruct (loaded !! _norm_name (splitext_root fname)) as [src|]; [|done].
  unfold mbind at 1, M_bind at 1, get at 1. cbn [fst snd].
  destruct (pc_transform (point_clouds w !!! src)); [|done].
  unfold mbind at 1, M_bind at 1, modify at 1. cbn [fst snd].
  change (point_clouds (print ?e w)) with (point_clouds w).
  destruct (_copy_matrix (_effective_T (point_clouds w !!! src))) as [T|];
    [|done].
  destruct (importPointCloud h (path_join folder fname) fmt) as [[pcs cams] ms].
  unfold mbind at 1, M_bind at 1, modify at 1. cbn [fst snd].
  unfold mbind at 1, M_bind at 1, get at 1. cbn [fst snd point_clouds print].
  set (w1 := mkWorld (point_clouds w ++ pcs) _ _ _).
  assert (take (length pcs0) (point_clouds w1) = pcs0) as Hw1.
  { cbn [point_clouds w1]. by rewrite take_app_le. }
  set (new_pcs := filter _ (seq 0 (length (point_clouds w ++ pcs)))).
  assert (∀ i, i ∈ new_pcs → length pcs0 ≤ i) as Hnew.
  { intros i Hi. apply new_pcs_behind in Hi. lia. }
  destruct new_pcs as [|i0 new_pcs'] eqn:Enew; [done|].
  rewrite <-Enew in *. clear Enew.
  apply (for_each_inv (λ w, take (length pcs0) (point_clouds w) = pcs0));
    [|done].
  intros acc [idx new_pc] w0 Hin Hw0.
  destruct (process_new_pc_frame (splitext_root fname) src T acc idx new_pc w0)
    as [Hl Hj].
  etrans; [|exact Hw0]. apply (take_point_clouds_frame _ new_pc); [|done..].
  apply Hnew. by apply elem_of_zip_r in Hin.
Qed.

(** X15.  The run changes no point cloud that was in the chunk: whatever it
    does, and also when it raises, the point clouds of the chunk are the ones
    that were there, unchanged and in their places, followed by the ones that
    the imports have added. *)
Theorem existing_point_clouds_kept (h : Host) (w : World) :
  ∃ added,
    point_clouds (importar_e57_y_aplicar_delta_y_mascaras h w).2
    = point_clouds w ++ added.
Proof.
  set (w' := (importar_e57_y_aplicar_delta_y_mascaras h w).2).
  exists (drop (length (point_clouds w)) (point_clouds w')).
  rewrite <-(take_drop (length (point_clouds w)) (point_clouds w')) at 1.
  f_equal. unfold w', importar_e57_y_aplicar_delta_y_mascaras.
  assert (Hw : take (length (point_clouds w)) (point_clouds w) = point_clouds w)
    by apply firstn_all.
  destruct (active_chunk h); [|done]. cbn [negb].
  unfold mbind at 1, M_bind at 1, modify at 1. cbn [fst snd].
  destruct (decide (selected_folder h = "")); [done|].
  destruct (e57_files h) as [|f0 files] eqn:Efiles; [done|].
  rewrite <-Efiles. clear Efiles.
  unfold mbind at 1, M_bind at 1, get at 1. cbn [fst snd].
  change (point_clouds (print EvMessageBox w)) with (point_clouds w).
  change (laser_scans (print EvMessageBox w)) with (laser_scans w).
  destruct (laser_scans w) as [|s0 scans] eqn:Escans; [done|].
  rewrite <-Escans. clear Escans.
  unfold mbind at 1, M_bind at 1.
  assert (Hreg : take (length (point_clouds w))
            (point_clouds (for_each register_station ∅ (laser_scans w)
                             (print EvMessageBox w)).2) = point_clouds w).
  { apply (for_each_inv
      (λ w0, take (length (point_clouds w)) (point_clouds w0) = point_clouds w));
      [|done].
    intros acc x w0 _ H0. by rewrite (proj2 (register_station_map acc x w0)). }
  destruct (for_each register_station ∅ (laser_scans w) (print EvMessageBox w))
    as [[loaded|e] w1]; [|done]. cbn [snd] in Hreg.
  unfold _get_e57_format.
  destruct (PointCloudFormatE57 h) as [fmt|];
    [|destruct (PointCloudFormat_PointCloudFormatE57 h) as [fmt|]];
    unfold mbind at 1, M_bind at 1, mret at 1, M_ret at 1, raise;
    cbn [fst snd]; try done.
  all: unfold mbind at 1, M_bind at 1, modify at 1; cbn [fst snd].
  all: unfold mbind at 1, M_bind at 1.
  all: match goal with
       | |- context [for_each ?body ?acc ?l ?w2] =>
           assert (take (length (point_clouds w))
                        (point_clouds (for_each body acc l w2).2)
                   = point_clouds w) as Hrun;
           [apply (for_each_inv
              (λ w3, take (length (point_clouds w)) (point_clouds w3)
                     = point_clouds w)); [|done];
            intros ? ? ? _ H0; by apply process_file_keeps
           |destruct (for_each body acc l w2) as [[?|?] ?]; done]
       end.
Qed.

End run_keeps.

(** ** Files without a station *)

Section unmatched.
Context {py : Builtins}.

(** X16.  When no file of the folder has the name of a laser scan of the
    chunk, up to case and white space, nothing is imported: the run leaves the
    point clouds, the cameras and the masks as they are. *)
Theorem unmatched_files_change_nothing (h : Host) (w : World) :
  (∀ f i, f ∈ e57_files h → i < length (point_clouds w) →
          pc_is_laser_scan (point_clouds w !!! i) = true →
          _norm_name (pc_label (point_clouds w !!! i))
          ≠ _norm_name (splitext_root f)) →
  let w' := (importar_e57_y_aplicar_delta_y_mascaras h w).2 in
  point_clouds w' = point_clouds w ∧ cameras w' = cameras w ∧
  masks w' = masks w.
Proof.
  intros Hno w'.
  pose (P := λ w0 : World, point_clouds w0 = point_clouds w ∧
                           cameras w0 = cameras w ∧ masks w0 = masks w).
  change (P w'). unfold w', importar_e57_y_aplicar_delta_y_mascaras.
  destruct (active_chunk h); [|by unfold P]. cbn [negb].
  unfold mbind at 1, M_bind at 1, modify at 1. cbn [fst snd].
  destruct (decide (selected_folder h = "")); [by unfold P|].
  destruct (e57_files h) as [|f0 files] eqn:Efiles; [by unfold P|].
  rewrite <-Efiles in *. clear Efiles.
  unfold mbind at 1, M_bind at 1, get at 1. cbn [fst snd].
  change (point_clouds (print EvMessageBox w)) with (point_clouds w).
  change (laser_scans (print EvMessageBox w)) with (laser_scans w).
  destruct (laser_scans w) as [|s0 scans] eqn:Escans; [by unfold P|].
  rewrite <-Escans. clear Escans.
  unfold mbind at 1, M_bind at 1.
  destruct (register_stations_map (laser_scans w) ∅ (print EvMessageBox w))
    as (loaded & Hrun & Hlook).
  destruct (register_stations_effect (laser_scans w) ∅ (print EvMessageBox w))
    as (loaded' & labels & Heff).
  rewrite Heff in Hrun |- *. injection Hrun as ->.
  assert (Hnone : ∀ f, f ∈ e57_files h →
            loaded !! _norm_name (splitext_root f) = None).
  { intros f Hf. rewrite Hlook, lookup_empty.
    destruct (decide (_norm_name (splitext_root f) = "")); [done|].
    destruct (list_find _ (laser_scans w)) as [[pos i]|] eqn:Hfind; [|done].
    exfalso. apply list_find_Some in Hfind as (Hpos & Hname & _).
    apply list_elem_of_lookup_2, list_elem_of_filter in Hpos as [Hl Hi].
    apply elem_of_seq in Hi. apply Is_true_true in Hl.
    apply (Hno f i Hf); [lia|done|done]. }
  unfold _get_e57_format.
  destruct (PointCloudFormatE57 h) as [fmt|];
    [|destruct (PointCloudFormat_PointCloudFormatE57 h) as [fmt|]];
    unfold mbind at 1, M_bind at 1, mret at 1, M_ret at 1, raise;
    cbn [fst snd]; try (by unfold P).
  all: unfold mbind at 1, M_bind at 1, modify at 1; cbn [fst snd].
  all: unfold mbind at 1, M_bind at 1.
  all: match goal with
       | |- context [for_each ?body ?acc ?l ?w2] =>
           assert (P (for_each body acc l w2).2) as Hkeep;
           [apply (for_each_inv P); [|by unfold P];
            intros ? f ? Hf H0; unfold process_file; by rewrite (Hnone f Hf)
           |destruct (for_each body acc l w2) as [[?|?] ?]; done]
       end.
Qed.

End unmatched.

Lemma unmatched_files_change_nothing_witness :
  let w' :=
    (importar_e57_y_aplicar_delta_y_mascaras host_unmatched world_two).2 in
  e57_files host_unmatched = ["C.e57"] ∧
  (_norm_name <$> (pc_label <$> point_clouds world_two)) = ["a"; "b"] ∧
  _norm_name (splitext_root "C.e57") = "c" ∧
  point_clouds w' = point_clouds world_two ∧
  cameras w' = cameras world_two ∧ masks w' = masks world_two.
Proof.
  intros w'. split; [done|]. split; [done|]. split; [done|].
  apply (unmatched_files_change_nothing host_unmatched world_two).
  intros f i Hf Hi _.
  change (e57_files host_unmatched) with ["C.e57"] in Hf.
  apply elem_of_cons in Hf as [->|Hf%elem_of_nil]; [|done].
  simpl in Hi. destruct i as [|[|i]]; [by vm_compute..|lia].
Defined.

(** ** The calls of the import *)

Lemma imported_paths_app a b :
  imported_paths (a ++ b) = imported_paths a ++ imported_paths b.
Proof. apply omap_app. Qed.

Lemma transfer_imports w src_pc new_pc :
  imported_paths (console (_transfer_masks_from_src_to_new w src_pc new_pc))
  = imported_paths (console w).
Proof.
  pose proof (transfer_console w src_pc new_pc) as H. cbv zeta in H.
  rewrite H, imported_paths_app.
  rewrite <-(app_nil_r (imported_paths (console w))) at 2. f_equal.
  repeat (destruct (decide _)); reflexivity.
Qed.

Lemma align_new_pc_imports src T_src_eff new_pc w :
  imported_paths (console (align_new_pc src T_src_eff new_pc w).2)
  = imported_paths (console w).
Proof.
  unfold align_new_pc, mbind, M_bind, get, update_pc, modify, raise.
  cbn [fst snd].
  destruct (_copy_matrix (_effective_T (point_clouds w !!! new_pc))) as [T0|].
  2:{ cbn [snd console print]. rewrite imported_paths_app. apply app_nil_r. }
  destruct (compute_delta T_src_eff T0) as [delta|]; [|done].
  cbn [fst snd point_clouds set_point_clouds].
  set (pcs1 := alter _ new_pc (point_clouds w)).
  destruct (pc_enabled_writable (pcs1 !!! new_pc));
    cbn [fst snd point_clouds set_point_clouds mret M_ret];
    by rewrite transfer_imports.
Qed.

Section imports.
Context {py : Builtins}.

Lemma process_new_pc_imports base src T_src_eff existing item w :
  imported_paths
    (console (process_new_pc base src T_src_eff existing item w).2)
  = imported_paths (console w).
Proof.
  destruct item as [idx new_pc]. unfold process_new_pc, mbind, M_bind.
  destruct (label_new_pc_effect base src existing idx new_pc w)
    as (existing' & pcs & -> & _).
  pose proof (align_new_pc_imports src T_src_eff new_pc
                (mkWorld pcs (cameras w) (masks w) (console w))) as H.
  cbn [snd] in *.
  by destruct (align_new_pc src T_src_eff new_pc _) as [[[]|e] w2].
Qed.

(** A round of the loop over the files calls the import at most once, with
    the path of the file, and only for a file whose name is mapped to a
    station. *)
Lemma process_file_imports h folder loaded fmt existing fname w :
  ∃ l, (l = [] ∨ l = [fname] ∧
                 is_Some (loaded !! _norm_name (splitext_root fname))) ∧
    imported_paths (console (process_file h folder loaded fmt existing fname w).2)
    = imported_paths (console w) ++ (path_join folder <$> l).
Proof.
  unfold process_file.
  destruct (loaded !! _norm_name (splitext_root fname)) as [src|] eqn:Hsrc.
  2:{ exists []. split; [by left|]. by rewrite app_nil_r. }
  unfold mbind at 1, M_bind at 1, get at 1. cbn [fst snd].
  destruct (pc_transform (point_clouds w !!! src)).
  2:{ exists []. split; [by left|].
      unfold mbind, M_bind, modify, mret, M_ret; cbn [fst snd console print].
      rewrite imported_paths_app. by rewrite !app_nil_r. }
  unfold mbind at 1, M_bind at 1, modify at 1. cbn [fst snd].
  change (point_clouds (print ?e w)) with (point_clouds w).
  destruct (_copy_matrix (_effective_T (point_clouds w !!! src))) as [T|].
  2:{ exists []. split; [by left|].
      unfold mbind, M_bind, modify, mret, M_ret; cbn [fst snd console print].
      rewrite !imported_paths_app. by rewrite !app_nil_r. }
  exists [fname]. split; [right; split; [done|by eexists]|].
  destruct (importPointCloud h (path_join folder fname) fmt) as [[pcs cams] ms].
  unfold mbind at 1, M_bind at 1, modify at 1. cbn [fst snd].
  unfold mbind at 1, M_bind at 1, get at 1. cbn [fst snd point_clouds print].
  set (w1 := mkWorld (point_clouds w ++ pcs) _ _ _).
  set (w2 := print (EvImport (path_join folder fname)) w1).
  assert (imported_paths (console w2)
          = imported_paths (console w) ++ [path_join folder fname]) as Hw2.
  { unfold w2, w1. cbn [console print]. rewrite !imported_paths_app.
    cbn [imported_paths omap list_omap]. by rewrite app_nil_r. }
  destruct (filter _ (seq 0 (length (point_clouds w ++ pcs))))
    as [|i0 new_pcs'] eqn:Enew.
  { unfold mbind, M_bind, modify, mret, M_ret; cbn [fst snd console print].
    rewrite imported_paths_app, Hw2. apply app_nil_r. }
  rewrite <-Enew. clear Enew. cbn [fmap list_fmap]. rewrite <-Hw2.
  apply (for_each_inv
    (λ w0, imported_paths (console w0) = imported_paths (console w2)));
    [|done].
  intros acc item w0 _ <-. apply process_new_pc_imports.
Qed.

Lemma process_files_imports h folder loaded fmt files : ∀ existing w,
  ∃ fs, fs `sublist_of` files ∧
    (∀ f, f ∈ fs → is_Some (loaded !! _norm_name (splitext_root f))) ∧
    imported_paths
      (console (for_each (process_file h folder loaded fmt) existing files w).2)
    = imported_paths (console w) ++ (path_join folder <$> fs).
Proof.
  induction files as [|f files IH]; intros existing w.
  { exists []. split; [done|]. split; [by intros ? ?%elem_of_nil|].
    by rewrite app_nil_r. }
  destruct (process_file_imports h folder loaded fmt existing f w)
    as (l & Hl & Himp).
  cbn [for_each]. unfold mbind at 1, M_bind at 1.
  destruct (process_file h folder loaded fmt existing f w) as [[acc|e] w1].
  - destruct (IH acc w1) as (fs & Hsub & Hmap & Hrest). cbn [snd] in Himp.
    exists (l ++ fs). split; [|split].
    + destruct Hl as [->|[-> _]]; [by apply sublist_cons|by apply sublist_skip].
    + intros f' [Hf'|Hf']%elem_of_app; [|by apply Hmap].
      destruct Hl as [->|[-> Hsome]]; [by apply elem_of_nil in Hf'|].
      by apply list_elem_of_singleton in Hf' as ->.
    + by rewrite Hrest, Himp, fmap_app, (assoc_L (++)).
  - exists l. cbn [snd] in *. split; [|split].
    + destruct Hl as [->|[-> _]]; [apply sublist_nil_l|].
      apply sublist_skip, sublist_nil_l.
    + intros f' Hf'.
      destruct Hl as [->|[-> Hsome]]; [by apply elem_of_nil in Hf'|].
      by apply list_elem_of_singleton in Hf' as ->.
    + done.
Qed.

(** X17.  The import is called for files of the folder only, in the order of
    their names and for each at most as often as it is listed, with the path
    of the file in the folder; and only for a file whose name without
    extension is, up to case and white space, the label of a laser scan of the
    chunk. *)
Theorem imports_follow_the_files (h : Host) (w : World) :
  let w' := (importar_e57_y_aplicar_delta_y_mascaras h w).2 in
  ∃ files,
    files `sublist_of` e57_files h ∧
    imported_paths (console w')
    = imported_paths (console w) ++ (path_join (selected_folder h) <$> files) ∧
    ∀ f, f ∈ files →
      ∃ i, i < length (point_clouds w) ∧
           pc_is_laser_scan (point_clouds w !!! i) = true ∧
           _norm_name (pc_label (point_clouds w !!! i))
           = _norm_name (splitext_root f).
Proof.
  intros w'.
  assert (Hnil : ∀ w0,
    imported_paths (console w0) = imported_paths (console w) →
    ∃ files,
      files `sublist_of` e57_files h ∧
      imported_paths (console w0)
      = imported_paths (console w) ++ (path_join (selected_folder h) <$> files) ∧
      ∀ f, f ∈ files →
        ∃ i, i < length (point_clouds w) ∧
             pc_is_laser_scan (point_clouds w !!! i) = true ∧
             _norm_name (pc_label (point_clouds w !!! i))
             = _norm_name (splitext_root f)).
  { intros w0 H0. exists []. split; [apply sublist_nil_l|].
    split; [by rewrite app_nil_r|]. by intros ? ?%elem_of_nil. }
  unfold w', importar_e57_y_aplicar_delta_y_mascaras.
  destruct (active_chunk h); [|by apply Hnil]. cbn [negb].
  unfold mbind at 1, M_bind at 1, modify at 1. cbn [fst snd].
  assert (Hbox : imported_paths (console (print EvMessageBox w))
                 = imported_paths (console w)).
  { cbn [console print]. rewrite imported_paths_app. apply app_nil_r. }
  destruct (decide (selected_folder h = "")).
  { apply Hnil. unfold mbind, M_bind, modify, mret, M_ret; cbn [fst snd console print].
    rewrite !imported_paths_app. by rewrite !app_nil_r. }
  destruct (e57_files h) as [|f0 files] eqn:Efiles.
  { apply Hnil. unfold mbind, M_bind, modify, mret, M_ret; cbn [fst snd console print].
    rewrite !imported_paths_app. by rewrite !app_nil_r. }
  rewrite <-Efiles in *. clear Efiles.
  unfold mbind at 1, M_bind at 1, get at 1. cbn [fst snd].
  change (point_clouds (print EvMessageBox w)) with (point_clouds w).
  change (laser_scans (print EvMessageBox w)) with (laser_scans w).
  destruct (laser_scans w) as [|s0 scans] eqn:Escans.
  { apply Hnil. unfold mbind, M_bind, modify, mret, M_ret; cbn [fst snd console print].
    rewrite !imported_paths_app. by rewrite !app_nil_r. }
  rewrite <-Escans. clear Escans.
  unfold mbind at 1, M_bind at 1.
  destruct (register_stations_map (laser_scans w) ∅ (print EvMessageBox w))
    as (loaded & Hrun & Hlook).
  destruct (register_stations_effect (laser_scans w) ∅ (print EvMessageBox w))
    as (loaded' & labels & Heff).
  rewrite Heff in Hrun |- *. injection Hrun as ->.
  set (w1 := mkWorld _ _ _ (console (print EvMessageBox w) ++ _)).
  assert (Hw1 : imported_paths (console w1) = imported_paths (console w)).
  { cbn [console w1]. rewrite imported_paths_app, Hbox.
    rewrite <-(app_nil_r (imported_paths (console w))) at 2. f_equal.
    clear. by induction labels. }
  assert (Hsome : ∀ f, is_Some (loaded !! _norm_name (splitext_root f)) →
            ∃ i, i < length (point_clouds w) ∧
                 pc_is_laser_scan (point_clouds w !!! i) = true ∧
                 _norm_name (pc_label (point_clouds w !!! i))
                 = _norm_name (splitext_root f)).
  { intros f [i Hi]. rewrite Hlook, lookup_empty in Hi.
    destruct (decide (_norm_name (splitext_root f) = "")); [done|].
    destruct (list_find _ (laser_scans w)) as [[pos i']|] eqn:Hfind; [|done].
    injection Hi as ->. apply list_find_Some in Hfind as (Hpos & Hname & _).
    apply list_elem_of_lookup_2, list_elem_of_filter in Hpos as [Hl Hi].
    apply elem_of_seq in Hi. apply Is_true_true in Hl.
    exists i. split; [lia|]. by split. }
  unfold _get_e57_format.
  destruct (PointCloudFormatE57 h) as [fmt|];
    [|destruct (PointCloudFormat_PointCloudFormatE57 h) as [fmt|]];
    unfold mbind at 1, M_bind at 1, mret at 1, M_ret at 1, raise;
    cbn [fst snd]; try (by apply Hnil).
  all: unfold mbind at 1, M_bind at 1, modify at 1; cbn [fst snd].
  all: unfold mbind at 1, M_bind at 1.
  all: match goal with
       | |- context [for_each ?body ?acc ?l ?w2] =>
           destruct (process_files_imports h (selected_folder h) loaded fmt
                       l acc w2) as (fs & Hsub & Hmap & Himp);
           exists fs; split; [exact Hsub|]; split;
             [|intros f Hf; by apply Hsome, Hmap];
           cbn [console print] in Himp;
           rewrite imported_paths_app, Hw1, app_nil_r in Himp;
           by destruct (for_each body acc l w2) as [[?|?] ?]
       end.
Qed.


End imports.
